(** * sshtun: the tunnel lifecycle, its reference-counted SSH session and
      its accept loop

    A shallow embedding of [sshtun.go].  The sequential methods of [SSHTun]
    are functions on a record; a blocking [Start] call, with the goroutines
    it launches and the calls other goroutines make meanwhile, is a
    transition system whose steps are the atomic sections of the source. *)

From Stdlib Require Import ZArith String List Lia.
From stdpp Require Import base list strings gmap pretty.

Open Scope Z_scope.

(** ** What the Go runtime and the libraries provide *)

Module Go.

(** [int] on the 64-bit targets: two's complement, wrapping silently. *)
Definition intMin : Z := - 2 ^ 63.
Definition intMax : Z := 2 ^ 63 - 1.
Definition wrap (z : Z) : Z := (z + 2 ^ 63) mod 2 ^ 64 - 2 ^ 63.
Definition add (a b : Z) : Z := wrap (a + b).
Definition sub (a b : Z) : Z := wrap (a - b).

(** An [error] value.  [fmt.Errorf] without [%w] gives an [ErrorString];
    with a trailing [%w] it gives a [WrapError] that remembers its cause.
    Errors coming out of the collaborators (net, ssh, auth) are arbitrary
    values of this type. *)
Inductive error : Type :=
  | ErrorString (msg : string)
  | WrapError (msg : string) (cause : error).

Definition Error (e : error) : string :=
  match e with ErrorString m => m | WrapError m _ => m end.

Definition Unwrap (e : error) : option error :=
  match e with ErrorString _ => None | WrapError _ c => Some c end.

(** [fmt.Errorf(prefix + "%w", e)]: every wrapping format of the file ends
    in [": %w"], so the message is the formatted prefix followed by the
    message of the cause. *)
Definition Errorf_w (prefix : string) (e : error) : error :=
  WrapError (prefix +:+ Error e) e.

(** A Go [(T, error)] pair of which exactly one side is set. *)
Inductive result (A : Type) : Type :=
  | Ok (a : A)
  | Err (e : error).
Arguments Ok {A} a.
Arguments Err {A} e.

(** A call either returns or panics (nil dereference, call of a nil func). *)
Inductive Outcome (A : Type) : Type :=
  | Done (a : A)
  | Panic.
Arguments Done {A} a.
Arguments Panic {A}.

(** Contexts.  The context handed to [Start] belongs to the caller; the
    environment may cancel it at any time.  [context.WithCancel] hangs a
    fresh cancellation cell under its parent; the returned [CancelFunc]
    sets that cell, and doing so twice is the same as doing so once.  A
    context is done when its own cell or the one of an ancestor is set. *)
Inductive Context : Type :=
  | CallerCtx (k : nat)
  | WithCancel (parent : Context) (cell : nat).

Definition CancelFunc : Type := nat.

Record CtxStore : Type := {
  callerDone : gset nat;
  cancelled : gset nat;
  nextCell : nat
}.

Fixpoint ctxDone (s : CtxStore) (c : Context) : bool :=
  match c with
  | CallerCtx k => bool_decide (k ∈ callerDone s)
  | WithCancel p n => bool_decide (n ∈ cancelled s) || ctxDone s p
  end.

Definition withCancel (s : CtxStore) (parent : Context)
  : CtxStore * Context * CancelFunc :=
  ({| callerDone := callerDone s; cancelled := cancelled s;
      nextCell := S (nextCell s) |},
   WithCancel parent (nextCell s), nextCell s).

Definition callCancel (s : CtxStore) (f : CancelFunc) : CtxStore :=
  {| callerDone := callerDone s; cancelled := {[ f ]} ∪ cancelled s;
     nextCell := nextCell s |}.

Definition cancelCaller (s : CtxStore) (k : nat) : CtxStore :=
  {| callerDone := {[ k ]} ∪ callerDone s; cancelled := cancelled s;
     nextCell := nextCell s |}.

Definition emptyStore : CtxStore :=
  {| callerDone := ∅; cancelled := ∅; nextCell := 0 |}.

End Go.

Import Go.

(** [golang.org/x/sync/errgroup]: a group made by [WithContext] owns the
    cancel function of its derived context.  A task started by [Go] is
    counted until it returns; the first task to return a non-nil error has
    it recorded and cancels the context; [Wait] returns once no task is
    counted, cancels the context and hands back the recorded error. *)
Module Errgroup.

Record Group : Type := {
  gCtx : Context;
  gCancel : CancelFunc;
  gErr : option error;
  gRunning : nat
}.

Definition WithContext (s : CtxStore) (parent : Context) : CtxStore * Group :=
  let '(s', c, f) := withCancel s parent in
  (s', {| gCtx := c; gCancel := f; gErr := None; gRunning := 0 |}).

(** [g.Go(f)]: count the task (the goroutine itself is the caller's part). *)
Definition spawn (g : Group) : Group :=
  {| gCtx := gCtx g; gCancel := gCancel g; gErr := gErr g;
     gRunning := S (gRunning g) |}.

(** A task returns [r]. *)
Definition finish (s : CtxStore) (g : Group) (r : option error)
  : CtxStore * Group :=
  match r, gErr g with
  | Some e, None =>
      (callCancel s (gCancel g),
       {| gCtx := gCtx g; gCancel := gCancel g; gErr := Some e;
          gRunning := pred (gRunning g) |})
  | _, _ =>
      (s, {| gCtx := gCtx g; gCancel := gCancel g; gErr := gErr g;
             gRunning := pred (gRunning g) |})
  end.

(** [g.Wait()] can return only when no task is counted. *)
Definition Wait (s : CtxStore) (g : Group) : option (CtxStore * option error) :=
  match gRunning g with
  | O => Some (callCancel s (gCancel g), gErr g)
  | S _ => None
  end.

End Errgroup.

(** ** Data model *)

(** Modelled from the spec: the endpoint value type, its constructors and
    its [Type] and [String] methods live in a file that is not among the
    sources.  The spec gives it a kind (TCP or unix socket), a host, a port
    and a socket path, formatted as [host:port] or as the path. *)
Inductive EndpointKind : Type := TCP | UnixSocket.

Record Endpoint : Type := {
  kind : EndpointKind;
  host : string;
  port : Z;
  unixSocket : string
}.

Definition NewTCPEndpoint (h : string) (p : Z) : Endpoint :=
  {| kind := TCP; host := h; port := p; unixSocket := "" |}.

Definition NewUnixEndpoint (socket : string) : Endpoint :=
  {| kind := UnixSocket; host := ""; port := 0; unixSocket := socket |}.

Definition endpointType (e : Endpoint) : string :=
  match kind e with TCP => "tcp" | UnixSocket => "unix" end.

Definition endpointString (e : Endpoint) : string :=
  match kind e with
  | TCP => host e +:+ ":" +:+ pretty (port e)
  | UnixSocket => unixSocket e
  end.

(** [type ForwardType int], with [Local] and [Remote] its two named values;
    [SetForwardType] accepts any integer. *)
Definition ForwardType : Type := Z.
Definition Local : ForwardType := 0.
Definition Remote : ForwardType := 1.

Inductive ConnState : Type := StateStopped | StateStarting | StateStarted.

(** The authentication kinds named by the setters of the file. *)
Inductive AuthType : Type :=
  | AuthTypeAuto
  | AuthTypeKeyFile
  | AuthTypeEncryptedKeyFile
  | AuthTypeKeyReader
  | AuthTypeEncryptedKeyReader
  | AuthTypeSSHAgent
  | AuthTypePassword.

(** Handles on objects of the collaborators: an [*ssh.Client], an
    [io.Reader], an [ssh.AuthMethod], a [net.Listener], a [net.Conn], and
    the two callbacks (Go function values). *)
Definition Client : Type := nat.
Definition Reader : Type := nat.
Definition AuthMethod : Type := nat.
Definition Listener : Type := nat.
Definition Conn : Type := nat.
Definition Callback : Type := nat.

Record ClientConfig : Type := {
  KeyExchanges : list string;
  Ciphers : list string;
  MACs : list string;
  User : string;
  Timeout : Z;
  Auth : list AuthMethod
}.

(** The [SSHTun] struct.  The mutex has no field here: a section of code
    that holds it is one atomic step of the model.  Pointers are options. *)
Record SSHTun : Type := {
  ctx : option Context;
  cancel : option CancelFunc;
  started : bool;
  user : string;
  authType : AuthType;
  authKeyFile : string;
  authKeyReader : option Reader;
  authPassword : string;
  server : option Endpoint;
  local : option Endpoint;
  remote : option Endpoint;
  forwardType : ForwardType;
  timeout : Z;
  connState : option Callback;
  tunneledConnState : option Callback;
  active : Z;
  sshClient : option Client;
  sshConfig : option ClientConfig;
  sshConfigKeyExchanges : list string;
  sshConfigCiphers : list string;
  sshConfigMACs : list string;
  name : string
}.

(** Field assignments. *)
Definition set_started (b : bool) (t : SSHTun) : SSHTun :=
  {| ctx := ctx t; cancel := cancel t; started := b; user := user t;
     authType := authType t; authKeyFile := authKeyFile t;
     authKeyReader := authKeyReader t; authPassword := authPassword t;
     server := server t; local := local t; remote := remote t;
     forwardType := forwardType t; timeout := timeout t;
     connState := connState t; tunneledConnState := tunneledConnState t;
     active := active t; sshClient := sshClient t; sshConfig := sshConfig t;
     sshConfigKeyExchanges := sshConfigKeyExchanges t;
     sshConfigCiphers := sshConfigCiphers t;
     sshConfigMACs := sshConfigMACs t; name := name t |}.

Definition set_ctx (c : option Context) (f : option CancelFunc) (t : SSHTun)
  : SSHTun :=
  {| ctx := c; cancel := f; started := started t; user := user t;
     authType := authType t; authKeyFile := authKeyFile t;
     authKeyReader := authKeyReader t; authPassword := authPassword t;
     server := server t; local := local t; remote := remote t;
     forwardType := forwardType t; timeout := timeout t;
     connState := connState t; tunneledConnState := tunneledConnState t;
     active := active t; sshClient := sshClient t; sshConfig := sshConfig t;
     sshConfigKeyExchanges := sshConfigKeyExchanges t;
     sshConfigCiphers := sshConfigCiphers t;
     sshConfigMACs := sshConfigMACs t; name := name t |}.

Definition set_forwardType (f : ForwardType) (t : SSHTun) : SSHTun :=
  {| ctx := ctx t; cancel := cancel t; started := started t; user := user t;
     authType := authType t; authKeyFile := authKeyFile t;
     authKeyReader := authKeyReader t; authPassword := authPassword t;
     server := server t; local := local t; remote := remote t;
     forwardType := f; timeout := timeout t;
     connState := connState t; tunneledConnState := tunneledConnState t;
     active := active t; sshClient := sshClient t; sshConfig := sshConfig t;
     sshConfigKeyExchanges := sshConfigKeyExchanges t;
     sshConfigCiphers := sshConfigCiphers t;
     sshConfigMACs := sshConfigMACs t; name := name t |}.

Definition set_active (a : Z) (t : SSHTun) : SSHTun :=
  {| ctx := ctx t; cancel := cancel t; started := started t; user := user t;
     authType := authType t; authKeyFile := authKeyFile t;
     authKeyReader := authKeyReader t; authPassword := authPassword t;
     server := server t; local := local t; remote := remote t;
     forwardType := forwardType t; timeout := timeout t;
     connState := connState t; tunneledConnState := tunneledConnState t;
     active := a; sshClient := sshClient t; sshConfig := sshConfig t;
     sshConfigKeyExchanges := sshConfigKeyExchanges t;
     sshConfigCiphers := sshConfigCiphers t;
     sshConfigMACs := sshConfigMACs t; name := name t |}.

Definition set_sshClient (c : option Client) (t : SSHTun) : SSHTun :=
  {| ctx := ctx t; cancel := cancel t; started := started t; user := user t;
     authType := authType t; authKeyFile := authKeyFile t;
     authKeyReader := authKeyReader t; authPassword := authPassword t;
     server := server t; local := local t; remote := remote t;
     forwardType := forwardType t; timeout := timeout t;
     connState := connState t; tunneledConnState := tunneledConnState t;
     active := active t; sshClient := c; sshConfig := sshConfig t;
     sshConfigKeyExchanges := sshConfigKeyExchanges t;
     sshConfigCiphers := sshConfigCiphers t;
     sshConfigMACs := sshConfigMACs t; name := name t |}.

Definition set_sshConfig (c : option ClientConfig) (t : SSHTun) : SSHTun :=
  {| ctx := ctx t; cancel := cancel t; started := started t; user := user t;
     authType := authType t; authKeyFile := authKeyFile t;
     authKeyReader := authKeyReader t; authPassword := authPassword t;
     server := server t; local := local t; remote := remote t;
     forwardType := forwardType t; timeout := timeout t;
     connState := connState t; tunneledConnState := tunneledConnState t;
     active := active t; sshClient := sshClient t; sshConfig := c;
     sshConfigKeyExchanges := sshConfigKeyExchanges t;
     sshConfigCiphers := sshConfigCiphers t;
     sshConfigMACs := sshConfigMACs t; name := name t |}.

Definition set_connState (f : option Callback) (t : SSHTun) : SSHTun :=
  {| ctx := ctx t; cancel := cancel t; started := started t; user := user t;
     authType := authType t; authKeyFile := authKeyFile t;
     authKeyReader := authKeyReader t; authPassword := authPassword t;
     server := server t; local := local t; remote := remote t;
     forwardType := forwardType t; timeout := timeout t;
     connState := f; tunneledConnState := tunneledConnState t;
     active := active t; sshClient := sshClient t; sshConfig := sshConfig t;
     sshConfigKeyExchanges := sshConfigKeyExchanges t;
     sshConfigCiphers := sshConfigCiphers t;
     sshConfigMACs := sshConfigMACs t; name := name t |}.

Definition set_tunneledConnState (f : option Callback) (t : SSHTun) : SSHTun :=
  {| ctx := ctx t; cancel := cancel t; started := started t; user := user t;
     authType := authType t; authKeyFile := authKeyFile t;
     authKeyReader := authKeyReader t; authPassword := authPassword t;
     server := server t; local := local t; remote := remote t;
     forwardType := forwardType t; timeout := timeout t;
     connState := connState t; tunneledConnState := f;
     active := active t; sshClient := sshClient t; sshConfig := sshConfig t;
     sshConfigKeyExchanges := sshConfigKeyExchanges t;
     sshConfigCiphers := sshConfigCiphers t;
     sshConfigMACs := sshConfigMACs t; name := name t |}.

Definition set_name (n : string) (t : SSHTun) : SSHTun :=
  {| ctx := ctx t; cancel := cancel t; started := started t; user := user t;
     authType := authType t; authKeyFile := authKeyFile t;
     authKeyReader := authKeyReader t; authPassword := authPassword t;
     server := server t; local := local t; remote := remote t;
     forwardType := forwardType t; timeout := timeout t;
     connState := connState t; tunneledConnState := tunneledConnState t;
     active := active t; sshClient := sshClient t; sshConfig := sshConfig t;
     sshConfigKeyExchanges := sshConfigKeyExchanges t;
     sshConfigCiphers := sshConfigCiphers t;
     sshConfigMACs := sshConfigMACs t; name := n |}.

(** ** Constructors and the setters used below *)

Definition defaultSSHTun (srv : string) : SSHTun :=
  {| ctx := None; cancel := None; started := false; user := "root";
     authType := AuthTypeAuto; authKeyFile := ""; authKeyReader := None;
     authPassword := ""; server := Some (NewTCPEndpoint srv 22);
     local := None; remote := None; forwardType := Local;
     timeout := 15 * 1000000000;
     connState := None; tunneledConnState := None;
     active := 0; sshClient := None; sshConfig := None;
     sshConfigKeyExchanges := []; sshConfigCiphers := [];
     sshConfigMACs := []; name := "" |}.

Definition set_endpoints (l r : option Endpoint) (t : SSHTun) : SSHTun :=
  {| ctx := ctx t; cancel := cancel t; started := started t; user := user t;
     authType := authType t; authKeyFile := authKeyFile t;
     authKeyReader := authKeyReader t; authPassword := authPassword t;
     server := server t; local := l; remote := r;
     forwardType := forwardType t; timeout := timeout t;
     connState := connState t; tunneledConnState := tunneledConnState t;
     active := active t; sshClient := sshClient t; sshConfig := sshConfig t;
     sshConfigKeyExchanges := sshConfigKeyExchanges t;
     sshConfigCiphers := sshConfigCiphers t;
     sshConfigMACs := sshConfigMACs t; name := name t |}.

Definition New (localPort : Z) (srv : string) (remotePort : Z) : SSHTun :=
  set_endpoints (Some (NewTCPEndpoint "localhost" localPort))
                (Some (NewTCPEndpoint "localhost" remotePort))
                (defaultSSHTun srv).

Definition NewRemote (localPort : Z) (srv : string) (remotePort : Z) : SSHTun :=
  set_forwardType Remote (New localPort srv remotePort).

Definition NewUnix (localUnixSocket srv remoteUnixSocket : string) : SSHTun :=
  set_endpoints (Some (NewUnixEndpoint localUnixSocket))
                (Some (NewUnixEndpoint remoteUnixSocket))
                (defaultSSHTun srv).

Definition NewUnixRemote (localUnixSocket srv remoteUnixSocket : string) : SSHTun :=
  set_forwardType Remote (NewUnix localUnixSocket srv remoteUnixSocket).

Definition SetForwardType (f : ForwardType) (t : SSHTun) : SSHTun :=
  set_forwardType f t.

Definition SetConnState (f : option Callback) (t : SSHTun) : SSHTun :=
  set_connState f t.

Definition SetTunneledConnState (f : option Callback) (t : SSHTun) : SSHTun :=
  set_tunneledConnState f t.

Definition SetName (n : string) (t : SSHTun) : SSHTun := set_name n t.

Definition Name (t : SSHTun) : string := name t.

(** ** The other setters

    Each setter assigns fields of the tunnel it is called on.  [SetPort],
    [SetLocalHost] and [SetRemoteHost] write through an endpoint pointer
    and are not modelled. *)


(** More field assignments. *)
Definition set_user (u : string) (t : SSHTun) : SSHTun :=
  {| ctx := ctx t; cancel := cancel t; started := started t; user := u;
     authType := authType t; authKeyFile := authKeyFile t;
     authKeyReader := authKeyReader t; authPassword := authPassword t;
     server := server t; local := local t; remote := remote t;
     forwardType := forwardType t; timeout := timeout t;
     connState := connState t; tunneledConnState := tunneledConnState t;
     active := active t; sshClient := sshClient t; sshConfig := sshConfig t;
     sshConfigKeyExchanges := sshConfigKeyExchanges t;
     sshConfigCiphers := sshConfigCiphers t;
     sshConfigMACs := sshConfigMACs t; name := name t |}.

Definition set_auth (ty : AuthType) (file : string) (reader : option Reader)
    (password : string) (t : SSHTun) : SSHTun :=
  {| ctx := ctx t; cancel := cancel t; started := started t; user := user t;
     authType := ty; authKeyFile := file; authKeyReader := reader;
     authPassword := password; server := server t; local := local t;
     remote := remote t; forwardType := forwardType t; timeout := timeout t;
     connState := connState t; tunneledConnState := tunneledConnState t;
     active := active t; sshClient := sshClient t; sshConfig := sshConfig t;
     sshConfigKeyExchanges := sshConfigKeyExchanges t;
     sshConfigCiphers := sshConfigCiphers t;
     sshConfigMACs := sshConfigMACs t; name := name t |}.

Definition set_timeout (d : Z) (t : SSHTun) : SSHTun :=
  {| ctx := ctx t; cancel := cancel t; started := started t; user := user t;
     authType := authType t; authKeyFile := authKeyFile t;
     authKeyReader := authKeyReader t; authPassword := authPassword t;
     server := server t; local := local t; remote := remote t;
     forwardType := forwardType t; timeout := d; connState := connState t;
     tunneledConnState := tunneledConnState t; active := active t;
     sshClient := sshClient t; sshConfig := sshConfig t;
     sshConfigKeyExchanges := sshConfigKeyExchanges t;
     sshConfigCiphers := sshConfigCiphers t;
     sshConfigMACs := sshConfigMACs t; name := name t |}.

Definition set_algorithms (kex ciphers macs : list string) (t : SSHTun) : SSHTun :=
  {| ctx := ctx t; cancel := cancel t; started := started t; user := user t;
     authType := authType t; authKeyFile := authKeyFile t;
     authKeyReader := authKeyReader t; authPassword := authPassword t;
     server := server t; local := local t; remote := remote t;
     forwardType := forwardType t; timeout := timeout t;
     connState := connState t; tunneledConnState := tunneledConnState t;
     active := active t; sshClient := sshClient t; sshConfig := sshConfig t;
     sshConfigKeyExchanges := kex; sshConfigCiphers := ciphers;
     sshConfigMACs := macs; name := name t |}.

Definition SetKeyExchanges (keyExchanges : list string) (t : SSHTun) : SSHTun :=
  set_algorithms keyExchanges (sshConfigCiphers t) (sshConfigMACs t) t.

Definition SetCiphers (ciphers : list string) (t : SSHTun) : SSHTun :=
  set_algorithms (sshConfigKeyExchanges t) ciphers (sshConfigMACs t) t.

Definition SetMACs (macs : list string) (t : SSHTun) : SSHTun :=
  set_algorithms (sshConfigKeyExchanges t) (sshConfigCiphers t) macs t.

Definition SetUser (u : string) (t : SSHTun) : SSHTun := set_user u t.

(** The six setters that choose the authentication.  A reader is a Go
    interface value and may be nil. *)
Definition SetKeyFile (file : string) (t : SSHTun) : SSHTun :=
  set_auth AuthTypeKeyFile file (authKeyReader t) (authPassword t) t.

Definition SetEncryptedKeyFile (file password : string) (t : SSHTun) : SSHTun :=
  set_auth AuthTypeEncryptedKeyFile file (authKeyReader t) password t.

Definition SetKeyReader (reader : option Reader) (t : SSHTun) : SSHTun :=
  set_auth AuthTypeKeyReader (authKeyFile t) reader (authPassword t) t.

Definition SetEncryptedKeyReader (reader : option Reader) (password : string)
    (t : SSHTun) : SSHTun :=
  set_auth AuthTypeEncryptedKeyReader (authKeyFile t) reader password t.

Definition SetSSHAgent (t : SSHTun) : SSHTun :=
  set_auth AuthTypeSSHAgent (authKeyFile t) (authKeyReader t) (authPassword t) t.

Definition SetPassword (password : string) (t : SSHTun) : SSHTun :=
  set_auth AuthTypePassword (authKeyFile t) (authKeyReader t) password t.

(** The endpoint setters take a pointer, which may be nil. *)
Definition SetLocalEndpoint (endpoint : option Endpoint) (t : SSHTun) : SSHTun :=
  set_endpoints endpoint (remote t) t.

Definition SetRemoteEndpoint (endpoint : option Endpoint) (t : SSHTun) : SSHTun :=
  set_endpoints (local t) endpoint t.

Definition SetTimeout (d : Z) (t : SSHTun) : SSHTun := set_timeout d t.

(** A call of one of the six setters that choose the authentication. *)
Inductive AuthCall : Type :=
  | CallSetKeyFile (file : string)
  | CallSetEncryptedKeyFile (file password : string)
  | CallSetKeyReader (reader : option Reader)
  | CallSetEncryptedKeyReader (reader : option Reader) (password : string)
  | CallSetSSHAgent
  | CallSetPassword (password : string).

Definition callAuth (t : SSHTun) (c : AuthCall) : SSHTun :=
  match c with
  | CallSetKeyFile f => SetKeyFile f t
  | CallSetEncryptedKeyFile f p => SetEncryptedKeyFile f p t
  | CallSetKeyReader r => SetKeyReader r t
  | CallSetEncryptedKeyReader r p => SetEncryptedKeyReader r p t
  | CallSetSSHAgent => SetSSHAgent t
  | CallSetPassword p => SetPassword p t
  end.

(** The calls are made one after the other, the first of the list first. *)
Definition callAuths (cs : list AuthCall) (t : SSHTun) : SSHTun :=
  foldl callAuth t cs.

(** What a call names: the authentication kind, and the file, the reader
    and the password it is given, if any. *)
Definition selects (c : AuthCall) : AuthType :=
  match c with
  | CallSetKeyFile _ => AuthTypeKeyFile
  | CallSetEncryptedKeyFile _ _ => AuthTypeEncryptedKeyFile
  | CallSetKeyReader _ => AuthTypeKeyReader
  | CallSetEncryptedKeyReader _ _ => AuthTypeEncryptedKeyReader
  | CallSetSSHAgent => AuthTypeSSHAgent
  | CallSetPassword _ => AuthTypePassword
  end.

Definition fileOf (c : AuthCall) : option string :=
  match c with
  | CallSetKeyFile f | CallSetEncryptedKeyFile f _ => Some f
  | _ => None
  end.

Definition readerOf (c : AuthCall) : option (option Reader) :=
  match c with
  | CallSetKeyReader r | CallSetEncryptedKeyReader r _ => Some r
  | _ => None
  end.

Definition passwordOf (c : AuthCall) : option string :=
  match c with
  | CallSetEncryptedKeyFile _ p | CallSetEncryptedKeyReader _ p
  | CallSetPassword p => Some p
  | _ => None
  end.

(** The last value a list of calls gives, or [d] when none gives one. *)
Definition lastGiven {A : Type} (f : AuthCall -> option A) (cs : list AuthCall)
    (d : A) : A :=
  default d (last (omap f cs)).

(** ** Endpoint selection *)

Definition fromEndpoint (tun : SSHTun) : option Endpoint :=
  if forwardType tun =? Remote then remote tun else local tun.

Definition toEndpoint (tun : SSHTun) : option Endpoint :=
  if forwardType tun =? Remote then local tun else remote tun.

Definition forwardFromName (tun : SSHTun) : string :=
  if forwardType tun =? Remote then "remote" else "local".

Definition forwardToName (tun : SSHTun) : string :=
  if forwardType tun =? Remote then "local" else "remote".

(** ** What an observer can see

    Calls of the two callbacks, in the order they are made, and the calls
    that open and close SSH sessions. *)

(** Modelled from the spec: the per-connection snapshot handed to the
    connection callback is declared in a file that is not among the sources.
    The spec gives it a state tag and an optional error (the two addresses
    are left out: a connection is identified by its handle). *)
Inductive TunneledTag : Type := ConnStarted | ConnStopped | ConnError.

Record TunneledConnState : Type := {
  tcsConn : Conn;
  tcsTag : TunneledTag;
  tcsErr : option error
}.

Inductive Event : Type :=
  | EvConnState (f : Callback) (st : ConnState)
  | EvTunneledConnState (f : Callback) (st : TunneledConnState)
  | EvDial (r : result Client)
  | EvClose (c : Client).

(** The memory the methods work on: the tunnel, the cancellation cells of
    the contexts, and the trace of events so far. *)
Record Mem : Type := {
  tun : SSHTun;
  store : CtxStore;
  trace : list Event
}.

Definition with_tun (t : SSHTun) (m : Mem) : Mem :=
  {| tun := t; store := store m; trace := trace m |}.

Definition with_store (s : CtxStore) (m : Mem) : Mem :=
  {| tun := tun m; store := s; trace := trace m |}.

Definition emit (e : Event) (m : Mem) : Mem :=
  {| tun := tun m; store := store m; trace := trace m ++ [e] |}.

(** [if tun.connState != nil { tun.connState(tun, st) }] *)
Definition notifyConnState (st : ConnState) (m : Mem) : Mem :=
  match connState (tun m) with
  | Some f => emit (EvConnState f st) m
  | None => m
  end.

(** The same guard for the connection callback. *)
Definition notifyTunneledConnState (st : TunneledConnState) (m : Mem) : Mem :=
  match tunneledConnState (tun m) with
  | Some f => emit (EvTunneledConnState f st) m
  | None => m
  end.

(** Projections of a trace. *)
Definition connStates (tr : list Event) : list ConnState :=
  omap (fun e => match e with EvConnState _ st => Some st | _ => None end) tr.

Definition isTunneled (e : Event) : bool :=
  match e with EvTunneledConnState _ _ => true | _ => false end.

Definition isOpen (e : Event) : bool :=
  match e with EvDial (Ok _) => true | _ => false end.

Definition isDial (e : Event) : bool :=
  match e with EvDial _ => true | _ => false end.

Definition isClose (e : Event) : bool :=
  match e with EvClose _ => true | _ => false end.

Definition count (p : Event -> bool) (tr : list Event) : nat :=
  length (filter (fun e => p e = true) tr).

(** ** The reference-counted session *)

Definition dialError (srv : Endpoint) (e : error) : error :=
  Errorf_w ("ssh dial " +:+ endpointType srv +:+ " to " +:+ endpointString srv
            +:+ " failed: ") e.

(** [addConn].  [dial] is what [ssh.Dial] answers if it is called. *)
Definition addConn (dial : result Client) (m : Mem) : Outcome (Mem * option error) :=
  if (forwardType (tun m) =? Local) && (active (tun m) =? 0) then
    match server (tun m) with
    | None => Panic
    | Some srv =>
        match dial with
        | Err e => Done (emit (EvDial dial) m, Some (dialError srv e))
        | Ok c =>
            let m1 := emit (EvDial dial) m in
            let m2 := with_tun (set_sshClient (Some c) (tun m1)) m1 in
            Done (with_tun (set_active (add (active (tun m2)) 1) (tun m2)) m2,
                  None)
        end
    end
  else
    Done (with_tun (set_active (add (active (tun m)) 1) (tun m)) m, None).

(** [removeConn].  Closing through a nil [*ssh.Client] panics. *)
Definition removeConn (m : Mem) : Outcome Mem :=
  let m1 := with_tun (set_active (sub (active (tun m)) 1) (tun m)) m in
  if (forwardType (tun m1) =? Local) && (active (tun m1) =? 0) then
    match sshClient (tun m1) with
    | None => Panic
    | Some c =>
        let m2 := emit (EvClose c) m1 in
        Done (with_tun (set_sshClient None (tun m2)) m2)
    end
  else Done m1.

(** A serialized history of calls on the pool: every call runs to its end
    under the mutex before the next one starts. *)
Inductive PoolCall : Type :=
  | Acquire (dial : result Client)
  | Release.

(** One executed call: the memory before, the call, what it returned and
    the memory after ([None] for a panic). *)
Record PoolStep : Type := {
  psBefore : Mem;
  psCall : PoolCall;
  psRet : option error;
  psAfter : option Mem
}.

Definition poolStep (c : PoolCall) (m : Mem) : PoolStep :=
  match c with
  | Acquire d =>
      match addConn d m with
      | Done (m', r) =>
          {| psBefore := m; psCall := c; psRet := r; psAfter := Some m' |}
      | Panic => {| psBefore := m; psCall := c; psRet := None; psAfter := None |}
      end
  | Release =>
      match removeConn m with
      | Done m' => {| psBefore := m; psCall := c; psRet := None; psAfter := Some m' |}
      | Panic => {| psBefore := m; psCall := c; psRet := None; psAfter := None |}
      end
  end.

(** The steps of a history; a panic ends it. *)
Fixpoint runPool (m : Mem) (cs : list PoolCall) : list PoolStep :=
  match cs with
  | [] => []
  | c :: cs' =>
      let st := poolStep c m in
      st :: match psAfter st with
            | Some m' => runPool m' cs'
            | None => []
            end
  end.

(** Every [Release] is preceded by a successful [Acquire] of its own:
    [held] counts the successful acquires not yet released. *)
Fixpoint matched (held : nat) (steps : list PoolStep) : Prop :=
  match steps with
  | [] => True
  | st :: rest =>
      match psCall st, psRet st with
      | Acquire _, None => matched (S held) rest
      | Acquire _, Some _ => matched held rest
      | Release, _ =>
          match held with
          | O => False
          | S h => matched h rest
          end
      end
  end.

(** What a step did to the session, read off the trace it appended. *)
Definition stepEvents (st : PoolStep) : list Event :=
  match psAfter st with
  | Some m' => drop (length (trace (psBefore st))) (trace m')
  | None => []
  end.

(** The successful acquires not yet released once the step [st] is over,
    when there were [held] of them before it. *)
Definition heldAfter (held : nat) (st : PoolStep) : nat :=
  match psCall st, psRet st with
  | Acquire _, None => S held
  | Acquire _, Some _ => held
  | Release, _ => pred held
  end.

(** [active] follows the calls: before every step of the history it is the
    number of successful acquires not yet released, and the step returns
    with [active] at that number for the history one call longer. *)
Fixpoint tracked (held : nat) (steps : list PoolStep) : Prop :=
  match steps with
  | [] => True
  | st :: rest =>
      active (tun (psBefore st)) = Z.of_nat held /\
      (exists m', psAfter st = Some m' /\
                  active (tun m') = Z.of_nat (heldAfter held st)) /\
      tracked (heldAfter held st) rest
  end.

(** ** Stop *)

(** [Stop]: under the mutex, [if tun.started { tun.cancel() }]. *)
Definition Stop (m : Mem) : Outcome Mem :=
  if started (tun m) then
    match cancel (tun m) with
    | Some f => Done (with_store (callCancel (store m) f) m)
    | None => Panic
    end
  else Done m.

(** [n] calls of [Stop] in a row. *)
Fixpoint StopTimes (n : nat) (m : Mem) : Outcome Mem :=
  match n with
  | O => Done m
  | S k => match Stop m with Done m' => StopTimes k m' | Panic => Panic end
  end.

(** ** A Start call and the goroutines around it

    The goroutine that called [Start], the goroutine running [listen], the
    accept loop and one handler per accepted connection each stand at a
    program point; a step moves one of them across one atomic section (a
    section under the mutex, one callback, one call of a collaborator).
    Calls of [Stop] by other goroutines and the cancellation of the
    caller's context interleave freely. *)

Inductive MainPc : Type :=
  | MEnter (parent : Context)      (* Start(ctx), before taking the mutex *)
  | MStarting                      (* before the StateStarting callback *)
  | MConfig                        (* before initSSHConfig *)
  | MListen                        (* before the local Listen / the ssh.Dial *)
  | MRemoteListen (c : Client)     (* before sshClient.Listen *)
  | MSpawn (l : option Listener)   (* before the go statement *)
  | MStarted                       (* before the StateStarted callback *)
  | MRecv                          (* blocked on <-errChan *)
  | MStop (err : option error)     (* in stop(err), before the mutex *)
  | MStopped (err : option error)  (* in stop(err), before the callback *)
  | MReturned (err : option error).

Inductive ListenPc : Type :=
  | LNone                          (* the goroutine has not been launched *)
  | LInit (l : option Listener)    (* before errgroup.WithContext and Go *)
  | LWaitDone                      (* blocked on <-groupCtx.Done() *)
  | LClose                         (* before listener.Close() *)
  | LWait                          (* blocked in errGroup.Wait() *)
  | LSelect (err : option error)   (* before the select on tun.ctx.Done() *)
  | LSend (err : option error)     (* blocked on errChan <- *)
  | LExit.

Inductive AcceptPc : Type :=
  | ANone
  | ARunning
  | AReturned (err : error).

Inductive HandlerPc : Type :=
  | HAdd                           (* before addConn *)
  | HForward                       (* in forward, before its first callback *)
  | HCopy                          (* in forward, copying bytes *)
  | HRemove                        (* before removeConn *)
  | HReturned (err : option error).

Record World : Type := {
  mem : Mem;
  mainPc : MainPc;
  listenPc : ListenPc;
  group : option Errgroup.Group;
  listener : option Listener;
  listenerClosed : bool;
  acceptPc : AcceptPc;
  handlers : list HandlerPc;
  crashed : bool
}.

Definition with_mem (m : Mem) (w : World) : World :=
  {| mem := m; mainPc := mainPc w; listenPc := listenPc w; group := group w;
     listener := listener w; listenerClosed := listenerClosed w;
     acceptPc := acceptPc w; handlers := handlers w; crashed := crashed w |}.

Definition with_main (p : MainPc) (w : World) : World :=
  {| mem := mem w; mainPc := p; listenPc := listenPc w; group := group w;
     listener := listener w; listenerClosed := listenerClosed w;
     acceptPc := acceptPc w; handlers := handlers w; crashed := crashed w |}.

Definition with_listen (p : ListenPc) (w : World) : World :=
  {| mem := mem w; mainPc := mainPc w; listenPc := p; group := group w;
     listener := listener w; listenerClosed := listenerClosed w;
     acceptPc := acceptPc w; handlers := handlers w; crashed := crashed w |}.

Definition with_group (g : option Errgroup.Group) (w : World) : World :=
  {| mem := mem w; mainPc := mainPc w; listenPc := listenPc w; group := g;
     listener := listener w; listenerClosed := listenerClosed w;
     acceptPc := acceptPc w; handlers := handlers w; crashed := crashed w |}.

Definition with_listener (l : option Listener) (w : World) : World :=
  {| mem := mem w; mainPc := mainPc w; listenPc := listenPc w; group := group w;
     listener := l; listenerClosed := listenerClosed w;
     acceptPc := acceptPc w; handlers := handlers w; crashed := crashed w |}.

Definition with_closed (b : bool) (w : World) : World :=
  {| mem := mem w; mainPc := mainPc w; listenPc := listenPc w; group := group w;
     listener := listener w; listenerClosed := b;
     acceptPc := acceptPc w; handlers := handlers w; crashed := crashed w |}.

Definition with_accept (p : AcceptPc) (w : World) : World :=
  {| mem := mem w; mainPc := mainPc w; listenPc := listenPc w; group := group w;
     listener := listener w; listenerClosed := listenerClosed w;
     acceptPc := p; handlers := handlers w; crashed := crashed w |}.

Definition with_handlers (h : list HandlerPc) (w : World) : World :=
  {| mem := mem w; mainPc := mainPc w; listenPc := listenPc w; group := group w;
     listener := listener w; listenerClosed := listenerClosed w;
     acceptPc := acceptPc w; handlers := h; crashed := crashed w |}.

(** A panic in any goroutine takes the process down. *)
Definition crash (w : World) : World :=
  {| mem := mem w; mainPc := mainPc w; listenPc := listenPc w; group := group w;
     listener := listener w; listenerClosed := listenerClosed w;
     acceptPc := acceptPc w; handlers := handlers w; crashed := true |}.

(** What the environment decides in a step: which goroutine moves, and what
    the collaborator it calls answers. *)
Inductive Action : Type :=
  | MainStep
  | MainConfig (auth : result AuthMethod)     (* getSSHAuthMethod *)
  | MainListen (r : result Listener)          (* listenConfig.Listen *)
  | MainDial (r : result Client)              (* ssh.Dial in Start *)
  | MainRemoteListen (r : result Listener)    (* sshClient.Listen *)
  | ListenStep
  | Accept (r : option error)                 (* listener.Accept: a
                                                 connection, or an error *)
  | HandlerAdd (c : Conn) (dial : result Client)
  | HandlerStep (c : Conn)
  | HandlerEnd (c : Conn) (err : option error) (* the copy is over *)
  | CallStop
  | CancelCaller (k : nat).

(** *** The pieces of [Start] *)

Definition alreadyStarted : error := ErrorString "already started".

(** The section of [Start] under the mutex. *)
Definition startLock (parent : Context) (m : Mem) : Mem * option error :=
  if started (tun m) then (m, Some alreadyStarted)
  else
    let '(s', c, f) := withCancel (store m) parent in
    ({| tun := set_ctx (Some c) (Some f) (set_started true (tun m));
        store := s'; trace := trace m |}, None).

(** The same section when [Start] is handed a nil context: on a tunnel that
    is not started [context.WithCancel] panics, [started] being set and the
    mutex held.  The runs below are those of a [Start] that was handed a
    context. *)
Definition startLockNil (m : Mem) : Outcome (Mem * option error) :=
  if started (tun m) then Done (m, Some alreadyStarted) else Panic.

(** [initSSHConfig]; [auth] is what [getSSHAuthMethod] answers. *)
Definition initSSHConfig (auth : result AuthMethod) (t : SSHTun)
  : result ClientConfig :=
  match auth with
  | Err e => Err e
  | Ok a =>
      Ok {| KeyExchanges := sshConfigKeyExchanges t;
            Ciphers := sshConfigCiphers t;
            MACs := sshConfigMACs t;
            User := user t;
            Timeout := timeout t;
            Auth := [a] |}
  end.

Definition configError (e : error) : error :=
  Errorf_w "ssh config failed: " e.

Definition localListenError (ep : Endpoint) (e : error) : error :=
  Errorf_w ("local listen " +:+ endpointType ep +:+ " on " +:+ endpointString ep
            +:+ " failed: ") e.

Definition remoteListenError (ep : Endpoint) (e : error) : error :=
  Errorf_w ("remote listen " +:+ endpointType ep +:+ " on "
            +:+ endpointString ep +:+ " failed: ") e.

Definition acceptError (t : SSHTun) (ep : Endpoint) (e : error) : error :=
  Errorf_w (forwardFromName t +:+ " accept " +:+ endpointType ep +:+ " on "
            +:+ endpointString ep +:+ " failed: ") e.

(** The two halves of [stop(err)]: the flag under the mutex, then the
    callback. *)
Definition stopLock (m : Mem) : Mem := with_tun (set_started false (tun m)) m.

Definition stopNotify (m : Mem) : Mem := notifyConnState StateStopped m.

(** Modelled from the spec: [forward] is defined in a file that is not among
    the sources.  The spec has it emit a connection notification when it
    starts and one when it ends, the latter carrying the terminal error if
    there is one. *)
Definition forwardBegin (c : Conn) (m : Mem) : Mem :=
  notifyTunneledConnState {| tcsConn := c; tcsTag := ConnStarted; tcsErr := None |} m.

Definition forwardEnd (c : Conn) (err : option error) (m : Mem) : Mem :=
  notifyTunneledConnState
    {| tcsConn := c;
       tcsTag := match err with Some _ => ConnError | None => ConnStopped end;
       tcsErr := err |} m.

Definition tunCtxDone (m : Mem) : bool :=
  match ctx (tun m) with
  | Some c => ctxDone (store m) c
  | None => false
  end.

(** A task of the group returns [r]. *)
Definition finishTask (r : option error) (w : World) : World :=
  match group w with
  | Some g =>
      let '(s', g') := Errgroup.finish (store (mem w)) g r in
      with_group (Some g') (with_mem (with_store s' (mem w)) w)
  | None => w
  end.

(** *** The steps *)

(** The goroutine that called [Start]. *)
Definition stepMain (a : Action) (w : World) : option World :=
  let m := mem w in
  match mainPc w, a with
  | MEnter parent, MainStep =>
      match startLock parent m with
      | (m', Some e) => Some (with_main (MReturned (Some e)) (with_mem m' w))
      | (m', None) => Some (with_main MStarting (with_mem m' w))
      end
  | MStarting, MainStep =>
      Some (with_main MConfig (with_mem (notifyConnState StateStarting m) w))
  | MConfig, MainConfig auth =>
      match initSSHConfig auth (tun m) with
      | Err e => Some (with_main (MStop (Some (configError e))) w)
      | Ok cfg =>
          Some (with_main MListen
                  (with_mem (with_tun (set_sshConfig (Some cfg) (tun m)) m) w))
      end
  | MListen, MainListen r =>
      if forwardType (tun m) =? Local then
        match local (tun m) with
        | None => Some (crash w)
        | Some ep =>
            match r with
            | Err e => Some (with_main (MStop (Some (localListenError ep e))) w)
            | Ok l => Some (with_main (MSpawn (Some l)) w)
            end
        end
      else None
  | MListen, MainDial r =>
      if negb (forwardType (tun m) =? Local) && (forwardType (tun m) =? Remote)
      then
        match server (tun m) with
        | None => Some (crash w)
        | Some srv =>
            match r with
            | Err e =>
                Some (with_main (MStop (Some (dialError srv e)))
                        (with_mem (emit (EvDial r) m) w))
            | Ok c =>
                Some (with_main (MRemoteListen c)
                        (with_mem (emit (EvDial r) m) w))
            end
        end
      else None
  | MListen, MainStep =>
      if negb (forwardType (tun m) =? Local)
         && negb (forwardType (tun m) =? Remote)
      then Some (with_main (MSpawn None) w)
      else None
  | MRemoteListen _, MainRemoteListen r =>
      match remote (tun m) with
      | None => Some (crash w)
      | Some ep =>
          match r with
          | Err e => Some (with_main (MStop (Some (remoteListenError ep e))) w)
          | Ok l => Some (with_main (MSpawn (Some l)) w)
          end
      end
  | MSpawn l, MainStep => Some (with_listen (LInit l) (with_main MStarted w))
  | MStarted, MainStep =>
      Some (with_main MRecv (with_mem (notifyConnState StateStarted m) w))
  | MRecv, MainStep =>
      match listenPc w with
      | LSend err => Some (with_listen LExit (with_main (MStop err) w))
      | _ => None
      end
  | MStop err, MainStep =>
      Some (with_main (MStopped err) (with_mem (stopLock m) w))
  | MStopped err, MainStep =>
      Some (with_main (MReturned err) (with_mem (stopNotify m) w))
  | _, _ => None
  end.

(** The goroutine running [listen]. *)
Definition stepListen (w : World) : option World :=
  let m := mem w in
  match listenPc w with
  | LInit l =>
      match ctx (tun m) with
      | None => Some (crash w)
      | Some c =>
          let '(s', g) := Errgroup.WithContext (store m) c in
          Some (with_listen LWaitDone
                  (with_accept ARunning
                     (with_listener l
                        (with_group (Some (Errgroup.spawn g))
                           (with_mem (with_store s' m) w)))))
      end
  | LWaitDone =>
      match group w with
      | Some g =>
          if ctxDone (store m) (Errgroup.gCtx g)
          then Some (with_listen LClose w)
          else None
      | None => None
      end
  | LClose =>
      match listener w with
      | None => Some (crash w)
      | Some _ => Some (with_listen LWait (with_closed true w))
      end
  | LWait =>
      match group w with
      | Some g =>
          match Errgroup.Wait (store m) g with
          | Some (s', err) =>
              Some (with_listen (LSelect err) (with_mem (with_store s' m) w))
          | None => None
          end
      | None => None
      end
  | LSelect err =>
      match ctx (tun m) with
      | None => Some (crash w)
      | Some c =>
          if ctxDone (store m) c
          then Some (with_listen (LSend None) w)
          else Some (with_listen (LSend err) w)
      end
  | _ => None
  end.

(** The accept loop.  A closed listener accepts nothing any more. *)
Definition stepAccept (r : option error) (w : World) : option World :=
  match acceptPc w with
  | ARunning =>
      match listener w with
      | None => Some (crash w)
      | Some _ =>
          match r with
          | None =>
              if listenerClosed w then None
              else Some (with_handlers (handlers w ++ [HAdd])
                           (with_group (Errgroup.spawn <$> group w) w))
          | Some e =>
              match fromEndpoint (tun (mem w)) with
              | None => Some (crash w)
              | Some ep =>
                  let err := acceptError (tun (mem w)) ep e in
                  Some (finishTask (Some err) (with_accept (AReturned err) w))
              end
          end
      end
  | _ => None
  end.

(** [handle(conn)], for the connection [c]. *)
Definition stepHandler (c : Conn) (a : Action) (w : World) : option World :=
  match handlers w !! c, a with
  | Some HAdd, HandlerAdd _ dial =>
      match addConn dial (mem w) with
      | Panic => Some (crash w)
      | Done (m', Some e) =>
          Some (finishTask (Some e)
                  (with_handlers (<[c := HReturned (Some e)]> (handlers w))
                     (with_mem m' w)))
      | Done (m', None) =>
          Some (with_handlers (<[c := HForward]> (handlers w)) (with_mem m' w))
      end
  | Some HForward, HandlerStep _ =>
      Some (with_handlers (<[c := HCopy]> (handlers w))
              (with_mem (forwardBegin c (mem w)) w))
  | Some HCopy, HandlerEnd _ err =>
      Some (with_handlers (<[c := HRemove]> (handlers w))
              (with_mem (forwardEnd c err (mem w)) w))
  | Some HRemove, HandlerStep _ =>
      match removeConn (mem w) with
      | Panic => Some (crash w)
      | Done m' =>
          Some (finishTask None
                  (with_handlers (<[c := HReturned None]> (handlers w))
                     (with_mem m' w)))
      end
  | _, _ => None
  end.

Definition step (w : World) (a : Action) : option World :=
  if crashed w then None
  else
    match a with
    | MainStep | MainConfig _ | MainListen _ | MainDial _
    | MainRemoteListen _ => stepMain a w
    | ListenStep => stepListen w
    | Accept r => stepAccept r w
    | HandlerAdd c _ | HandlerStep c | HandlerEnd c _ => stepHandler c a w
    | CallStop =>
        match Stop (mem w) with
        | Done m' => Some (with_mem m' w)
        | Panic => Some (crash w)
        end
    | CancelCaller k =>
        Some (with_mem (with_store (cancelCaller (store (mem w)) k) (mem w)) w)
    end.

(** A schedule is run from left to right; it is refused as soon as one of
    its actions is not enabled. *)
Fixpoint run (w : World) (sched : list Action) : option World :=
  match sched with
  | [] => Some w
  | a :: rest =>
      match step w a with
      | Some w' => run w' rest
      | None => None
      end
  end.

(** [tun.Start(ctx)] is called on the tunnel [t] with the caller's context
    number [k]; nothing has happened yet. *)
Definition initWorld (t : SSHTun) (k : nat) : World :=
  {| mem := {| tun := t; store := emptyStore; trace := [] |};
     mainPc := MEnter (CallerCtx k);
     listenPc := LNone; group := None; listener := None;
     listenerClosed := false; acceptPc := ANone; handlers := [];
     crashed := false |}.

Definition returned (w : World) : option (option error) :=
  match mainPc w with
  | MReturned r => Some r
  | _ => None
  end.

(** The tunnel of the example program, with both callbacks set. *)
Definition exampleTun : SSHTun :=
  SetConnState (Some 1%nat)
    (SetTunneledConnState (Some 2%nat)
       (SetName "Test" (New 8080 "my.super.host.com" 80))).

Definition socketError : error := ErrorString "too many open files".
Definition refused : error := ErrorString "connection refused".
Definition closedError : error := ErrorString "use of closed network connection".

(** ** Predicates used in the statements *)

(** The other forward type. *)
Definition flip (f : ForwardType) : ForwardType :=
  if f =? Remote then Local else Remote.

(** The invariant of the session pool. *)
Definition poolInv (m : Mem) : Prop :=
  0 <= active (tun m) /\ (is_Some (sshClient (tun m)) <-> 0 < active (tun m)).

(** What one step of a history must look like: it returns, the invariant
    holds after it, it opens a session exactly when [active] goes from 0 to
    1, closes one exactly when [active] goes from 1 to 0, dials at most
    once, and does not even try to dial when [active] was not 0. *)
Definition poolStepOk (st : PoolStep) : Prop :=
  exists m',
    psAfter st = Some m' /\ poolInv m' /\
    let a := active (tun (psBefore st)) in
    let a' := active (tun m') in
    count isOpen (stepEvents st)
      = (if (a =? 0) && (a' =? 1) then 1%nat else 0%nat) /\
    count isClose (stepEvents st)
      = (if (a =? 1) && (a' =? 0) then 1%nat else 0%nat) /\
    (count isDial (stepEvents st) <= 1)%nat /\
    (a <> 0 -> count isDial (stepEvents st) = 0%nat).

(** Three connections share one session: it is dialed by the first and
    closed by the last to finish. *)
Definition threeConns : list PoolCall :=
  [Acquire (Ok 9%nat); Acquire (Ok 10%nat); Acquire (Err refused);
   Release; Release; Release].

(** *** Invariants of a run

    [t0] is the tunnel as it was when [Start] was called. *)

(** The goroutines of a run never assign these fields. *)
Definition sameConfig (t0 t : SSHTun) : Prop :=
  connState t = connState t0 /\
  tunneledConnState t = tunneledConnState t0 /\
  forwardType t = forwardType t0 /\
  server t = server t0 /\ local t = local t0 /\ remote t = remote t0.

(** The [listen] goroutine has been launched: the accept phase is reached. *)
Definition launched (w : World) : bool :=
  match listenPc w with LNone => false | _ => true end.

(** What the registered tunnel-state callback has been told; nothing is
    told when no callback is registered. *)
Definition seen (t0 : SSHTun) (l : list ConnState) : list ConnState :=
  match connState t0 with Some _ => l | None => [] end.

(** The first call of a registered tunnel-state callback is the one for
    [StateStarting], and nothing precedes it in the trace. *)
Definition startingFirst (t0 : SSHTun) (tr : list Event) : Prop :=
  match connState t0 with
  | Some f => tr !! 0%nat = Some (EvConnState f StateStarting)
  | None => True
  end.

(** The errors [Start] returns when it cannot set up the listen side. *)
Definition isSetupError (t0 : SSHTun) (e : error) : Prop :=
  (exists cause, e = configError cause) \/
  (exists ep cause,
     forwardType t0 = Local /\ local t0 = Some ep /\
     e = localListenError ep cause) \/
  (exists srv cause,
     forwardType t0 = Remote /\ server t0 = Some srv /\
     e = dialError srv cause) \/
  (exists ep cause,
     forwardType t0 = Remote /\ remote t0 = Some ep /\
     e = remoteListenError ep cause).

(** The error [Start] returns for the call of its setup that failed: the
    schedule [hist] holds the failed call with the error [cause] it
    answered; [err] wraps [cause], and its message names the call, says
    where it went and ends with the message of [cause]. *)
Definition failedPhase (t0 : SSHTun) (hist : list Action) (err : error) : Prop :=
  exists cause,
    Unwrap err = Some cause /\
    ((MainConfig (Err cause) ∈ hist /\
      Error err = "ssh config failed: " +:+ Error cause) \/
     (exists ep,
        MainListen (Err cause) ∈ hist /\
        forwardType t0 = Local /\ local t0 = Some ep /\
        Error err = ("local listen " +:+ endpointType ep +:+ " on "
                     +:+ endpointString ep +:+ " failed: ") +:+ Error cause) \/
     (exists srv,
        MainDial (Err cause) ∈ hist /\
        forwardType t0 = Remote /\ server t0 = Some srv /\
        Error err = ("ssh dial " +:+ endpointType srv +:+ " to "
                     +:+ endpointString srv +:+ " failed: ") +:+ Error cause) \/
     (exists ep,
        MainRemoteListen (Err cause) ∈ hist /\
        forwardType t0 = Remote /\ remote t0 = Some ep /\
        Error err = ("remote listen " +:+ endpointType ep +:+ " on "
                     +:+ endpointString ep +:+ " failed: ") +:+ Error cause)).

(** Where the calling goroutine stands, what the tunnel-state callback has
    been told so far, and the [started] flag. *)
Definition lifecycle (t0 : SSHTun) (w : World) : Prop :=
  let t := tun (mem w) in
  let tr := trace (mem w) in
  sameConfig t0 t /\
  (launched w = false ->
   handlers w = [] /\ acceptPc w = ANone /\ group w = None) /\
  match mainPc w with
  | MEnter _ => tr = [] /\ launched w = false /\ started t = false
  | MStarting => tr = [] /\ launched w = false /\ started t = true
  | MConfig | MListen | MSpawn _ =>
      connStates tr = seen t0 [StateStarting] /\ startingFirst t0 tr /\
      launched w = false /\ started t = true
  | MRemoteListen _ =>
      connStates tr = seen t0 [StateStarting] /\ startingFirst t0 tr /\
      launched w = false /\ started t = true /\ forwardType t0 = Remote
  | MStarted =>
      connStates tr = seen t0 [StateStarting] /\ startingFirst t0 tr /\
      launched w = true /\ started t = true
  | MRecv =>
      connStates tr = seen t0 [StateStarting; StateStarted] /\
      startingFirst t0 tr /\ launched w = true /\ started t = true
  | MStop r =>
      startingFirst t0 tr /\ started t = true /\
      if launched w
      then connStates tr = seen t0 [StateStarting; StateStarted]
      else connStates tr = seen t0 [StateStarting] /\
           exists e, r = Some e /\ isSetupError t0 e
  | MStopped r =>
      startingFirst t0 tr /\ started t = false /\
      if launched w
      then connStates tr = seen t0 [StateStarting; StateStarted]
      else connStates tr = seen t0 [StateStarting] /\
           exists e, r = Some e /\ isSetupError t0 e
  | MReturned r =>
      startingFirst t0 tr /\ started t = false /\
      if launched w
      then connStates tr
           = seen t0 [StateStarting; StateStarted; StateStopped]
      else connStates tr = seen t0 [StateStarting; StateStopped] /\
           exists e, r = Some e /\ isSetupError t0 e
  end.

(** While the accept phase is not reached, what [Start] is about to return
    is the error of the failed call of the schedule so far. *)
Definition setupInv (t0 : SSHTun) (hist : list Action) (w : World) : Prop :=
  launched w = false ->
  match mainPc w with
  | MStop r | MStopped r | MReturned r =>
      exists err, r = Some err /\ failedPhase t0 hist err
  | _ => True
  end.

(** What the pool methods and [forward] do to the memory: they append
    events that are not tunnel-state callbacks and leave the contexts, the
    flag, the context fields and the configuration alone. *)
Definition memStep (m m' : Mem) (ext : list Event) : Prop :=
  trace m' = trace m ++ ext /\ store m' = store m /\
  started (tun m') = started (tun m) /\
  ctx (tun m') = ctx (tun m) /\ cancel (tun m') = cancel (tun m) /\
  sameConfig (tun m) (tun m') /\ connStates ext = [].

(** A connection callback about the connection [c]. *)
Definition eventOf (c : Conn) (e : Event) : Prop :=
  exists f st, e = EvTunneledConnState f st /\ tcsConn st = c.

(** A step that is none of the caller's: it needs the accept phase and
    tells the tunnel-state callback nothing. *)
Definition quiet (w w' : World) : Prop :=
  mainPc w' = mainPc w /\ launched w = true /\ launched w' = true /\
  started (tun (mem w')) = started (tun (mem w)) /\
  sameConfig (tun (mem w)) (tun (mem w')) /\
  exists ext, trace (mem w') = trace (mem w) ++ ext /\ connStates ext = [].

(** The error the group has recorded. *)
Definition groupErr (w : World) : option error :=
  match group w with
  | Some g => Errgroup.gErr g
  | None => None
  end.

(** The context of the group is done. *)
Definition groupDone (w : World) : bool :=
  match group w with
  | Some g => ctxDone (store (mem w)) (Errgroup.gCtx g)
  | None => false
  end.

Definition pastWait (p : ListenPc) : bool :=
  match p with
  | LSelect _ | LSend _ | LExit => true
  | _ => false
  end.

(** The cancellation cells in use are allocated ones; the tunnel holds the
    cancel function of its own context; the context of the group hangs
    under the context of the tunnel, and its cell is set exactly when an
    error has been recorded or [Wait] has returned. *)
Definition ctxInv (w : World) : Prop :=
  let m := mem w in
  let s := store m in
  (forall n, n ∈ cancelled s -> (n < nextCell s)%nat) /\
  (match mainPc w with
   | MEnter _ => True
   | _ => exists par f,
            ctx (tun m) = Some (WithCancel par f) /\
            cancel (tun m) = Some f /\ (f < nextCell s)%nat
   end) /\
  match group w with
  | None => True
  | Some g =>
      exists c,
        ctx (tun m) = Some c /\
        Errgroup.gCtx g = WithCancel c (Errgroup.gCancel g) /\
        (Errgroup.gCancel g < nextCell s)%nat /\
        cancel (tun m) <> Some (Errgroup.gCancel g) /\
        (Errgroup.gCancel g ∈ cancelled s ->
         is_Some (Errgroup.gErr g) \/ pastWait (listenPc w) = true) /\
        (is_Some (Errgroup.gErr g) -> Errgroup.gCancel g ∈ cancelled s)
  end.

(** What [listen] may hand to [Start]: nil when the context of the tunnel
    is done, the recorded error of the group otherwise. *)
Definition resultOk (w : World) (r : option error) : Prop :=
  (r = None /\ tunCtxDone (mem w) = true) \/
  (is_Some r /\ r = groupErr w).

Definition listenInv (w : World) : Prop :=
  match mainPc w with
  | MStop _ | MStopped _ | MReturned _ =>
      listenPc w = LNone \/ listenPc w = LExit
  | _ => listenPc w <> LExit
  end /\
  match listenPc w with
  | LNone | LInit _ => group w = None
  | LWaitDone => is_Some (group w)
  | LClose | LWait =>
      is_Some (group w) /\
      (is_Some (groupErr w) \/ tunCtxDone (mem w) = true)
  | LSelect err =>
      is_Some (group w) /\ (is_Some err -> err = groupErr w) /\
      (is_Some err \/ tunCtxDone (mem w) = true)
  | LSend r => resultOk w r
  | LExit =>
      match mainPc w with
      | MStop r | MStopped r | MReturned r => resultOk w r
      | _ => False
      end
  end.

(** Where a recorded error comes from, and what the errors of the tasks
    are. *)
Definition errInv (t0 : SSHTun) (w : World) : Prop :=
  (forall e, groupErr w = Some e ->
     acceptPc w = AReturned e \/
     exists c, handlers w !! c = Some (HReturned (Some e))) /\
  (forall e, acceptPc w = AReturned e ->
     is_Some (groupErr w) /\
     exists ep cause, fromEndpoint t0 = Some ep /\ e = acceptError t0 ep cause) /\
  (forall (c : nat) e, handlers w !! c = Some (HReturned (Some e)) ->
     is_Some (groupErr w) /\ forwardType t0 = Local /\
     exists srv cause, server t0 = Some srv /\ e = dialError srv cause) /\
  (handlers w <> [] \/ acceptPc w <> ANone -> is_Some (group w)).

(** A connection callback has been made only for connections whose handler
    got past [addConn]. *)
Definition connInv (w : World) : Prop :=
  forall f st, EvTunneledConnState f st ∈ trace (mem w) ->
    handlers w !! tcsConn st = Some HCopy \/
    handlers w !! tcsConn st = Some HRemove \/
    handlers w !! tcsConn st = Some (HReturned None).

(** The context of the tunnel was done before [listen] looked at it. *)
Definition cancelledEarly (w : World) : Prop :=
  tunCtxDone (mem w) = true /\
  match mainPc w with MEnter _ => False | _ => True end /\
  match listenPc w with
  | LSend r => r = None
  | LExit =>
      match mainPc w with
      | MStop r | MStopped r | MReturned r => r = None
      | _ => True
      end
  | _ => True
  end.

(** [listen] has not yet looked at the context of the tunnel. *)
Definition beforeSelect (w : World) : bool :=
  match listenPc w with
  | LSend _ | LExit => false
  | _ => true
  end.

(** The three invariants together. *)
Definition runInv (t0 : SSHTun) (w : World) : Prop :=
  lifecycle t0 w /\ ctxInv w /\ listenInv w.

(** The handler is in or past [forward]. *)
Definition goodPc (pc : HandlerPc) : Prop :=
  pc = HCopy \/ pc = HRemove \/ pc = HReturned None.

(** All the invariants of a run. *)
Definition fullInv (t0 : SSHTun) (w : World) : Prop :=
  runInv t0 w /\ errInv t0 w /\ connInv w.

(** [Start] has got past its locked section. *)
Definition entered (w : World) : bool :=
  match mainPc w with MEnter _ => false | _ => true end.

(** *** The tasks of the group *)

(** A handler has returned. *)
Definition isReturned (pc : HandlerPc) : bool :=
  match pc with HReturned _ => true | _ => false end.

(** A handler stands between its [addConn] and its [removeConn]. *)
Definition holdsConn (pc : HandlerPc) : bool :=
  match pc with HForward | HCopy | HRemove => true | _ => false end.

(** How many handlers satisfy [p]. *)
Definition howMany (p : HandlerPc -> bool) (hs : list HandlerPc) : nat :=
  length (filter (fun pc => p pc = true) hs).

(** The handlers that have not returned yet. *)
Definition pending (hs : list HandlerPc) : nat :=
  howMany (fun pc => negb (isReturned pc)) hs.

(** The handlers that hold the session: they have called [addConn] and
    not yet [removeConn]. *)
Definition inFlight (hs : list HandlerPc) : nat := howMany holdsConn hs.

(** The number of tasks the group counts. *)
Definition running (w : World) : option nat := Errgroup.gRunning <$> group w.

(** The tasks the group counts are the accept loop, while it runs, and the
    handlers that have not returned; once [Wait] has returned there is
    none. *)
Definition joinInv (w : World) : Prop :=
  match running w with
  | None => True
  | Some n =>
      n = ((match acceptPc w with ARunning => 1 | _ => 0 end)
           + pending (handlers w))%nat /\
      acceptPc w <> ANone
  end /\
  (pastWait (listenPc w) = true -> running w = Some 0%nat).

(** [listen] has called [listener.Close()]. *)
Definition closedAt (p : ListenPc) : bool :=
  match p with
  | LWait | LSelect _ | LSend _ | LExit => true
  | _ => false
  end.

(** The listener is closed exactly from [listener.Close()] on. *)
Definition closeInv (w : World) : Prop :=
  listenerClosed w = closedAt (listenPc w).

(** Nothing is left to run: [Start] has returned, the [listen] goroutine
    has ended or was never launched, and so has every task of the group. *)
Definition settled (r : option error) (w : World) : Prop :=
  mainPc w = MReturned r /\ started (tun (mem w)) = false /\
  (listenPc w = LNone \/ listenPc w = LExit) /\
  acceptPc w <> ARunning /\ pending (handlers w) = 0%nat.

(** The two worlds differ in the caller's cancellation cells at most. *)
Definition sameButCaller (w w' : World) : Prop :=
  tun (mem w') = tun (mem w) /\ trace (mem w') = trace (mem w) /\
  cancelled (store (mem w')) = cancelled (store (mem w)) /\
  nextCell (store (mem w')) = nextCell (store (mem w)) /\
  mainPc w' = mainPc w /\ listenPc w' = listenPc w /\ group w' = group w /\
  listener w' = listener w /\ listenerClosed w' = listenerClosed w /\
  acceptPc w' = acceptPc w /\ handlers w' = handlers w /\
  crashed w' = crashed w.

(** *** The session pool in a run *)

(** The pool when [h] connections hold the session. *)
Definition poolAt (t0 : SSHTun) (h : nat) (m : Mem) : Prop :=
  active (tun m) = Z.of_nat h /\
  if forwardType t0 =? Local then
    (is_Some (sshClient (tun m)) <-> (0 < h)%nat) /\
    count isOpen (trace m)
    = (count isClose (trace m) + match h with O => 0 | S _ => 1 end)%nat
  else
    sshClient (tun m) = sshClient t0 /\ count isClose (trace m) = 0%nat.

(** The pool in a run: [active] counts the handlers that hold the session.
    [n] is the number of steps the run may still take before the count of
    connections could leave the range of [int]. *)
Definition poolRun (t0 : SSHTun) (n : nat) (w : World) : Prop :=
  Z.of_nat (length (handlers w)) + Z.of_nat n <= intMax /\
  poolAt t0 (inFlight (handlers w)) (mem w).

(** Events that open or close no session in Local mode, and close none in
    any mode. *)
Definition noSession (t0 : SSHTun) (e : Event) : Prop :=
  isClose e = false /\ (forwardType t0 = Local -> isOpen e = false).

(** A tunnel on which [Start] can be called: idle, with its three
    endpoints set and one of the two named forward types. *)
Definition ready (t0 : SSHTun) : Prop :=
  started t0 = false /\ active t0 = 0 /\
  is_Some (server t0) /\ is_Some (local t0) /\ is_Some (remote t0) /\
  ((forwardType t0 = Local /\ sshClient t0 = None) \/ forwardType t0 = Remote).

(** The listener handed to [listen] is not nil. *)
Definition hasListener (w : World) : Prop :=
  match mainPc w with MSpawn l => is_Some l | _ => True end /\
  match listenPc w with
  | LNone => True
  | LInit l => is_Some l
  | _ => is_Some (listener w)
  end.

(** No goroutine has panicked, and none is about to on a nil listener. *)
Definition safe (w : World) : Prop := crashed w = false /\ hasListener w.

(** The invariants of a run on a ready tunnel, with room for [n] more
    steps. *)
Definition allInv (t0 : SSHTun) (n : nat) (w : World) : Prop :=
  fullInv t0 w /\ joinInv w /\ poolRun t0 n w /\ safe w.

(** *** Remote mode *)

(** An event that says nothing about SSH sessions. *)
Definition noDial (e : Event) : Prop := isDial e = false /\ isClose e = false.

(** The sessions of a run in Remote mode: [Start] dials once, between
    [MListen] and [MRemoteListen]; nothing else dials and nothing closes. *)
Definition remoteInv (t0 : SSHTun) (w : World) : Prop :=
  let tr := trace (mem w) in
  sshClient (tun (mem w)) = sshClient t0 /\
  count isClose tr = 0%nat /\
  match mainPc w with
  | MEnter _ | MStarting | MConfig | MListen =>
      count isDial tr = 0%nat /\ count isOpen tr = 0%nat
  | MRemoteListen _ | MSpawn _ | MStarted | MRecv =>
      count isDial tr = 1%nat /\ count isOpen tr = 1%nat
  | MStop _ | MStopped _ | MReturned _ =>
      (count isDial tr <= 1)%nat /\
      (launched w = true -> count isDial tr = 1%nat /\ count isOpen tr = 1%nat)
  end.

(** *** The context of the tunnel *)

(** Once [Start] is past its locked section the context of the tunnel is
    not assigned any more, and a context that is done stays done. *)
Definition ctxKept (w w' : World) : Prop :=
  entered w' = true /\
  ctx (tun (mem w')) = ctx (tun (mem w)) /\
  (tunCtxDone (mem w) = true -> tunCtxDone (mem w') = true).

(** The context of the tunnel hangs under the context handed to [Start]. *)
Definition callerInv (k : nat) (w : World) : Prop :=
  match mainPc w with
  | MEnter p => p = CallerCtx k
  | _ => exists f, ctx (tun (mem w)) = Some (WithCancel (CallerCtx k) f)
  end.

(** *** Runs that cannot listen *)

(** A run with a forward type that is neither [Local] nor [Remote]: no
    listener is ever made, [listen] is handed a nil one and cannot get past
    its [Close]. *)
Definition nilListener (w : World) : Prop :=
  handlers w = [] /\ listener w = None /\
  match mainPc w with
  | MSpawn l => l = None
  | MRemoteListen _ => False
  | _ => True
  end /\
  match listenPc w with
  | LNone | LWaitDone | LClose => True
  | LInit l => l = None
  | _ => False
  end.

(** A run that cannot get a listener: the accept phase is never reached. *)
Definition notListening (w : World) : Prop :=
  listenPc w = LNone /\
  match mainPc w with
  | MSpawn _ | MStarted | MRecv => False
  | _ => True
  end.

(** *** The settings *)

(** The settings of a tunnel: what the setters other than those of the
    endpoints, the forward type and the callbacks assign. *)
Definition settings (t : SSHTun) :=
  (user t, authType t, authKeyFile t, authKeyReader t, authPassword t,
   timeout t, sshConfigKeyExchanges t, sshConfigCiphers t, sshConfigMACs t,
   name t).

(** The client configuration [initSSHConfig] builds from the settings. *)
Definition configOf (t : SSHTun) (a : AuthMethod) : ClientConfig :=
  {| KeyExchanges := sshConfigKeyExchanges t; Ciphers := sshConfigCiphers t;
     MACs := sshConfigMACs t; User := user t; Timeout := timeout t;
     Auth := [a] |}.

(** A run leaves the settings alone; the client configuration is the one
    the tunnel had until [initSSHConfig] has succeeded, and the one built
    from the settings from then on. *)
Definition settingsInv (t0 : SSHTun) (w : World) : Prop :=
  let t := tun (mem w) in
  settings t = settings t0 /\
  match mainPc w with
  | MEnter _ | MStarting | MConfig => sshConfig t = sshConfig t0
  | MListen | MRemoteListen _ | MSpawn _ | MStarted | MRecv =>
      exists a, sshConfig t = Some (configOf t0 a)
  | MStop _ | MStopped _ | MReturned _ =>
      if launched w then exists a, sshConfig t = Some (configOf t0 a)
      else sshConfig t = sshConfig t0 \/
           exists a, sshConfig t = Some (configOf t0 a)
  end.

(** *** Winding down *)

(** How far the goroutines of a run are from their ends. *)
Definition mainRank (p : MainPc) : nat :=
  match p with
  | MEnter _ => 200 | MStarting => 180 | MConfig => 160 | MListen => 140
  | MRemoteListen _ => 120 | MSpawn _ => 100 | MStarted => 80 | MRecv => 60
  | MStop _ => 40 | MStopped _ => 20 | MReturned _ => 0
  end.

Definition listenRank (p : ListenPc) : nat :=
  match p with
  | LNone => 14 | LInit _ => 12 | LWaitDone => 10 | LClose => 8 | LWait => 6
  | LSelect _ => 4 | LSend _ => 2 | LExit => 0
  end.

Definition acceptRank (p : AcceptPc) : nat :=
  match p with ARunning => 1 | _ => 0 end.

Definition handlerRank (pc : HandlerPc) : nat :=
  match pc with
  | HAdd => 4 | HForward => 3 | HCopy => 2 | HRemove => 1 | HReturned _ => 0
  end.

Definition measure (w : World) : nat :=
  (mainRank (mainPc w) + listenRank (listenPc w) + acceptRank (acceptPc w)
   + sum_list (handlerRank <$> handlers w))%nat.

(** The actions that move a goroutine towards its end: every action but
    the arrival of a new connection, [Stop] and the cancellation of the
    caller's context. *)
Definition winding (a : Action) : bool :=
  match a with
  | Accept None | CallStop | CancelCaller _ => false
  | _ => true
  end.

(** The run is coming to its end: the context of the tunnel is done, or the
    group has recorded an error. *)
Definition closing (w : World) : Prop :=
  tunCtxDone (mem w) = true \/ is_Some (groupErr w).

(** *** Runs of the example tunnel *)

Definition addrInUse : error := ErrorString "address already in use".

(** Where a schedule leaves the example tunnel. *)
Definition exampleRun (sched : list Action) : World :=
  default (initWorld exampleTun 0) (run (initWorld exampleTun 0) sched).

(** The local port is taken. *)
Definition bindFails : list Action :=
  [MainStep; MainStep; MainConfig (Ok 7%nat); MainListen (Err addrInUse);
   MainStep; MainStep].

(** No authentication method can be made. *)
Definition noKey : error := ErrorString "no such key file".

Definition configFails : list Action :=
  [MainStep; MainStep; MainConfig (Err noKey); MainStep; MainStep].

(** A connection is accepted and forwarded before the caller of [Start]
    gets to its [StateStarted] callback. *)
Definition earlyConn : list Action :=
  [MainStep; MainStep; MainConfig (Ok 7%nat); MainListen (Ok 3%nat); MainStep;
   ListenStep; Accept None; HandlerAdd 0%nat (Ok 9%nat); HandlerStep 0%nat;
   MainStep].

(** The tunnel is up, a connection is accepted, and the dial of the
    shared session fails; nobody calls [Stop], no context is cancelled. *)
Definition startUp : list Action :=
  [MainStep; MainStep; MainConfig (Ok 7%nat); MainListen (Ok 3%nat); MainStep;
   MainStep; ListenStep].



(** The tunnel is up and [Accept] fails on the open listener. *)
Definition acceptFails : list Action := startUp ++ [Accept (Some socketError)].

(** [listen] closes the listener and waits for the tasks. *)
Definition unwind : list Action := [ListenStep; ListenStep; ListenStep].

(** [listen] looks at the context and [Start] returns. *)
Definition wrapUp : list Action := [ListenStep; MainStep; MainStep; MainStep].

(** A connection is accepted, forwarded to its end and released. *)
Definition oneConn : list Action :=
  [Accept None; HandlerAdd 0%nat (Ok 9%nat); HandlerStep 0%nat;
   HandlerEnd 0%nat None; HandlerStep 0%nat].

(** [Stop] is called; [listen] closes the listener, which ends the accept
    loop, waits for the tasks and hands nil to [Start]. *)
Definition stopIt : list Action :=
  [CallStop; ListenStep; ListenStep; Accept (Some closedError);
   ListenStep; ListenStep; MainStep; MainStep; MainStep].

(** A whole run: the tunnel comes up, forwards one connection and is
    stopped. *)
Definition cleanRun : list Action := startUp ++ oneConn ++ stopIt.

(** Two connections are accepted, and both have got past [addConn]. *)
Definition twoConns : list Action :=
  startUp ++
  [Accept None; Accept None; HandlerAdd 0%nat (Ok 9%nat);
   HandlerAdd 1%nat (Ok 10%nat)].

(** Where a schedule leaves the tunnel [t]. *)
Definition runOf (t : SSHTun) (sched : list Action) : World :=
  default (initWorld t 0) (run (initWorld t 0) sched).

(** The example tunnel as a reverse forward, its start, and a run of it
    with one connection, ended by [Stop]. *)
Definition remoteTun : SSHTun := SetForwardType Remote exampleTun.

Definition remoteUp : list Action :=
  [MainStep; MainStep; MainConfig (Ok 7%nat); MainDial (Ok 5%nat);
   MainRemoteListen (Ok 3%nat); MainStep; MainStep; ListenStep].

Definition remoteRun : list Action := remoteUp ++ oneConn ++ stopIt.

(** The reverse forward cannot reach the server, or the server refuses the
    remote listen. *)
Definition remoteDialFails : list Action :=
  [MainStep; MainStep; MainConfig (Ok 7%nat); MainDial (Err refused);
   MainStep; MainStep].

Definition remoteListenFails : list Action :=
  [MainStep; MainStep; MainConfig (Ok 7%nat); MainDial (Ok 5%nat);
   MainRemoteListen (Err addrInUse); MainStep; MainStep].

(** The example tunnel with a forward type that has no name, and its
    start. *)
Definition oddTun : SSHTun := SetForwardType 2 exampleTun.

Definition oddUp : list Action :=
  [MainStep; MainStep; MainConfig (Ok 7%nat); MainStep; MainStep; MainStep;
   ListenStep].

(** The example tunnel after [SetLocalEndpoint(nil)]. *)
Definition nilTun : SSHTun := SetLocalEndpoint None exampleTun.

(** [Start] up to the moment it has its client configuration. *)
Definition configured : list Action :=
  [MainStep; MainStep; MainConfig (Ok 7%nat)].

(** The example tunnel with settings of its own. *)
Definition customTun : SSHTun :=
  SetTimeout (5 * 1000000000)
    (SetCiphers ["aes128-ctr"]
       (SetUser "alice" (SetPassword "secret" exampleTun))).

(** ** Facts about the runtime model *)

Lemma wrap_small (z : Z) : intMin <= z <= intMax -> wrap z = z.
Proof.
  unfold wrap, intMin, intMax. intros H.
  rewrite Z.mod_small; lia.
Qed.

Lemma add_one (a : Z) : intMin <= a < intMax -> add a 1 = a + 1.
Proof.
  unfold add. intros H. apply wrap_small. unfold intMin, intMax in *. lia.
Qed.

Lemma sub_one (a : Z) : intMin < a <= intMax -> sub a 1 = a - 1.
Proof.
  unfold sub. intros H. apply wrap_small. unfold intMin, intMax in *. lia.
Qed.

Lemma Unwrap_Errorf_w (p : string) (e : error) : Unwrap (Errorf_w p e) = Some e.
Proof. reflexivity. Qed.

Lemma callCancel_idem (s : CtxStore) (f : CancelFunc) :
  callCancel (callCancel s f) f = callCancel s f.
Proof.
  unfold callCancel. simpl. f_equal.
  by rewrite (assoc_L (∪)), (idemp_L (∪)).
Qed.

Lemma ctxDone_callCancel (s : CtxStore) (f : CancelFunc) (c : Context) :
  ctxDone s c = true -> ctxDone (callCancel s f) c = true.
Proof.
  induction c as [k | p IH n]; simpl; [done |].
  rewrite !orb_true_iff, !bool_decide_eq_true.
  intros [H | H]; [left; apply elem_of_union_r, H | right; auto].
Qed.

Lemma ctxDone_cancelCaller (s : CtxStore) (k : nat) (c : Context) :
  ctxDone s c = true -> ctxDone (cancelCaller s k) c = true.
Proof.
  induction c as [j | p IH n]; simpl.
  - rewrite !bool_decide_eq_true. apply elem_of_union_r.
  - rewrite !orb_true_iff, !bool_decide_eq_true.
    intros [H | H]; [left; done | right; auto].
Qed.

Lemma ctxDone_withCancel (s : CtxStore) (p c : Context) :
  ctxDone (withCancel s p).1.1 c = ctxDone s c.
Proof.
  unfold withCancel. simpl.
  induction c as [j | q IH n]; simpl; [done | by rewrite IH].
Qed.

Lemma drop_own_length (A : Type) (l k : list A) : drop (length l) (l ++ k) = k.
Proof. by rewrite drop_app_length. Qed.

(** ** Endpoint selection and names *)

(** C10.  [fromEndpoint] is the local endpoint and [toEndpoint] the remote
    one when the forward type is [Local], and the other way round when it is
    [Remote]; [toEndpoint] of a tunnel is [fromEndpoint] of the same tunnel
    with the forward type flipped (and conversely); the two names are
    "local" and "remote" in the same arrangement. *)
Theorem endpoints_follow_forward_type (t : SSHTun) :
  (forwardType t = Local ->
     fromEndpoint t = local t /\ toEndpoint t = remote t /\
     forwardFromName t = "local" /\ forwardToName t = "remote") /\
  (forwardType t = Remote ->
     fromEndpoint t = remote t /\ toEndpoint t = local t /\
     forwardFromName t = "remote" /\ forwardToName t = "local") /\
  toEndpoint t = fromEndpoint (SetForwardType (flip (forwardType t)) t) /\
  fromEndpoint t = toEndpoint (SetForwardType (flip (forwardType t)) t) /\
  forwardToName t = forwardFromName (SetForwardType (flip (forwardType t)) t) /\
  forwardFromName t = forwardToName (SetForwardType (flip (forwardType t)) t).
Proof.
  unfold fromEndpoint, toEndpoint, forwardFromName, forwardToName,
    SetForwardType, flip.
  split; [| split].
  - intros ->. simpl. done.
  - intros ->. simpl. done.
  - simpl. destruct (Z.eqb_spec (forwardType t) Remote); simpl; done.
Qed.

(** ** The session pool *)

(** C7.  [addConn] in Local mode: with [active] at 0 it dials; when the
    dial fails it returns the error wrapping the dial error and changes
    neither [active] nor the session handle; when the dial succeeds it
    stores the session and sets [active] to 1; with [active] not 0 it does
    not dial and adds one to [active]; in both successful cases it returns
    no error. *)
Theorem addConn_local (m : Mem) (dial : result Client) (srv : Endpoint) :
  forwardType (tun m) = Local ->
  server (tun m) = Some srv ->
  (active (tun m) = 0 ->
     forall e, dial = Err e ->
       addConn dial m = Done (emit (EvDial dial) m, Some (dialError srv e)) /\
       Unwrap (dialError srv e) = Some e) /\
  (active (tun m) = 0 ->
     forall c, dial = Ok c ->
       addConn dial m
       = Done ({| tun := set_active 1 (set_sshClient (Some c) (tun m));
                  store := store m;
                  trace := trace m ++ [EvDial dial] |}, None)) /\
  (active (tun m) <> 0 ->
     addConn dial m
     = Done (with_tun (set_active (add (active (tun m)) 1) (tun m)) m, None) /\
     (0 < active (tun m) < intMax -> add (active (tun m)) 1 = active (tun m) + 1)).
Proof.
  intros Hf Hs. unfold addConn. rewrite Hf, Hs. simpl.
  split; [| split].
  - intros Ha e ->. rewrite Ha. simpl. done.
  - intros Ha c ->. rewrite Ha. simpl. done.
  - intros Ha. split.
    + destruct (Z.eqb_spec (active (tun m)) 0); [done |]. done.
    + intros Hr. apply add_one. unfold intMin. lia.
Qed.

Lemma addConn_local_witness :
  addConn (Err refused) {| tun := exampleTun; store := emptyStore; trace := [] |}
  = Done ({| tun := exampleTun; store := emptyStore;
             trace := [EvDial (Err refused)] |},
          Some (WrapError
                  "ssh dial tcp to my.super.host.com:22 failed: connection refused"
                  refused)).
Proof.
  pose proof (addConn_local
                {| tun := exampleTun; store := emptyStore; trace := [] |}
                (Err refused) (NewTCPEndpoint "my.super.host.com" 22)
                eq_refl eq_refl) as [H _].
  destruct (H eq_refl refused eq_refl) as [H1 _].
  exact H1.
Defined.

(** C9.  In Remote mode [addConn] returns no error whatever the dial would
    answer, [addConn] and [removeConn] only add one to and take one from
    [active], neither opens or closes a session, the handle keeps its
    value, and [removeConn] does not panic even when the handle is nil. *)
Theorem pool_remote (m : Mem) (dial : result Client) :
  forwardType (tun m) = Remote ->
  addConn dial m
  = Done (with_tun (set_active (add (active (tun m)) 1) (tun m)) m, None) /\
  removeConn m
  = Done (with_tun (set_active (sub (active (tun m)) 1) (tun m)) m) /\
  (forall c : option Client,
     removeConn (with_tun (set_sshClient c (tun m)) m)
     = Done (with_tun (set_sshClient c (set_active (sub (active (tun m)) 1) (tun m))) m) /\
     addConn dial (with_tun (set_sshClient c (tun m)) m)
     = Done (with_tun (set_sshClient c (set_active (add (active (tun m)) 1) (tun m))) m,
             None)).
Proof.
  intros Hf. unfold addConn, removeConn. simpl. rewrite Hf. simpl.
  repeat split.
Qed.

Lemma pool_remote_witness :
  removeConn {| tun := NewRemote 8080 "my.super.host.com" 80;
                store := emptyStore; trace := [] |}
  = Done {| tun := set_active (-1) (NewRemote 8080 "my.super.host.com" 80);
            store := emptyStore; trace := [] |}.
Proof.
  pose proof (pool_remote
                {| tun := NewRemote 8080 "my.super.host.com" 80;
                   store := emptyStore; trace := [] |}
                (Err refused) eq_refl) as (_ & H & _).
  exact H.
Defined.

Lemma count_nil (p : Event -> bool) : count p [] = 0%nat.
Proof. reflexivity. Qed.

Lemma count_one (p : Event -> bool) (e : Event) :
  count p [e] = if p e then 1%nat else 0%nat.
Proof.
  unfold count. rewrite filter_cons, filter_nil.
  destruct (p e); done.
Qed.

(** One call on a pool that satisfies the invariant, in Local mode. *)
Lemma eqb_of_nat_S (h : nat) : (Z.of_nat (S h) =? 0) = false.
Proof. apply Z.eqb_neq. lia. Qed.

Lemma eqb_of_nat_SS (h : nat) : (Z.of_nat (S (S h)) =? 1) = false.
Proof. apply Z.eqb_neq. lia. Qed.

Ltac pool_side Hc :=
  simpl; try done; try lia; try (by eexists);
  try (split; [intros [? ?]; done | lia]);
  try (split; [intros Hx; apply Hc in Hx; lia | lia]);
  try (split; [intros _; lia | intros _; by eexists]);
  try (split; [intros _; lia | intros _; apply Hc; lia]);
  try (intros Hx; apply Hc in Hx; lia);
  try (intros Hx; apply Hc; lia);
  try tauto.

Lemma poolStep_ok (c : PoolCall) (m : Mem) (held : nat) :
  forwardType (tun m) = Local ->
  is_Some (server (tun m)) ->
  active (tun m) = Z.of_nat held ->
  (is_Some (sshClient (tun m)) <-> 0 < active (tun m)) ->
  Z.of_nat held < intMax ->
  (c = Release -> (0 < held)%nat) ->
  exists m' held',
    psAfter (poolStep c m) = Some m' /\
    psBefore (poolStep c m) = m /\
    forwardType (tun m') = Local /\
    server (tun m') = server (tun m) /\
    active (tun m') = Z.of_nat held' /\
    (is_Some (sshClient (tun m')) <-> 0 < active (tun m')) /\
    held' = match c, psRet (poolStep c m) with
            | Acquire _, None => S held
            | Acquire _, Some _ => held
            | Release, _ => pred held
            end /\
    psCall (poolStep c m) = c /\
    poolStepOk (poolStep c m).
Proof.
  intros Hf [srv Hs] Ha Hc Hmax Hrel.
  assert (Hmin : intMin <= Z.of_nat held) by (unfold intMin; lia).
  destruct c as [d |].
  - (* Acquire *)
    unfold poolStep, addConn. rewrite Hf, Hs, Ha. simpl.
    destruct held as [| h].
    + simpl. destruct d as [cl | e]; simpl.
      * eexists _, 1%nat. split; [reflexivity |]. simpl. rewrite Ha.
        change (add (Z.of_nat 0) 1) with 1.
        split_and!; pool_side Hc.
        eexists. split; [reflexivity |]. unfold poolInv, stepEvents. simpl.
        rewrite Ha, drop_own_length, !count_one. simpl.
        split_and!; pool_side Hc.
      * eexists _, 0%nat. split; [reflexivity |]. simpl.
        split_and!; pool_side Hc.
        eexists. split; [reflexivity |]. unfold poolInv, stepEvents. simpl.
        rewrite Ha, drop_own_length, !count_one. simpl.
        split_and!; pool_side Hc.
    + rewrite eqb_of_nat_S. simpl.
      assert (Hadd : add (Z.of_nat (S h)) 1 = Z.of_nat (S (S h)))
        by (rewrite add_one; lia).
      eexists _, (S (S h)). split; [reflexivity |]. simpl. rewrite ?Ha, ?Hadd.
      split_and!; pool_side Hc.
      eexists. split; [reflexivity |]. unfold poolInv, stepEvents. simpl.
      rewrite ?Ha, ?Hadd, ?drop_all, ?count_nil, ?eqb_of_nat_S, ?eqb_of_nat_SS.
      simpl. rewrite ?andb_false_r.
      split_and!; pool_side Hc.
  - (* Release *)
    specialize (Hrel eq_refl). destruct held as [| h]; [lia |].
    assert (Hsub : sub (Z.of_nat (S h)) 1 = Z.of_nat h)
      by (rewrite sub_one; unfold intMin, intMax in *; lia).
    unfold poolStep, removeConn. simpl. rewrite Hf, Ha, Hsub. simpl.
    destruct h as [| h'].
    + simpl. destruct (proj2 Hc) as [cl Hcl]; [lia |]. rewrite Hcl.
      eexists _, 0%nat. split; [reflexivity |]. simpl.
      split_and!; pool_side Hc.
      eexists. split; [reflexivity |]. unfold poolInv, stepEvents. simpl.
      rewrite ?Ha, ?drop_own_length, ?count_one. simpl.
      split_and!; pool_side Hc.
    + rewrite eqb_of_nat_S.
      eexists _, (S h'). split; [reflexivity |]. simpl.
      split_and!; pool_side Hc.
      eexists. split; [reflexivity |]. unfold poolInv, stepEvents. simpl.
      rewrite ?Ha, ?drop_all, ?count_nil, ?eqb_of_nat_S, ?andb_false_r.
      split_and!; pool_side Hc.
Qed.

Lemma poolStep_call (c : PoolCall) (m : Mem) : psCall (poolStep c m) = c.
Proof.
  destruct c as [d |]; unfold poolStep.
  - destruct (addConn d m) as [[m' r] |]; reflexivity.
  - destruct (removeConn m) as [m' |]; reflexivity.
Qed.

Lemma runPool_ok (cs : list PoolCall) :
  forall (m : Mem) (held : nat),
    forwardType (tun m) = Local ->
    is_Some (server (tun m)) ->
    active (tun m) = Z.of_nat held ->
    (is_Some (sshClient (tun m)) <-> 0 < active (tun m)) ->
    Z.of_nat held + Z.of_nat (length cs) <= intMax ->
    matched held (runPool m cs) ->
    length (runPool m cs) = length cs /\ Forall poolStepOk (runPool m cs).
Proof.
  induction cs as [| c cs IH]; intros m held Hf Hs Ha Hc Hmax Hm.
  - split; [reflexivity | constructor].
  - cbn [runPool matched] in Hm |- *.
    rewrite poolStep_call in Hm.
    assert (Hrel : c = Release -> (0 < held)%nat).
    { intros ->. destruct held; [done | lia]. }
    assert (Hlt : Z.of_nat held < intMax).
    { rewrite length_cons in Hmax. lia. }
    destruct (poolStep_ok c m held Hf Hs Ha Hc Hlt Hrel)
      as (m' & held' & Hafter & _ & Hf' & Hs' & Ha' & Hc' & Hheld & _ & Hok).
    rewrite Hafter in Hm |- *.
    rewrite <- Hs' in Hs.
    assert (Hm' : matched held' (runPool m' cs)).
    { subst held'. destruct c as [d |].
      - destruct (psRet (poolStep (Acquire d) m)); exact Hm.
      - destruct held; [done | exact Hm]. }
    assert (Hmax' : Z.of_nat held' + Z.of_nat (length cs) <= intMax).
    { rewrite length_cons in Hmax. subst held'.
      destruct c as [d |]; [destruct (psRet (poolStep (Acquire d) m)) |]; lia. }
    destruct (IH m' held' Hf' Hs Ha' Hc' Hmax' Hm') as [Hlen Hall].
    split; [simpl; by rewrite Hlen | by constructor].
Qed.

Lemma runPool_tracked (cs : list PoolCall) :
  forall (m : Mem) (held : nat),
    forwardType (tun m) = Local ->
    is_Some (server (tun m)) ->
    active (tun m) = Z.of_nat held ->
    (is_Some (sshClient (tun m)) <-> 0 < active (tun m)) ->
    Z.of_nat held + Z.of_nat (length cs) <= intMax ->
    matched held (runPool m cs) ->
    tracked held (runPool m cs).
Proof.
  induction cs as [| c cs IH]; intros m held Hf Hs Ha Hc Hmax Hm.
  - exact I.
  - cbn [runPool matched tracked] in Hm |- *.
    rewrite poolStep_call in Hm.
    assert (Hrel : c = Release -> (0 < held)%nat).
    { intros ->. destruct held; [done | lia]. }
    assert (Hlt : Z.of_nat held < intMax).
    { rewrite length_cons in Hmax. lia. }
    destruct (poolStep_ok c m held Hf Hs Ha Hc Hlt Hrel)
      as (m' & held' & Hafter & Hbef & Hf' & Hs' & Ha' & Hc' & Hheld & Hcall & Hok).
    assert (Hh : heldAfter held (poolStep c m) = held').
    { unfold heldAfter. rewrite Hcall. subst held'. by destruct c. }
    rewrite Hafter in Hm |- *. rewrite Hbef, Hh.
    rewrite <- Hs' in Hs.
    split_and!; [done | by exists m' |].
    apply IH; try done.
    + rewrite length_cons in Hmax. subst held'.
      destruct c as [d |]; [destruct (psRet (poolStep (Acquire d) m)) |]; lia.
    + subst held'. destruct c as [d |].
      * destruct (psRet (poolStep (Acquire d) m)); exact Hm.
      * destruct held; [done | exact Hm].
Qed.

(** C3.  A serialized history of [addConn] and [removeConn] calls in Local
    mode, started on an idle pool, in which every release has its own
    successful acquire before it (and which is shorter than the range of
    [int]): no call panics; before and after every call [active] is the
    number of successful acquires not yet released, so that it is never
    negative; the session handle is set exactly when [active] is positive;
    a session is opened exactly when [active] goes from 0 to 1, that is by
    the acquire that finds no connection, and closed exactly when it goes
    from 1 to 0, that is by the release of the last connection, whichever
    it is; a call dials at most once, and no dial is attempted while
    [active] is not 0. *)
Theorem pool_reference_counting (m : Mem) (cs : list PoolCall) :
  forwardType (tun m) = Local ->
  is_Some (server (tun m)) ->
  active (tun m) = 0 ->
  sshClient (tun m) = None ->
  Z.of_nat (length cs) <= intMax ->
  matched 0 (runPool m cs) ->
  length (runPool m cs) = length cs /\ Forall poolStepOk (runPool m cs) /\
  tracked 0 (runPool m cs).
Proof.
  intros Hf Hs Ha Hc Hmax Hm.
  assert (Hh : is_Some (sshClient (tun m)) <-> 0 < active (tun m)).
  { rewrite Hc, Ha. split; [intros [? ?]; done | lia]. }
  destruct (runPool_ok cs m 0%nat) as [H1 H2]; try done.
  split_and!; [done | done |].
  by apply (runPool_tracked cs m 0%nat).
Qed.

Lemma pool_reference_counting_witness :
  length (runPool {| tun := exampleTun; store := emptyStore; trace := [] |}
            threeConns) = length threeConns /\
  Forall poolStepOk
    (runPool {| tun := exampleTun; store := emptyStore; trace := [] |}
       threeConns) /\
  tracked 0
    (runPool {| tun := exampleTun; store := emptyStore; trace := [] |}
       threeConns).
Proof.
  apply pool_reference_counting.
  - reflexivity.
  - by eexists.
  - reflexivity.
  - reflexivity.
  - unfold intMax. simpl. lia.
  - simpl. exact I.
Defined.

Example threeConns_trace :
  (fun st => stepEvents st)
    <$> runPool {| tun := exampleTun; store := emptyStore; trace := [] |}
          threeConns
  = [[EvDial (Ok 9%nat)]; []; []; []; []; [EvClose 9%nat]].
Proof. reflexivity. Qed.

(** ** Start and Stop on a tunnel that is already, or not yet, started *)

(** C5.  On a tunnel whose [started] flag is set, [Start] finds the flag
    under the mutex and returns "already started" at once: the memory (every
    field of the tunnel, [ctx] and [cancel] among them, the contexts, the
    trace of notifications) is what it was, and so is every goroutine of
    the run in progress. *)
Theorem Start_already_started (parent : Context) (w : World) :
  started (tun (mem w)) = true ->
  startLock parent (mem w) = (mem w, Some alreadyStarted) /\
  (mainPc w = MEnter parent -> crashed w = false ->
   step w MainStep = Some (with_main (MReturned (Some alreadyStarted)) w)).
Proof.
  intros Hs. unfold startLock. rewrite Hs. split; [reflexivity |].
  intros Hpc Hc. unfold step, stepMain, startLock. rewrite Hc, Hpc, Hs.
  destruct w; reflexivity.
Qed.

Lemma Start_already_started_witness :
  step (initWorld (set_started true exampleTun) 0) MainStep
  = Some (with_main (MReturned (Some alreadyStarted))
            (initWorld (set_started true exampleTun) 0)).
Proof.
  apply (Start_already_started (CallerCtx 0)
           (initWorld (set_started true exampleTun) 0)); reflexivity.
Defined.

(** C8.  On a tunnel whose [started] flag is clear, [Stop] returns leaving
    the memory as it was: no cancellation, no notification, no field
    written.  On any tunnel, [Stop] writes nothing but the cancellation
    cell, and calling it any number of times in a row does what calling it
    once does; it returns whenever the tunnel holds a cancel function, which
    a started tunnel does. *)
Theorem Stop_idle_and_repeated (m : Mem) :
  (started (tun m) = false -> Stop m = Done m) /\
  (forall m', Stop m = Done m' ->
     tun m' = tun m /\ trace m' = trace m /\
     forall c, ctxDone (store m) c = true -> ctxDone (store m') c = true) /\
  (forall n, StopTimes (S n) m = Stop m) /\
  (is_Some (cancel (tun m)) -> exists m', Stop m = Done m').
Proof.
  split; [| split; [| split]]; cycle 3.
  { intros [f Hf]. unfold Stop. rewrite Hf. destruct (started (tun m)); by eexists. }
  - intros Hs. unfold Stop. by rewrite Hs.
  - intros m'. unfold Stop.
    destruct (started (tun m)); [| intros [= <-]; done].
    destruct (cancel (tun m)) as [f |]; [| done].
    intros [= <-]. simpl. split_and!; try done.
    intros c. apply ctxDone_callCancel.
  - intros n. revert m. induction n as [| n IH]; intros m.
    + simpl. by destruct (Stop m).
    + change (StopTimes (S (S n)) m)
        with (match Stop m with Done m' => StopTimes (S n) m' | Panic => Panic end).
      destruct (Stop m) as [m' |] eqn:E; [| done].
      rewrite IH. revert E. unfold Stop.
      destruct (started (tun m)) eqn:Es.
      * destruct (cancel (tun m)) as [f |] eqn:Ec; [| done].
        intros [= <-]. simpl. rewrite Es, Ec.
        unfold with_store. simpl. by rewrite callCancel_idem.
      * intros [= <-]. by rewrite Es.
Qed.

Lemma Stop_idle_and_repeated_witness :
  Stop {| tun := exampleTun; store := emptyStore; trace := [] |}
  = Done {| tun := exampleTun; store := emptyStore; trace := [] |}.
Proof.
  apply (Stop_idle_and_repeated
           {| tun := exampleTun; store := emptyStore; trace := [] |}).
  reflexivity.
Defined.

(** ** Invariants of a run *)

Lemma startingFirst_app (t0 : SSHTun) (tr ext : list Event) :
  startingFirst t0 tr -> startingFirst t0 (tr ++ ext).
Proof.
  unfold startingFirst. destruct (connState t0); [| done].
  apply lookup_app_l_Some.
Qed.

Lemma sameConfig_refl (t : SSHTun) : sameConfig t t.
Proof. by repeat split. Qed.

Lemma connStates_app (a b : list Event) :
  connStates (a ++ b) = connStates a ++ connStates b.
Proof. unfold connStates. apply omap_app. Qed.

(** Case analysis on a step that succeeded. *)
Ltac inv_step H :=
  repeat (simpl in H;
          match type of H with
          | context [if ?b then _ else _] =>
              lazymatch b with
              | context [match _ with _ => _ end] => fail
              | _ => destruct b eqn:?
              end
          | context [match ?x with _ => _ end] =>
              lazymatch x with
              | context [match _ with _ => _ end] => fail
              | context [if _ then _ else _] => fail
              | _ => destruct x eqn:?
              end
          | Some _ = Some _ => injection H as <-
          | Done _ = Done _ => injection H as <-
          | (_, _) = (_, _) => injection H as <- <-
          | Panic = Done _ => discriminate H
          | None = Some _ => discriminate H
          end).

Ltac eqb_facts :=
  repeat match goal with
    | H : (_ && _) = true |- _ => apply andb_true_iff in H; destruct H
    | H : negb _ = true |- _ => apply negb_true_iff in H
    | H : (_ =? _) = true |- _ => apply Z.eqb_eq in H
    | H : (_ =? _) = false |- _ => apply Z.eqb_neq in H
    end.

Ltac lc_solve :=
  unfold seen, startingFirst in *; simpl in *; subst;
  repeat match goal with
    | H : Some _ = connState _ |- _ => symmetry in H
    | H : None = connState _ |- _ => symmetry in H
    end;
  repeat match goal with
    | H : connState _ = _ |- _ => rewrite H in *
    end;
  rewrite ?connStates_app; simpl; rewrite ?app_nil_r;
  try done; try congruence;
  try (by apply lookup_app_l_Some);
  try (by f_equal);
  try (match goal with H : connStates _ = _ |- _ => by rewrite H end);
  try (match goal with
       | H : match connState ?t with _ => _ end |- _ =>
           revert H; destruct (connState t); intros H;
           [by apply lookup_app_l_Some | done]
       end).

Ltac setup_error :=
  eqb_facts; eexists; split; [reflexivity |]; unfold isSetupError;
  first
    [ left; by eexists
    | right; left; eexists _, _; (split; [| split]); [| | reflexivity]; congruence
    | right; right; left; eexists _, _; (split; [| split]); [| | reflexivity];
      congruence
    | right; right; right; eexists _, _; (split; [| split]); [| | reflexivity];
      congruence ].

Lemma lifecycle_main (t0 : SSHTun) (w w' : World) (a : Action) :
  lifecycle t0 w -> crashed w = false -> stepMain a w = Some w' -> lifecycle t0 w'.
Proof.
  intros Hinv Hcr Hstep.
  destruct w as [[t s tr] pc lpc g l lc apc hs cr].
  unfold lifecycle, launched, sameConfig in Hinv. simpl in Hinv.
  destruct Hinv as ((Hcs & Htcs & Hft & Hsrv & Hloc & Hrem) & Hl & Hpc).
  unfold stepMain, startLock, stopLock, stopNotify, notifyConnState,
    initSSHConfig in Hstep.
  destruct pc; destruct a; try done; destruct_and?; simpl in Hstep;
    repeat match goal with
      | H : started _ = _ |- _ => rewrite H in Hstep
      end.
  all: inv_step Hstep.
  all: unfold lifecycle, launched, sameConfig; simpl.
  all: try (split_and!; try done; try (by destruct lpc)).
  all: try (destruct lpc; simpl in *; destruct_and?; try done).
  all: try (split_and?; lc_solve).
  all: try setup_error.
  all: eqb_facts; congruence.
Qed.


Lemma lifecycle_quiet (t0 : SSHTun) (w w' : World) :
  lifecycle t0 w -> quiet w w' -> lifecycle t0 w'.
Proof.
  unfold lifecycle, quiet, sameConfig.
  intros (Hc & Hl & Hpc) (Hm & Hla & Hlb & Hs & Hc' & ext & Htr & Hext).
  rewrite Hm, Hlb, Hs, Htr, connStates_app, Hext, app_nil_r.
  rewrite Hla in Hpc.
  split_and!; try (destruct_and!; congruence).
  destruct (mainPc w); destruct_and?; try done;
    split_and?; try done; by apply startingFirst_app.
Qed.


Lemma addConn_memStep (d : result Client) (m m' : Mem) (r : option error) :
  addConn d m = Done (m', r) ->
  exists ext, memStep m m' ext /\ Forall (fun e => isTunneled e = false) ext.
Proof.
  unfold addConn. intros H. inv_step H.
  all: first [ exists []; unfold memStep, sameConfig; simpl;
               rewrite ?app_nil_r; split_and!; done
             | eexists [_]; unfold memStep, sameConfig; simpl;
               split_and!; try done; by repeat constructor ].
Qed.

Lemma removeConn_memStep (m m' : Mem) :
  removeConn m = Done m' ->
  exists ext, memStep m m' ext /\ Forall (fun e => isTunneled e = false) ext.
Proof.
  unfold removeConn. intros H. inv_step H.
  all: first [ exists []; unfold memStep, sameConfig; simpl;
               rewrite ?app_nil_r; split_and!; done
             | eexists [_]; unfold memStep, sameConfig; simpl;
               split_and!; try done; by repeat constructor ].
Qed.

Lemma forwardBegin_memStep (c : Conn) (m : Mem) :
  exists ext, memStep m (forwardBegin c m) ext /\ Forall (eventOf c) ext.
Proof.
  unfold forwardBegin, notifyTunneledConnState.
  destruct (tunneledConnState (tun m)) as [f |].
  - eexists [_]; unfold memStep, sameConfig; simpl. split_and!; try done.
    repeat constructor. by eexists _, _.
  - exists []. unfold memStep, sameConfig. simpl. rewrite app_nil_r.
    split_and!; done.
Qed.

Lemma forwardEnd_memStep (c : Conn) (err : option error) (m : Mem) :
  exists ext, memStep m (forwardEnd c err m) ext /\ Forall (eventOf c) ext.
Proof.
  unfold forwardEnd, notifyTunneledConnState.
  destruct (tunneledConnState (tun m)) as [f |].
  - eexists [_]; unfold memStep, sameConfig; simpl. split_and!; try done.
    repeat constructor. by eexists _, _.
  - exists []. unfold memStep, sameConfig. simpl. rewrite app_nil_r.
    split_and!; done.
Qed.

(** [finishTask] touches the group and the cancellation cells only. *)
Lemma finishTask_tun r w : tun (mem (finishTask r w)) = tun (mem w).
Proof.
  unfold finishTask. destruct (group w); [| done].
  by destruct (Errgroup.finish _ _ _).
Qed.

Lemma finishTask_trace r w : trace (mem (finishTask r w)) = trace (mem w).
Proof.
  unfold finishTask. destruct (group w); [| done].
  by destruct (Errgroup.finish _ _ _).
Qed.

Lemma finishTask_mainPc r w : mainPc (finishTask r w) = mainPc w.
Proof.
  unfold finishTask. destruct (group w); [| done].
  by destruct (Errgroup.finish _ _ _).
Qed.

Lemma finishTask_listenPc r w : listenPc (finishTask r w) = listenPc w.
Proof.
  unfold finishTask. destruct (group w); [| done].
  by destruct (Errgroup.finish _ _ _).
Qed.

Lemma finishTask_acceptPc r w : acceptPc (finishTask r w) = acceptPc w.
Proof.
  unfold finishTask. destruct (group w); [| done].
  by destruct (Errgroup.finish _ _ _).
Qed.

Lemma finishTask_handlers r w : handlers (finishTask r w) = handlers w.
Proof.
  unfold finishTask. destruct (group w); [| done].
  by destruct (Errgroup.finish _ _ _).
Qed.

Lemma finishTask_launched r w : launched (finishTask r w) = launched w.
Proof. unfold launched. by rewrite finishTask_listenPc. Qed.

Ltac finish_proj :=
  rewrite ?finishTask_tun, ?finishTask_trace, ?finishTask_mainPc,
    ?finishTask_listenPc, ?finishTask_acceptPc, ?finishTask_handlers,
    ?finishTask_launched.

Lemma quiet_same (w w' : World) :
  launched w = true ->
  mainPc w' = mainPc w -> listenPc w' = listenPc w ->
  tun (mem w') = tun (mem w) -> trace (mem w') = trace (mem w) ->
  quiet w w'.
Proof.
  intros Hl Hm Hp Ht Htr. unfold quiet, launched in *.
  rewrite Hm, Hp, Ht, Htr. split_and!; try done.
  exists []. by rewrite app_nil_r.
Qed.

Lemma quiet_memStep (w w' : World) (m' : Mem) (ext : list Event) :
  launched w = true ->
  mainPc w' = mainPc w -> listenPc w' = listenPc w ->
  tun (mem w') = tun m' -> trace (mem w') = trace m' ->
  memStep (mem w) m' ext ->
  quiet w w'.
Proof.
  intros Hl Hm Hp Ht Htr' (Htr & _ & Hs & _ & _ & Hc & Hext).
  unfold quiet, launched in *.
  rewrite Hm, Hp, Ht, Htr'. split_and!; try done. by exists ext.
Qed.

Lemma stepListen_quiet (w w' : World) :
  stepListen w = Some w' -> quiet w w'.
Proof.
  intros Hstep. unfold stepListen, Errgroup.WithContext, Errgroup.Wait, withCancel in Hstep.
  destruct (listenPc w) eqn:Hpc; try done; inv_step Hstep.
  all: unfold quiet, launched; simpl; rewrite ?Hpc; split_and!; try done.
  all: first [ apply sameConfig_refl | by (exists []; rewrite app_nil_r) ].
Qed.

Lemma stepAccept_quiet (r : option error) (w w' : World) :
  (launched w = false ->
   handlers w = [] /\ acceptPc w = ANone /\ group w = None) ->
  stepAccept r w = Some w' -> quiet w w'.
Proof.
  intros Hl Hstep. unfold stepAccept in Hstep.
  destruct (acceptPc w) eqn:Hpc; try done.
  assert (Hla : launched w = true).
  { destruct (launched w); [done |]. destruct Hl as (_ & ? & _); congruence. }
  inv_step Hstep; apply quiet_same; finish_proj; done.
Qed.

Lemma stepHandler_quiet (c : Conn) (a : Action) (w w' : World) :
  (launched w = false ->
   handlers w = [] /\ acceptPc w = ANone /\ group w = None) ->
  stepHandler c a w = Some w' -> quiet w w'.
Proof.
  intros Hl Hstep. unfold stepHandler in Hstep.
  destruct (handlers w !! c) as [pc |] eqn:Hh; [| done].
  assert (Hla : launched w = true).
  { destruct (launched w); [done |]. destruct Hl as (Hn & _); [done |].
    by rewrite Hn in Hh. }
  destruct pc, a; try done.
  - destruct (addConn dial (mem w)) as [[m' [e |]] |] eqn:Hadd;
      injection Hstep as <-.
    + apply addConn_memStep in Hadd as (ext & Hms & _).
      eapply quiet_memStep; [..| exact Hms]; finish_proj; done.
    + apply addConn_memStep in Hadd as (ext & Hms & _).
      eapply quiet_memStep; [..| exact Hms]; done.
    + by apply quiet_same.
  - injection Hstep as <-.
    destruct (forwardBegin_memStep c (mem w)) as (ext & Hms & _).
    eapply quiet_memStep; [..| exact Hms]; done.
  - injection Hstep as <-.
    destruct (forwardEnd_memStep c err (mem w)) as (ext & Hms & _).
    eapply quiet_memStep; [..| exact Hms]; done.
  - destruct (removeConn (mem w)) as [m' |] eqn:Hrem; injection Hstep as <-.
    + apply removeConn_memStep in Hrem as (ext & Hms & _).
      eapply quiet_memStep; [..| exact Hms]; finish_proj; done.
    + by apply quiet_same.
Qed.

Lemma lifecycle_step (t0 : SSHTun) (w w' : World) (a : Action) :
  lifecycle t0 w -> step w a = Some w' -> lifecycle t0 w'.
Proof.
  intros Hinv Hstep. unfold step in Hstep.
  destruct (crashed w) eqn:Hcr; [done |].
  pose proof Hinv as (_ & Hl & _).
  destruct a;
    try (by eapply lifecycle_main);
    try (by eapply lifecycle_quiet;
           [| first [ by eapply stepListen_quiet
                    | by eapply stepAccept_quiet
                    | by eapply stepHandler_quiet ] ]).
  - (* CallStop *)
    unfold Stop in Hstep. inv_step Hstep; exact Hinv.
  - injection Hstep as <-. exact Hinv.
Qed.

Lemma lifecycle_init (t0 : SSHTun) (k : nat) :
  started t0 = false -> lifecycle t0 (initWorld t0 k).
Proof.
  intros Hs. unfold lifecycle, initWorld, launched. simpl.
  split_and!; done.
Qed.

(** An invariant of the steps holds all along a run. *)
Lemma run_invariant (P : World -> Prop) :
  (forall w a w', P w -> step w a = Some w' -> P w') ->
  forall sched w w', P w -> run w sched = Some w' -> P w'.
Proof.
  intros Hstep. induction sched as [| a sched IH]; intros w w' HP Hrun.
  - simpl in Hrun. by injection Hrun as <-.
  - simpl in Hrun. destruct (step w a) as [w1 |] eqn:E; [| done].
    eapply IH; [| exact Hrun]. eapply Hstep; eauto.
Qed.

Lemma lifecycle_run (t0 : SSHTun) (k : nat) (sched : list Action) (w : World) :
  started t0 = false ->
  run (initWorld t0 k) sched = Some w -> lifecycle t0 w.
Proof.
  intros Hs Hrun.
  eapply (run_invariant (lifecycle t0)); [| by apply lifecycle_init | exact Hrun].
  intros. by eapply lifecycle_step.
Qed.

(** ** Start fails before the accept phase *)

Lemma isSetupError_wraps (t0 : SSHTun) (e : error) :
  isSetupError t0 e -> is_Some (Unwrap e).
Proof.
  intros [(c & ->) | [(ep & c & _ & _ & ->) | [(ep & c & _ & _ & ->)
                                              | (ep & c & _ & _ & ->)]]];
    by eexists.
Qed.

Lemma run_history (P : list Action -> World -> Prop) :
  (forall hist w a w', P hist w -> step w a = Some w' -> P (hist ++ [a]) w') ->
  forall sched hist w w',
    P hist w -> run w sched = Some w' -> P (hist ++ sched) w'.
Proof.
  intros Hstep. induction sched as [| a sched IH]; intros hist w w' HP Hrun.
  - simpl in Hrun. injection Hrun as <-. by rewrite app_nil_r.
  - simpl in Hrun. destruct (step w a) as [w1 |] eqn:E; [| done].
    rewrite (cons_middle a hist sched), app_assoc.
    eapply IH; [| exact Hrun]. eapply Hstep; eauto.
Qed.

Lemma failedPhase_app (t0 : SSHTun) (hist ext : list Action) (err : error) :
  failedPhase t0 hist err -> failedPhase t0 (hist ++ ext) err.
Proof.
  intros (cause & Hu & H). exists cause. split; [done |].
  destruct H as [[? ?] | [(ep & ? & ?) | [(srv & ? & ?) | (ep & ? & ?)]]].
  - left. split; [| done]. apply elem_of_app. by left.
  - right. left. exists ep. split; [| done]. apply elem_of_app. by left.
  - right. right. left. exists srv. split; [| done]. apply elem_of_app. by left.
  - right. right. right. exists ep. split; [| done]. apply elem_of_app. by left.
Qed.

Lemma setupInv_same (t0 : SSHTun) (hist : list Action) (a : Action)
    (w w' : World) :
  setupInv t0 hist w -> mainPc w' = mainPc w -> launched w' = launched w ->
  setupInv t0 (hist ++ [a]) w'.
Proof.
  unfold setupInv. intros H -> -> Hl. specialize (H Hl).
  destruct (mainPc w); try done;
    destruct H as (e & -> & H); exists e; split; try done;
    by apply failedPhase_app.
Qed.

Lemma setupInv_quiet (t0 : SSHTun) (hist : list Action) (w w' : World) :
  quiet w w' -> setupInv t0 hist w'.
Proof. intros (_ & _ & Hl & _) Hl'. congruence. Qed.

Lemma setupInv_main (t0 : SSHTun) (hist : list Action) (a : Action)
    (w w' : World) :
  lifecycle t0 w -> setupInv t0 hist w -> stepMain a w = Some w' ->
  setupInv t0 (hist ++ [a]) w'.
Proof.
  intros ((_ & _ & Hft & Hsrv & Hloc & Hrem) & _ & Hpc) Hinv Hstep.
  assert (Hin : a ∈ hist ++ [a]).
  { apply elem_of_app. right. apply elem_of_cons. by left. }
  unfold stepMain, startLock, initSSHConfig in Hstep.
  unfold setupInv in *.
  destruct (mainPc w) eqn:Hm; destruct a; try done.
  all: inv_step Hstep; simpl; rewrite ?Hm; try done.
  all: intros Hl.
  all: try (destruct Hpc as (_ & _ & Hst); congruence).
  all: try (unfold launched in *; simpl in *; destruct (listenPc w); done).
  all: try (specialize (Hinv Hl); destruct Hinv as (e0 & -> & Hinv);
            exists e0; split; [done | by apply failedPhase_app]).
  all: eqb_facts.
  all: eexists; split; [reflexivity |]; eexists; split; [reflexivity |].
  - left. done.
  - right. left. eexists. split_and!;
      first [eassumption | symmetry; eassumption | congruence | reflexivity].
  - right. right. left. eexists. split_and!;
      first [eassumption | symmetry; eassumption | congruence | reflexivity].
  - right. right. right. destruct Hpc as (_ & _ & _ & _ & Hr).
    eexists. split_and!;
      first [eassumption | symmetry; eassumption | congruence | reflexivity].
Qed.

Lemma setupInv_step (t0 : SSHTun) (hist : list Action) (w w' : World)
    (a : Action) :
  lifecycle t0 w /\ setupInv t0 hist w -> step w a = Some w' ->
  lifecycle t0 w' /\ setupInv t0 (hist ++ [a]) w'.
Proof.
  intros [Hlc Hinv] Hstep. split; [by eapply lifecycle_step |].
  unfold step in Hstep. destruct (crashed w) eqn:Hcr; [done |].
  pose proof Hlc as (_ & Hl & _).
  destruct a;
    try (by eapply setupInv_main);
    try (by eapply setupInv_quiet;
           first [ by eapply stepListen_quiet
                 | by eapply stepAccept_quiet
                 | by eapply stepHandler_quiet ]).
  - unfold Stop in Hstep.
    inv_step Hstep; (eapply setupInv_same; [exact Hinv | done | done]).
  - injection Hstep as <-. eapply setupInv_same; [exact Hinv | done | done].
Qed.

Lemma setupInv_run (t0 : SSHTun) (k : nat) (sched : list Action) (w : World) :
  started t0 = false ->
  run (initWorld t0 k) sched = Some w -> setupInv t0 sched w.
Proof.
  intros Hs Hrun.
  pose proof (run_history (fun hist w => lifecycle t0 w /\ setupInv t0 hist w)
                (fun h w1 a w2 => setupInv_step t0 h w1 w2 a)
                sched [] (initWorld t0 k) w) as H.
  simpl in H. apply H; [| done].
  split; [by apply lifecycle_init | done].
Qed.

(** C4.  When [Start], called on a tunnel that is not started, returns
    without having launched the accept loop, the tunnel-state callback has
    been told exactly [StateStarting] then [StateStopped] (and nothing when
    no callback is registered), never [StateStarted]; the [started] flag is
    clear again; and the result is an error that wraps the error of the
    call that failed in the run and names that call: "ssh config failed: "
    when [initSSHConfig] failed, "local listen T on A failed: " when the
    listen on the local endpoint failed (Local mode), "ssh dial T to A
    failed: " when the dial of the server failed and "remote listen T on A
    failed: " when the server refused the listen on the remote endpoint
    (Remote mode), T and A being the type and the address of that
    endpoint; the message ends with the message of the wrapped error. *)
Theorem Start_setup_failure (t0 : SSHTun) (k : nat) (sched : list Action)
    (w : World) (r : option error) :
  started t0 = false ->
  run (initWorld t0 k) sched = Some w ->
  returned w = Some r ->
  launched w = false ->
  connStates (trace (mem w)) = seen t0 [StateStarting; StateStopped] /\
  (is_Some (connState t0) ->
   connStates (trace (mem w)) = [StateStarting; StateStopped]) /\
  (StateStarted ∉ connStates (trace (mem w))) /\
  started (tun (mem w)) = false /\
  exists e, r = Some e /\ isSetupError t0 e /\ is_Some (Unwrap e) /\
            failedPhase t0 sched e.
Proof.
  intros Hs Hrun Hret Hl.
  pose proof (lifecycle_run t0 k sched w Hs Hrun) as (_ & _ & Hpc).
  pose proof (setupInv_run t0 k sched w Hs Hrun Hl) as Hfp.
  unfold returned in Hret. destruct (mainPc w); try done.
  injection Hret as ->. rewrite Hl in Hpc.
  destruct Hpc as (_ & Hst & Hcs & e & -> & He).
  destruct Hfp as (e' & [= <-] & Hfp).
  split_and!; try done.
  - intros [f Hf]. rewrite Hcs. unfold seen. by rewrite Hf.
  - rewrite Hcs. unfold seen. destruct (connState t0).
    + rewrite !elem_of_cons, elem_of_nil. intros [? | [? | ?]]; done.
    + apply not_elem_of_nil.
  - exists e. split_and!; try done. by eapply isSetupError_wraps.
Qed.

Lemma Start_setup_failure_witness :
  (connStates (trace (mem (runOf exampleTun bindFails)))
   = [StateStarting; StateStopped] /\
   returned (runOf exampleTun bindFails)
   = Some (Some (WrapError
                   "local listen tcp on localhost:8080 failed: address already in use"
                   addrInUse))) /\
  (connStates (trace (mem (runOf exampleTun configFails)))
   = [StateStarting; StateStopped] /\
   returned (runOf exampleTun configFails)
   = Some (Some (WrapError "ssh config failed: no such key file" noKey))) /\
  (connStates (trace (mem (runOf remoteTun remoteDialFails)))
   = [StateStarting; StateStopped] /\
   returned (runOf remoteTun remoteDialFails)
   = Some (Some (WrapError
                   "ssh dial tcp to my.super.host.com:22 failed: connection refused"
                   refused))) /\
  (connStates (trace (mem (runOf remoteTun remoteListenFails)))
   = [StateStarting; StateStopped] /\
   returned (runOf remoteTun remoteListenFails)
   = Some (Some (WrapError
                   "remote listen tcp on localhost:80 failed: address already in use"
                   addrInUse))).
Proof.
  split; [| split; [| split]].
  - assert (Hrun : run (initWorld exampleTun 0) bindFails
                   = Some (runOf exampleTun bindFails)) by (vm_compute; reflexivity).
    assert (Hret : returned (runOf exampleTun bindFails)
                   = Some (Some (WrapError
                      "local listen tcp on localhost:8080 failed: address already in use"
                      addrInUse)))
      by (vm_compute; reflexivity).
    assert (Hl : launched (runOf exampleTun bindFails) = false)
      by (vm_compute; reflexivity).
    destruct (Start_setup_failure exampleTun 0 bindFails _ _ eq_refl Hrun Hret Hl)
      as (_ & H & _).
    split; [apply H; by eexists | exact Hret].
  - assert (Hrun : run (initWorld exampleTun 0) configFails
                   = Some (runOf exampleTun configFails)) by (vm_compute; reflexivity).
    assert (Hret : returned (runOf exampleTun configFails)
                   = Some (Some (WrapError "ssh config failed: no such key file"
                                 noKey)))
      by (vm_compute; reflexivity).
    assert (Hl : launched (runOf exampleTun configFails) = false)
      by (vm_compute; reflexivity).
    destruct (Start_setup_failure exampleTun 0 configFails _ _ eq_refl Hrun Hret Hl)
      as (_ & H & _).
    split; [apply H; by eexists | exact Hret].
  - assert (Hrun : run (initWorld remoteTun 0) remoteDialFails
                   = Some (runOf remoteTun remoteDialFails)) by (vm_compute; reflexivity).
    assert (Hret : returned (runOf remoteTun remoteDialFails)
                   = Some (Some (WrapError
                      "ssh dial tcp to my.super.host.com:22 failed: connection refused"
                      refused)))
      by (vm_compute; reflexivity).
    assert (Hl : launched (runOf remoteTun remoteDialFails) = false)
      by (vm_compute; reflexivity).
    destruct (Start_setup_failure remoteTun 0 remoteDialFails _ _ eq_refl Hrun Hret Hl)
      as (_ & H & _).
    split; [apply H; by eexists | exact Hret].
  - assert (Hrun : run (initWorld remoteTun 0) remoteListenFails
                   = Some (runOf remoteTun remoteListenFails)) by (vm_compute; reflexivity).
    assert (Hret : returned (runOf remoteTun remoteListenFails)
                   = Some (Some (WrapError
                      "remote listen tcp on localhost:80 failed: address already in use"
                      addrInUse)))
      by (vm_compute; reflexivity).
    assert (Hl : launched (runOf remoteTun remoteListenFails) = false)
      by (vm_compute; reflexivity).
    destruct (Start_setup_failure remoteTun 0 remoteListenFails _ _ eq_refl Hrun Hret Hl)
      as (_ & H & _).
    split; [apply H; by eexists | exact Hret].
Defined.

(** ** Tunnel-state callbacks and connection callbacks *)

(** C6, amended.  In every run of [Start] on a tunnel that is not started
    and has a tunnel-state callback, a connection callback is preceded by
    the [StateStarting] callback, which is the first event of the run. *)
Theorem starting_before_connections (t0 : SSHTun) (k : nat)
    (sched : list Action) (w : World) (cb f : Callback)
    (st : TunneledConnState) (i : nat) :
  started t0 = false ->
  connState t0 = Some cb ->
  run (initWorld t0 k) sched = Some w ->
  trace (mem w) !! i = Some (EvTunneledConnState f st) ->
  trace (mem w) !! 0%nat = Some (EvConnState cb StateStarting) /\ (0 < i)%nat.
Proof.
  intros Hs Hcb Hrun Hi.
  pose proof (lifecycle_run t0 k sched w Hs Hrun) as (_ & _ & Hpc).
  assert (H0 : trace (mem w) !! 0%nat = Some (EvConnState cb StateStarting)).
  { unfold startingFirst in Hpc. rewrite Hcb in Hpc.
    destruct (mainPc w); destruct_and?; try done;
      match goal with H : trace (mem w) = [] |- _ => by rewrite H in Hi end. }
  split; [exact H0 |].
  destruct i; [| lia]. rewrite H0 in Hi. done.
Qed.

Lemma starting_before_connections_witness :
  trace (mem (exampleRun earlyConn)) !! 0%nat
  = Some (EvConnState 1%nat StateStarting) /\ (0 < 2)%nat.
Proof.
  assert (Hrun : run (initWorld exampleTun 0) earlyConn
                 = Some (exampleRun earlyConn)) by (vm_compute; reflexivity).
  assert (Hi : trace (mem (exampleRun earlyConn)) !! 2%nat
               = Some (EvTunneledConnState 2%nat
                         {| tcsConn := 0%nat; tcsTag := ConnStarted;
                            tcsErr := None |}))
    by (vm_compute; reflexivity).
  exact (starting_before_connections exampleTun 0 earlyConn
           (exampleRun earlyConn) 1%nat 2%nat _ 2%nat eq_refl eq_refl Hrun Hi).
Defined.

(** C6 as stated fails: the example tunnel accepts a connection and makes
    its first connection callback while the caller of [Start] has not yet
    made the [StateStarted] callback, which comes after it in the trace. *)
Lemma connection_before_started :
  run (initWorld exampleTun 0) earlyConn = Some (exampleRun earlyConn) /\
  launched (exampleRun earlyConn) = true /\
  trace (mem (exampleRun earlyConn))
  = [EvConnState 1%nat StateStarting;
     EvDial (Ok 9%nat);
     EvTunneledConnState 2%nat
       {| tcsConn := 0%nat; tcsTag := ConnStarted; tcsErr := None |};
     EvConnState 1%nat StateStarted].
Proof. vm_compute. split_and!; reflexivity. Qed.

(** ** The contexts and the group *)

Lemma ctxInv_frame (w w' : World) :
  ctxInv w ->
  store (mem w') = store (mem w) ->
  ctx (tun (mem w')) = ctx (tun (mem w)) ->
  cancel (tun (mem w')) = cancel (tun (mem w)) ->
  group w' = group w -> mainPc w' = mainPc w ->
  pastWait (listenPc w') = pastWait (listenPc w) ->
  ctxInv w'.
Proof.
  unfold ctxInv. intros H Hs Hc Hf Hg Hm Hp.
  by rewrite Hs, Hc, Hf, Hg, Hm, Hp.
Qed.

Lemma ctxInv_finish (r : option error) (w : World) :
  ctxInv w -> ctxInv (finishTask r w).
Proof.
  unfold ctxInv, finishTask. intros (H1 & H2 & H3).
  destruct (group w) as [g |] eqn:Hg; [| by rewrite Hg].
  destruct H3 as (c & Hc & Hgc & Hlt & Hne & Hin & Herr).
  unfold Errgroup.finish.
  destruct r as [e |], (Errgroup.gErr g) as [e' |] eqn:He; simpl.
  all: split_and!; try done.
  all: try (exists c; split_and!; try done).
  all: try (intros n; rewrite elem_of_union, elem_of_singleton;
            intros [-> | ?]; [done | by apply H1]).
  all: try (intros _; left; by eexists).
  all: try (intros _; apply elem_of_union_l, elem_of_singleton; done).
Qed.

Lemma ctxInv_main (t0 : SSHTun) (w w' : World) (a : Action) :
  lifecycle t0 w -> ctxInv w -> stepMain a w = Some w' -> ctxInv w'.
Proof.
  intros (_ & Hl & Hpc) (H1 & H2 & H3) Hstep.
  destruct w as [[t s tr] pc lpc g l lc apc hs cr].
  unfold launched in *. simpl in *.
  unfold stepMain, startLock, stopLock, stopNotify, notifyConnState,
    initSSHConfig, withCancel in Hstep.
  destruct pc; destruct a; try done; destruct_and?; simpl in Hstep;
    repeat match goal with
      | H : started _ = _ |- _ => rewrite H in Hstep
      end.
  all: try (destruct Hl as (-> & -> & ->); [done |]).
  all: inv_step Hstep.
  all: unfold ctxInv; simpl.
  all: try (split_and!; done).
  all: split_and!; try done.
  all: try (intros n Hn; apply H1 in Hn; lia).
  all: try (eexists _, _; split_and!; [reflexivity | reflexivity | lia]).
Qed.

Ltac ctx_auto :=
  repeat match goal with
    | H : exists _, _ |- _ => destruct H as (? & H)
    | H : _ /\ _ |- _ => destruct H
    | H : match ?g with Some _ => _ | None => _ end |- _ => destruct g
    end; simplify_eq;
  repeat match goal with
    | |- exists _, _ => eexists
    | |- _ /\ _ => split
    end;
  try done; try lia; try congruence; try eassumption;
  try (intros n Hn; rewrite ?elem_of_union, ?elem_of_singleton in Hn;
       destruct_or?; subst; try done; try lia;
       match goal with H : forall n, _ ∈ _ -> _ |- _ => apply H in Hn end; lia);
  try (intros _; apply elem_of_union_l, elem_of_singleton; done);
  try (match goal with
       | H : cancel _ = Some _ |- _ => rewrite H; intros [=]; lia
       end);
  try (intros Hn; rewrite ?elem_of_union, ?elem_of_singleton in Hn;
       destruct_or?; subst; try done; try tauto; try congruence;
       try (by left); try (by right);
       try (match goal with
            | H : forall n, _ ∈ _ -> _, Hm : _ ∈ _ |- _ => apply H in Hm; lia
            end));
  try tauto.

Lemma ctxInv_listen (t0 : SSHTun) (w w' : World) :
  lifecycle t0 w -> listenInv w -> ctxInv w -> stepListen w = Some w' -> ctxInv w'.
Proof.
  intros (_ & _ & Hpc) (_ & Hli) (H1 & H2 & H3) Hstep.
  destruct w as [[t s tr] pc lpc g l lc apc hs cr].
  unfold launched in *. simpl in *.
  unfold stepListen, Errgroup.WithContext, Errgroup.Wait, withCancel in Hstep.
  destruct lpc; try done; simpl in Hstep.
  all: inv_step Hstep.
  all: unfold ctxInv; simpl.
  all: try (split_and!; done).
  all: split_and!; try done.
  all: destruct pc; destruct_and?; try done.
  all: ctx_auto.
Qed.

Lemma ctxInv_accept (r : option error) (w w' : World) :
  ctxInv w -> stepAccept r w = Some w' -> ctxInv w'.
Proof.
  intros Hinv Hstep. unfold stepAccept in Hstep.
  inv_step Hstep.
  all: first [ exact Hinv | by apply ctxInv_finish | idtac ].
  destruct Hinv as (H1 & H2 & H3). unfold ctxInv. simpl.
  split_and!; try done.
  destruct (group w) as [g |]; [| done]. exact H3.
Qed.

Lemma ctxInv_handler (c : Conn) (a : Action) (w w' : World) :
  ctxInv w -> stepHandler c a w = Some w' -> ctxInv w'.
Proof.
  intros Hinv Hstep. unfold stepHandler in Hstep.
  destruct (handlers w !! c) as [pc |] eqn:Hh; [| done].
  destruct pc, a; try done.
  - destruct (addConn dial (mem w)) as [[m' [e |]] |] eqn:Hadd;
      injection Hstep as <-; [| | exact Hinv].
    + apply addConn_memStep in Hadd as (ext & (_ & ? & _ & ? & ? & _) & _).
      apply ctxInv_finish. by eapply ctxInv_frame.
    + apply addConn_memStep in Hadd as (ext & (_ & ? & _ & ? & ? & _) & _).
      by eapply ctxInv_frame.
  - injection Hstep as <-.
    destruct (forwardBegin_memStep c (mem w)) as (ext & (_ & ? & _ & ? & ? & _) & _).
    by eapply ctxInv_frame.
  - injection Hstep as <-.
    destruct (forwardEnd_memStep c err (mem w)) as (ext & (_ & ? & _ & ? & ? & _) & _).
    by eapply ctxInv_frame.
  - destruct (removeConn (mem w)) as [m' |] eqn:Hrem; injection Hstep as <-;
      [| exact Hinv].
    apply removeConn_memStep in Hrem as (ext & (_ & ? & _ & ? & ? & _) & _).
    apply ctxInv_finish. by eapply ctxInv_frame.
Qed.

Lemma ctxInv_cancel (w : World) (f : CancelFunc) :
  ctxInv w -> cancel (tun (mem w)) = Some f ->
  (f < nextCell (store (mem w)))%nat ->
  ctxInv (with_mem (with_store (callCancel (store (mem w)) f) (mem w)) w).
Proof.
  intros (H1 & H2 & H3) Hf Hlt. unfold ctxInv. simpl. split_and!; try done.
  - intros n. rewrite elem_of_union, elem_of_singleton.
    intros [-> | Hn]; [done | by apply H1].
  - destruct (group w) as [g |]; [| done].
    destruct H3 as (c & Hc & Hg & Hgl & Hne & Hin & Herr).
    exists c. split_and!; try done.
    + rewrite elem_of_union, elem_of_singleton. intros [Heq | Hn]; [| auto].
      rewrite Hf, Heq in Hne. done.
    + intros He. apply elem_of_union_r. auto.
Qed.

Lemma ctxInv_step (t0 : SSHTun) (w w' : World) (a : Action) :
  lifecycle t0 w -> listenInv w -> ctxInv w -> step w a = Some w' -> ctxInv w'.
Proof.
  intros Hlc Hli Hinv Hstep. unfold step in Hstep.
  destruct (crashed w) eqn:Hcr; [done |].
  destruct a;
    try (by eapply ctxInv_main);
    try (by eapply ctxInv_listen);
    try (by eapply ctxInv_accept);
    try (by eapply ctxInv_handler).
  - (* CallStop *)
    unfold Stop in Hstep. inv_step Hstep; try exact Hinv.
    apply ctxInv_cancel; try done.
    destruct Hlc as (_ & _ & Hpc). destruct Hinv as (_ & H2 & _).
    destruct (mainPc w); destruct_and?; try congruence;
      destruct H2 as (par & f & _ & Hf & Hlt); congruence.
  - injection Hstep as <-. exact Hinv.
Qed.

(** ** What listen hands to Start *)

Lemma listenInv_mono (w w' : World) :
  listenInv w ->
  mainPc w' = mainPc w -> listenPc w' = listenPc w ->
  (is_Some (group w) -> is_Some (group w')) ->
  (group w = None -> group w' = None) ->
  (forall e, groupErr w = Some e -> groupErr w' = Some e) ->
  (tunCtxDone (mem w) = true -> tunCtxDone (mem w') = true) ->
  listenInv w'.
Proof.
  unfold listenInv, resultOk. intros (Ha & Hb) Hm Hl Hg Hn He Hd.
  rewrite Hm, Hl. split; [exact Ha |].
  assert (Hs : forall r, is_Some r -> r = groupErr w -> r = groupErr w').
  { intros r [e ->] Hr. symmetry. apply He. done. }
  assert (Hs' : is_Some (groupErr w) -> is_Some (groupErr w')).
  { intros [e Hr]. exists e. by apply He. }
  destruct (listenPc w); try (destruct (mainPc w)); try done;
    destruct_and?; split_and?; try tauto; auto.
  all: destruct_or?; destruct_and?; auto.
Qed.

Lemma tunCtxDone_store (m : Mem) (s' : CtxStore) :
  (forall c, ctxDone (store m) c = true -> ctxDone s' c = true) ->
  tunCtxDone m = true -> tunCtxDone (with_store s' m) = true.
Proof.
  unfold tunCtxDone. simpl. intros H. destruct (ctx (tun m)); [apply H | done].
Qed.

Lemma tunCtxDone_memStep (m m' : Mem) (ext : list Event) :
  memStep m m' ext -> tunCtxDone m' = tunCtxDone m.
Proof.
  intros (_ & Hs & _ & Hc & _). unfold tunCtxDone. by rewrite Hs, Hc.
Qed.

Lemma listenInv_finish (r : option error) (w : World) :
  listenInv w -> listenInv (finishTask r w).
Proof.
  intros H. eapply listenInv_mono; [exact H | ..];
    rewrite ?finishTask_mainPc, ?finishTask_listenPc; try done.
  all: unfold finishTask, groupErr, Errgroup.finish.
  all: destruct (group w) as [g |] eqn:Hg; try done.
  all: destruct r as [e |], (Errgroup.gErr g) as [e' |] eqn:He; simpl;
    rewrite ?Hg, ?He; try done.
  all: try (intros _; by eexists).
  all: try (apply tunCtxDone_store; intros c; apply ctxDone_callCancel).
Qed.

Lemma listenInv_main (t0 : SSHTun) (w w' : World) (a : Action) :
  lifecycle t0 w -> listenInv w -> stepMain a w = Some w' -> listenInv w'.
Proof.
  intros (_ & Hl & Hpc) (Ha & Hb) Hstep.
  destruct w as [[t s tr] pc lpc g l lc apc hs cr].
  unfold launched in *. simpl in *.
  unfold stepMain, startLock, stopLock, stopNotify, notifyConnState,
    initSSHConfig, withCancel in Hstep.
  destruct pc; destruct a; try done; destruct_and?; simpl in Hstep;
    repeat match goal with
      | H : started _ = _ |- _ => rewrite H in Hstep
      end.
  all: try (destruct Hl as (-> & -> & ->); [done |]).
  all: inv_step Hstep.
  all: unfold listenInv, resultOk, groupErr, tunCtxDone in *; simpl in *.
  all: try (split_and!; done).
  all: destruct lpc; try done; split_and?; try done; auto.
Qed.

Lemma listenInv_listen (w w' : World) :
  ctxInv w -> listenInv w -> stepListen w = Some w' -> listenInv w'.
Proof.
  intros (H1 & H2 & H3) (Ha & Hb) Hstep.
  destruct w as [[t s tr] pc lpc g l lc apc hs cr].
  simpl in H1, H2, H3, Ha, Hb.
  unfold stepListen, Errgroup.WithContext, Errgroup.Wait, withCancel in Hstep.
  destruct lpc; try done; simpl in Hstep.
  - (* LInit *)
    destruct (ctx t); injection Hstep as <-; unfold listenInv; simpl;
      (split; [destruct pc; try done; destruct Ha; done | done]).
  - (* LWaitDone *)
    destruct g as [g |]; [| done].
    destruct (ctxDone s (Errgroup.gCtx g)) eqn:Hd; [| done].
    injection Hstep as <-. split; [simpl; destruct pc; try done; destruct Ha; done |].
    simpl. split; [done |].
    destruct H3 as (c & Hc & Hg & _ & _ & Hin & _).
    rewrite Hg in Hd. simpl in Hd.
    apply orb_true_iff in Hd as [Hd | Hd].
    + apply bool_decide_eq_true in Hd. destruct (Hin Hd); [by left | done].
    + right. unfold tunCtxDone. simpl. by rewrite Hc.
  - (* LClose *)
    destruct l; injection Hstep as <-; unfold listenInv; simpl;
      (split; [destruct pc; try done; destruct Ha; done | done]).
  - (* LWait *)
    destruct g as [g |]; [| done]. destruct (Errgroup.gRunning g); [| done].
    injection Hstep as <-. split; [simpl; destruct pc; try done; destruct Ha; done |].
    simpl. destruct Hb as (_ & Hb). split_and!; try done.
    destruct Hb as [Hb | Hb]; [by left | right].
    revert Hb. unfold tunCtxDone. simpl.
    destruct (ctx t); [apply ctxDone_callCancel | done].
  - (* LSelect *)
    destruct Hb as (Hg & He & Hor).
    unfold tunCtxDone in Hor. simpl in Hor.
    destruct (ctx t) as [c |] eqn:Hc.
    + destruct (ctxDone s c) eqn:Hd; injection Hstep as <-;
        (split; [simpl; destruct pc; try done; destruct Ha; done |]); simpl;
        unfold resultOk, tunCtxDone; simpl; rewrite Hc, ?Hd.
      * by left.
      * right. destruct Hor; [| done]. split; auto.
    + injection Hstep as <-. split; [simpl; destruct pc; try done; destruct Ha; done |].
      simpl. split_and!; try done. unfold tunCtxDone. simpl. by rewrite Hc.
Qed.

Lemma listenInv_same (w w' : World) :
  listenInv w ->
  mainPc w' = mainPc w -> listenPc w' = listenPc w ->
  groupErr w' = groupErr w ->
  (is_Some (group w) <-> is_Some (group w')) ->
  (tunCtxDone (mem w) = true -> tunCtxDone (mem w') = true) ->
  listenInv w'.
Proof.
  intros H Hm Hl He Hg Hd. eapply listenInv_mono; eauto.
  - by apply Hg.
  - intros Hn. destruct (group w') eqn:E; [| done].
    destruct (proj2 Hg) as [? ?]; [by eexists | congruence].
  - intros e. by rewrite He.
Qed.

Lemma listenInv_accept (r : option error) (w w' : World) :
  listenInv w -> stepAccept r w = Some w' -> listenInv w'.
Proof.
  intros Hinv Hstep. unfold stepAccept in Hstep.
  inv_step Hstep.
  all: first [ exact Hinv | by apply listenInv_finish | idtac ].
  eapply listenInv_same; [exact Hinv | ..]; try done.
  - unfold groupErr. simpl. by destruct (group w).
  - simpl. destruct (group w); simpl; split; intros [? ?]; by eexists.
Qed.

Lemma listenInv_memStep (w w' : World) (ext : list Event) :
  listenInv w ->
  mainPc w' = mainPc w -> listenPc w' = listenPc w -> group w' = group w ->
  memStep (mem w) (mem w') ext ->
  listenInv w'.
Proof.
  intros H Hm Hl Hg Hms. eapply listenInv_same; eauto.
  - unfold groupErr. by rewrite Hg.
  - by rewrite Hg.
  - by rewrite (tunCtxDone_memStep _ _ _ Hms).
Qed.

Lemma listenInv_handler (c : Conn) (a : Action) (w w' : World) :
  listenInv w -> stepHandler c a w = Some w' -> listenInv w'.
Proof.
  intros Hinv Hstep. unfold stepHandler in Hstep.
  destruct (handlers w !! c) as [pc |] eqn:Hh; [| done].
  destruct pc, a; try done.
  - destruct (addConn dial (mem w)) as [[m' [e |]] |] eqn:Hadd;
      injection Hstep as <-; [| | exact Hinv].
    + apply addConn_memStep in Hadd as (ext & Hms & _).
      apply listenInv_finish. by eapply listenInv_memStep.
    + apply addConn_memStep in Hadd as (ext & Hms & _).
      by eapply listenInv_memStep.
  - injection Hstep as <-.
    destruct (forwardBegin_memStep c (mem w)) as (ext & Hms & _).
    by eapply listenInv_memStep.
  - injection Hstep as <-.
    destruct (forwardEnd_memStep c err (mem w)) as (ext & Hms & _).
    by eapply listenInv_memStep.
  - destruct (removeConn (mem w)) as [m' |] eqn:Hrem; injection Hstep as <-;
      [| exact Hinv].
    apply removeConn_memStep in Hrem as (ext & Hms & _).
    apply listenInv_finish. by eapply listenInv_memStep.
Qed.

Lemma listenInv_step (t0 : SSHTun) (w w' : World) (a : Action) :
  lifecycle t0 w -> ctxInv w -> listenInv w -> step w a = Some w' -> listenInv w'.
Proof.
  intros Hlc Hctx Hinv Hstep. unfold step in Hstep.
  destruct (crashed w) eqn:Hcr; [done |].
  destruct a;
    try (by eapply listenInv_main);
    try (by eapply listenInv_listen);
    try (by eapply listenInv_accept);
    try (by eapply listenInv_handler).
  - (* CallStop *)
    unfold Stop in Hstep. inv_step Hstep; try exact Hinv.
    eapply listenInv_same; [exact Hinv | ..]; try done.
    simpl. apply tunCtxDone_store. intros ?. apply ctxDone_callCancel.
  - injection Hstep as <-.
    eapply listenInv_same; [exact Hinv | ..]; try done.
    simpl. apply tunCtxDone_store. intros ?. apply ctxDone_cancelCaller.
Qed.

Lemma runInv_step (t0 : SSHTun) (w w' : World) (a : Action) :
  runInv t0 w -> step w a = Some w' -> runInv t0 w'.
Proof.
  intros (H1 & H2 & H3) Hstep. split_and!.
  - by eapply lifecycle_step.
  - by eapply ctxInv_step.
  - by eapply listenInv_step.
Qed.

Lemma runInv_init (t0 : SSHTun) (k : nat) :
  started t0 = false -> runInv t0 (initWorld t0 k).
Proof.
  intros Hs. split_and!.
  - by apply lifecycle_init.
  - unfold ctxInv, initWorld. simpl. split_and!; done.
  - unfold listenInv, initWorld. simpl. done.
Qed.

Lemma runInv_run (t0 : SSHTun) (k : nat) (sched : list Action) (w : World) :
  started t0 = false ->
  run (initWorld t0 k) sched = Some w -> runInv t0 w.
Proof.
  intros Hs Hrun.
  eapply (run_invariant (runInv t0)); [| by apply runInv_init | exact Hrun].
  intros. by eapply runInv_step.
Qed.

(** ** The errors of the tasks *)

Lemma errInv_frame (t0 : SSHTun) (w w' : World) :
  errInv t0 w ->
  group w' = group w -> acceptPc w' = acceptPc w -> handlers w' = handlers w ->
  errInv t0 w'.
Proof.
  unfold errInv, groupErr. intros H Hg Ha Hh. by rewrite Hg, Ha, Hh.
Qed.

Lemma errInv_main (t0 : SSHTun) (w w' : World) (a : Action) :
  errInv t0 w -> stepMain a w = Some w' -> errInv t0 w'.
Proof.
  intros Hinv Hstep. unfold stepMain in Hstep.
  inv_step Hstep; by apply (errInv_frame t0 w).
Qed.

Lemma groupErr_finish (r : option error) (w : World) :
  is_Some (group w) ->
  groupErr (finishTask r w)
  = match groupErr w with Some e => Some e | None => r end.
Proof.
  intros [g Hg]. unfold groupErr, finishTask, Errgroup.finish. rewrite Hg.
  destruct r as [e |], (Errgroup.gErr g) as [e' |] eqn:He; simpl; by rewrite ?He.
Qed.

Lemma group_finish (r : option error) (w : World) :
  is_Some (group w) -> is_Some (group (finishTask r w)).
Proof.
  intros [g Hg]. unfold finishTask, Errgroup.finish. rewrite Hg.
  destruct r as [e |], (Errgroup.gErr g) as [e' |]; simpl; by eexists.
Qed.

Lemma addConn_error (d : result Client) (m m' : Mem) (e : error) :
  addConn d m = Done (m', Some e) ->
  forwardType (tun m) = Local /\
  exists srv cause, server (tun m) = Some srv /\ e = dialError srv cause.
Proof.
  unfold addConn. intros H. inv_step H. eqb_facts. split; [done |].
  by eexists _, _.
Qed.

Lemma acceptError_config (t0 t : SSHTun) (ep : Endpoint) (e : error) :
  sameConfig t0 t -> acceptError t ep e = acceptError t0 ep e.
Proof.
  intros (_ & _ & Hf & _). unfold acceptError, forwardFromName. by rewrite Hf.
Qed.

Lemma fromEndpoint_config (t0 t : SSHTun) :
  sameConfig t0 t -> fromEndpoint t = fromEndpoint t0.
Proof.
  intros (_ & _ & Hf & _ & Hl & Hr). unfold fromEndpoint. by rewrite Hf, Hl, Hr.
Qed.

Lemma errInv_listen (t0 : SSHTun) (w w' : World) :
  listenInv w -> errInv t0 w -> stepListen w = Some w' -> errInv t0 w'.
Proof.
  intros (_ & Hli) Hinv Hstep.
  unfold stepListen, Errgroup.WithContext, withCancel in Hstep.
  destruct (listenPc w) eqn:Hpc; try done; inv_step Hstep;
    try (by apply (errInv_frame t0 w)).
  (* LInit: the group is created *)
  destruct Hinv as (_ & _ & _ & H4).
  assert (Hh : handlers w = [] /\ acceptPc w = ANone).
  { rewrite Hli in H4. split.
    - destruct (handlers w) eqn:E; [done |].
      destruct H4 as [? ?]; [by left | done].
    - destruct (acceptPc w) eqn:E; try done;
        destruct H4 as [? ?]; try done; by right. }
  destruct Hh as [Hh Ha].
  unfold errInv, groupErr. simpl. rewrite Hh. split_and!; done.
Qed.

Lemma errInv_accept (t0 : SSHTun) (r : option error) (w w' : World) :
  lifecycle t0 w -> errInv t0 w -> stepAccept r w = Some w' -> errInv t0 w'.
Proof.
  intros (Hcfg & _) Hinv Hstep. unfold stepAccept in Hstep.
  destruct (acceptPc w) eqn:Hpc; try done.
  destruct Hinv as (H1 & H2 & H3 & H4).
  assert (Hg : is_Some (group w)) by (apply H4; right; by rewrite Hpc).
  destruct (listener w); [| injection Hstep as <-; by split_and!].
  destruct r as [e |].
  - (* the accept fails *)
    destruct (fromEndpoint (tun (mem w))) as [e0 |] eqn:Heqo1;
      injection Hstep as <-; [| by split_and!].
    set (err := acceptError (tun (mem w)) e0 e).
    unfold errInv.
    rewrite groupErr_finish, finishTask_acceptPc, finishTask_handlers
      by exact Hg.
    change (groupErr (with_accept (AReturned err) w)) with (groupErr w).
    simpl. split_and!.
    + intros e1. destruct (groupErr w) as [e2 |] eqn:He.
      * intros [= <-]. right. destruct (H1 e2 eq_refl) as [Hc | Hc]; [| done].
        congruence.
      * intros [= <-]. by left.
    + intros e1 [= <-]. split.
      * destruct (groupErr w); by eexists.
      * exists e0, e. split.
        -- by rewrite <- (fromEndpoint_config t0 (tun (mem w))).
        -- by apply acceptError_config.
    + intros c e1 Hc. destruct (H3 c e1 Hc) as (_ & ? & ?). split_and!; try done.
      destruct (groupErr w); by eexists.
    + intros _. by apply group_finish.
  - (* a connection arrives *)
    destruct (listenerClosed w); [done |]. injection Hstep as <-.
    unfold errInv, groupErr in *. simpl.
    destruct Hg as [g Hg]. rewrite Hg in *. simpl.
    split_and!.
    + intros e1 He. destruct (H1 e1 He) as [? | [c Hc]]; [congruence |].
      right. exists c. by apply lookup_app_l_Some.
    + intros e1 ?. congruence.
    + intros c e1 Hc. apply H3 with c.
      apply lookup_app_Some in Hc as [Hc | [_ Hc]]; [done |].
      apply list_lookup_singleton_Some in Hc as [_ ?]. done.
    + intros _. by eexists.
Qed.

Lemma errInv_update (t0 : SSHTun) (w : World) (c : nat) (pc pc' : HandlerPc)
    (m' : Mem) :
  errInv t0 w -> handlers w !! c = Some pc ->
  (forall e, pc <> HReturned (Some e)) ->
  (forall e, pc' <> HReturned (Some e)) ->
  errInv t0 (with_handlers (<[c := pc']> (handlers w)) (with_mem m' w)).
Proof.
  intros (H1 & H2 & H3 & H4) Hc Hpc Hpc'. unfold errInv, groupErr in *. simpl.
  split_and!.
  - intros e He. destruct (H1 e He) as [? | [c0 Hc0]]; [by left | right].
    exists c0. rewrite list_lookup_insert_ne; [done |].
    intros <-. rewrite Hc in Hc0. injection Hc0 as ->. by eapply Hpc.
  - exact H2.
  - intros c0 e Hc0. apply H3 with c0.
    apply list_lookup_insert_Some in Hc0 as [(<- & -> & _) | [_ ?]]; [| done].
    by destruct (Hpc' e).
  - intros _. apply H4. left. intros Hn. by rewrite Hn in Hc.
Qed.

Lemma errInv_finish_none (t0 : SSHTun) (w : World) :
  errInv t0 w -> errInv t0 (finishTask None w).
Proof.
  intros H. destruct (group w) as [g |] eqn:Hg.
  - destruct H as (H1 & H2 & H3 & H4). unfold errInv.
    rewrite groupErr_finish, finishTask_acceptPc, finishTask_handlers
      by (by eexists).
    assert (He : match groupErr w with Some e => Some e | None => None end
                 = groupErr w) by (by destruct (groupErr w)).
    rewrite He. split_and!; try done.
    intros _. apply group_finish. by eexists.
  - unfold finishTask. by rewrite Hg.
Qed.

Lemma errInv_handler (t0 : SSHTun) (c : Conn) (a : Action) (w w' : World) :
  lifecycle t0 w -> errInv t0 w -> stepHandler c a w = Some w' -> errInv t0 w'.
Proof.
  intros (Hcfg & _) Hinv Hstep. unfold stepHandler in Hstep.
  destruct (handlers w !! c) as [pc |] eqn:Hh; [| done].
  destruct pc, a; try done.
  - destruct (addConn dial (mem w)) as [[m' [e |]] |] eqn:Hadd;
      injection Hstep as <-; [| | exact Hinv].
    + (* the dial fails *)
      apply addConn_error in Hadd as (Hf & srv & cause & Hsrv & ->).
      destruct Hinv as (H1 & H2 & H3 & H4).
      assert (Hg : is_Some (group w)).
      { apply H4. left. intros Hn. by rewrite Hn in Hh. }
      destruct Hcfg as (_ & _ & Hft & Hs & _).
      unfold errInv.
      rewrite groupErr_finish, finishTask_acceptPc, finishTask_handlers
        by exact Hg.
      simpl.
      change (groupErr (with_handlers _ (with_mem m' w))) with (groupErr w).
      split_and!.
      * intros e1. destruct (groupErr w) as [e2 |] eqn:He.
        -- intros [= <-]. destruct (H1 e2 eq_refl) as [? | [c1 Hc1]];
             [by left | right].
           exists c1. rewrite list_lookup_insert_ne; [done |].
           intros <-. discriminate (eq_trans (eq_sym Hh) Hc1).
        -- intros [= <-]. right. exists c.
           apply list_lookup_insert_eq. by eapply lookup_lt_Some.
      * intros e1 Ha. destruct (H2 e1 Ha) as [_ ?]. split; [| done].
        destruct (groupErr w); by eexists.
      * intros c1 e1 Hc0.
        assert (Hsome : is_Some match groupErr w with
                                | Some e => Some e
                                | None => Some (dialError srv cause)
                                end) by (destruct (groupErr w); by eexists).
        destruct (decide (c1 = c)) as [-> | Hne].
        -- rewrite list_lookup_insert_eq in Hc0 by (by eapply lookup_lt_Some).
           injection Hc0 as <-.
           split_and!; [done | congruence |].
           exists srv, cause. split; [congruence | done].
        -- rewrite list_lookup_insert_ne in Hc0 by done.
           destruct (H3 c1 e1 Hc0) as (_ & ? & ?). done.
      * intros _. by apply group_finish.
    + by eapply errInv_update.
  - injection Hstep as <-. by eapply errInv_update.
  - injection Hstep as <-. by eapply errInv_update.
  - destruct (removeConn (mem w)) as [m' |] eqn:Hrem; injection Hstep as <-;
      [| exact Hinv].
    apply errInv_finish_none. by eapply errInv_update.
Qed.

Lemma errInv_step (t0 : SSHTun) (w w' : World) (a : Action) :
  runInv t0 w -> errInv t0 w -> step w a = Some w' -> errInv t0 w'.
Proof.
  intros (Hlc & Hctx & Hli) Hinv Hstep. unfold step in Hstep.
  destruct (crashed w) eqn:Hcr; [done |].
  destruct a;
    try (by eapply errInv_main);
    try (by eapply errInv_listen);
    try (by eapply errInv_accept);
    try (by eapply errInv_handler).
  - unfold Stop in Hstep. inv_step Hstep; exact Hinv.
  - injection Hstep as <-. exact Hinv.
Qed.

(** ** Connection callbacks *)

Lemma connInv_ext (w w' : World) (ext : list Event) :
  connInv w -> handlers w' = handlers w ->
  trace (mem w') = trace (mem w) ++ ext ->
  Forall (fun e => isTunneled e = false) ext ->
  connInv w'.
Proof.
  unfold connInv. intros H Hh Htr Hext f st. rewrite Hh, Htr, elem_of_app.
  intros [Hin | Hin]; [exact (H f st Hin) |].
  rewrite Forall_forall in Hext. apply Hext in Hin. done.
Qed.

Lemma connInv_same (w w' : World) :
  connInv w -> handlers w' = handlers w -> trace (mem w') = trace (mem w) ->
  connInv w'.
Proof.
  intros H Hh Htr. apply (connInv_ext w w' []); try done. by rewrite app_nil_r.
Qed.

Lemma stepMain_trace (a : Action) (w w' : World) :
  stepMain a w = Some w' ->
  handlers w' = handlers w /\
  exists ext, trace (mem w') = trace (mem w) ++ ext /\
              Forall (fun e => isTunneled e = false) ext.
Proof.
  intros Hstep.
  unfold stepMain, startLock, stopLock, stopNotify, notifyConnState,
    withCancel in Hstep.
  inv_step Hstep; (split; [done |]); simpl.
  all: first [ by (exists []; rewrite app_nil_r)
             | by (eexists [_]; split; [reflexivity | by repeat constructor]) ].
Qed.

Lemma connInv_update (w : World) (c : nat) (pc pc' : HandlerPc) (m' : Mem)
    (ext : list Event) :
  connInv w -> handlers w !! c = Some pc ->
  trace m' = trace (mem w) ++ ext ->
  (goodPc pc -> goodPc pc') ->
  Forall (fun e => isTunneled e = false \/ (eventOf c e /\ goodPc pc')) ext ->
  connInv (with_handlers (<[c := pc']> (handlers w)) (with_mem m' w)).
Proof.
  unfold connInv. intros H Hc Htr Hg Hext f st. simpl.
  rewrite Htr, elem_of_app.
  intros [Hin | Hin].
  - destruct (decide (tcsConn st = c)) as [Heq | Hne].
    + specialize (H f st Hin). rewrite Heq in *.
      rewrite list_lookup_insert_eq by (by eapply lookup_lt_Some).
      assert (Hgood : goodPc pc).
      { unfold goodPc.
        destruct H as [H | [H | H]];
          pose proof (eq_trans (eq_sym Hc) H) as [= ->]; auto. }
      destruct (Hg Hgood) as [-> | [-> | ->]]; auto.
    + rewrite list_lookup_insert_ne by done. exact (H f st Hin).
  - rewrite Forall_forall in Hext. apply Hext in Hin as [Hin | [Hin Hgood]];
      [done |].
    destruct Hin as (f' & st' & [= <- <-] & Heq). rewrite Heq.
    rewrite list_lookup_insert_eq by (by eapply lookup_lt_Some).
    destruct Hgood as [-> | [-> | ->]]; auto.
Qed.

Lemma connInv_finish (r : option error) (w : World) :
  connInv w -> connInv (finishTask r w).
Proof.
  intros H. eapply connInv_same; [exact H | ..].
  - apply finishTask_handlers.
  - apply finishTask_trace.
Qed.

Lemma connInv_handler (c : Conn) (a : Action) (w w' : World) :
  connInv w -> stepHandler c a w = Some w' -> connInv w'.
Proof.
  intros Hinv Hstep. unfold stepHandler in Hstep.
  destruct (handlers w !! c) as [pc |] eqn:Hh; [| done].
  destruct pc, a; try done.
  - destruct (addConn dial (mem w)) as [[m' [e |]] |] eqn:Hadd;
      injection Hstep as <-; [| | exact Hinv].
    + apply addConn_memStep in Hadd as (ext & (Htr & _) & Hext).
      apply connInv_finish. eapply connInv_update; eauto.
      * intros [? | [? | ?]]; done.
      * eapply Forall_impl; [exact Hext |]. intros; by left.
    + apply addConn_memStep in Hadd as (ext & (Htr & _) & Hext).
      eapply connInv_update; eauto.
      * intros [? | [? | ?]]; done.
      * eapply Forall_impl; [exact Hext |]. intros; by left.
  - injection Hstep as <-.
    destruct (forwardBegin_memStep c (mem w)) as (ext & (Htr & _) & Hext).
    eapply connInv_update; eauto.
    + intros _. by left.
    + eapply Forall_impl; [exact Hext |]. intros; right; split; [done | by left].
  - injection Hstep as <-.
    destruct (forwardEnd_memStep c err (mem w)) as (ext & (Htr & _) & Hext).
    eapply connInv_update; eauto.
    + intros _. right; by left.
    + eapply Forall_impl; [exact Hext |].
      intros; right; split; [done | right; by left].
  - destruct (removeConn (mem w)) as [m' |] eqn:Hrem; injection Hstep as <-;
      [| exact Hinv].
    apply removeConn_memStep in Hrem as (ext & (Htr & _) & Hext).
    apply connInv_finish. eapply connInv_update; eauto.
    + intros _. right; by right.
    + eapply Forall_impl; [exact Hext |]. intros; by left.
Qed.

Lemma connInv_step (w w' : World) (a : Action) :
  connInv w -> step w a = Some w' -> connInv w'.
Proof.
  intros Hinv Hstep. unfold step in Hstep.
  destruct (crashed w) eqn:Hcr; [done |].
  destruct a;
    try (by eapply connInv_handler);
    try (apply stepMain_trace in Hstep as (Hh & ext & Htr & Hext);
         by eapply connInv_ext).
  - (* ListenStep *)
    unfold stepListen, Errgroup.WithContext, Errgroup.Wait, withCancel in Hstep.
    inv_step Hstep; by apply (connInv_same w).
  - (* Accept *)
    unfold stepAccept in Hstep. inv_step Hstep;
      try (by apply (connInv_same w));
      try (apply connInv_finish; by apply (connInv_same w)).
    unfold connInv in *. simpl. intros f st Hin.
    destruct (Hinv f st Hin) as [H | [H | H]];
      [left | right; left | right; right]; by apply lookup_app_l_Some.
  - unfold Stop in Hstep. inv_step Hstep; exact Hinv.
  - injection Hstep as <-. exact Hinv.
Qed.

(** ** Cancellation before listen looks *)

Lemma tunCtxDone_finish (r : option error) (w : World) :
  tunCtxDone (mem w) = true -> tunCtxDone (mem (finishTask r w)) = true.
Proof.
  unfold finishTask, Errgroup.finish.
  destruct (group w) as [g |]; [| done].
  destruct r as [e |], (Errgroup.gErr g) as [e' |]; simpl; try done.
  apply tunCtxDone_store. intros ?. apply ctxDone_callCancel.
Qed.

Lemma cancelledEarly_mono (w w' : World) :
  cancelledEarly w ->
  mainPc w' = mainPc w -> listenPc w' = listenPc w ->
  (tunCtxDone (mem w) = true -> tunCtxDone (mem w') = true) ->
  cancelledEarly w'.
Proof.
  unfold cancelledEarly. intros (Hd & Hm & Hl) Hpc Hlpc Hmono.
  rewrite Hpc, Hlpc. auto.
Qed.

Lemma cancelledEarly_finish (r : option error) (w : World) :
  cancelledEarly w -> cancelledEarly (finishTask r w).
Proof.
  intros H. eapply cancelledEarly_mono; [exact H | ..].
  - apply finishTask_mainPc.
  - apply finishTask_listenPc.
  - apply tunCtxDone_finish.
Qed.

Lemma cancelledEarly_memStep (w w' : World) (ext : list Event) :
  cancelledEarly w ->
  mainPc w' = mainPc w -> listenPc w' = listenPc w ->
  memStep (mem w) (mem w') ext ->
  cancelledEarly w'.
Proof.
  intros H Hm Hl Hms. eapply cancelledEarly_mono; eauto.
  by rewrite (tunCtxDone_memStep _ _ _ Hms).
Qed.

Lemma cancelledEarly_main (w w' : World) (a : Action) :
  listenInv w -> cancelledEarly w -> stepMain a w = Some w' -> cancelledEarly w'.
Proof.
  intros (Ha & _) (Hd & Hm & Hl) Hstep.
  destruct w as [[t s tr] pc lpc g l lc apc hs cr].
  unfold tunCtxDone in *. simpl in *.
  unfold stepMain, stopLock, stopNotify, notifyConnState, initSSHConfig in Hstep.
  destruct pc; destruct a; try done; simpl in Hstep.
  all: inv_step Hstep.
  all: unfold cancelledEarly, tunCtxDone; simpl.
  all: split_and!; try done.
  all: destruct lpc; try done.
Qed.

Lemma cancelledEarly_listen (w w' : World) :
  cancelledEarly w -> stepListen w = Some w' -> cancelledEarly w'.
Proof.
  intros (Hd & Hm & Hl) Hstep.
  destruct w as [[t s tr] pc lpc g l lc apc hs cr].
  unfold tunCtxDone in *. simpl in *.
  unfold stepListen, Errgroup.WithContext, Errgroup.Wait, withCancel in Hstep.
  destruct lpc; try done; simpl in Hstep.
  all: destruct (ctx t) as [c |] eqn:Hc; try done.
  all: inv_step Hstep.
  all: unfold cancelledEarly, tunCtxDone; simpl; rewrite ?Hc.
  all: split_and!; try done; try congruence.
  all: try (by apply ctxDone_callCancel).
  rewrite <- Hd. exact (ctxDone_withCancel s c c).
Qed.

Lemma cancelledEarly_handler (c : Conn) (a : Action) (w w' : World) :
  cancelledEarly w -> stepHandler c a w = Some w' -> cancelledEarly w'.
Proof.
  intros Hinv Hstep. unfold stepHandler in Hstep.
  destruct (handlers w !! c) as [pc |] eqn:Hh; [| done].
  destruct pc, a; try done.
  - destruct (addConn dial (mem w)) as [[m' [e |]] |] eqn:Hadd;
      injection Hstep as <-; [| | exact Hinv].
    + apply addConn_memStep in Hadd as (ext & Hms & _).
      apply cancelledEarly_finish. by eapply cancelledEarly_memStep.
    + apply addConn_memStep in Hadd as (ext & Hms & _).
      by eapply cancelledEarly_memStep.
  - injection Hstep as <-.
    destruct (forwardBegin_memStep c (mem w)) as (ext & Hms & _).
    by eapply cancelledEarly_memStep.
  - injection Hstep as <-.
    destruct (forwardEnd_memStep c err (mem w)) as (ext & Hms & _).
    by eapply cancelledEarly_memStep.
  - destruct (removeConn (mem w)) as [m' |] eqn:Hrem; injection Hstep as <-;
      [| exact Hinv].
    apply removeConn_memStep in Hrem as (ext & Hms & _).
    apply cancelledEarly_finish. by eapply cancelledEarly_memStep.
Qed.

Lemma cancelledEarly_step (w w' : World) (a : Action) :
  listenInv w -> cancelledEarly w -> step w a = Some w' -> cancelledEarly w'.
Proof.
  intros Hli Hinv Hstep. unfold step in Hstep.
  destruct (crashed w) eqn:Hcr; [done |].
  destruct a;
    try (by eapply cancelledEarly_main);
    try (by eapply cancelledEarly_listen);
    try (by eapply cancelledEarly_handler).
  - (* Accept *)
    unfold stepAccept in Hstep. inv_step Hstep;
      try exact Hinv; try (by apply cancelledEarly_finish).
  - unfold Stop in Hstep. inv_step Hstep; try exact Hinv.
    eapply cancelledEarly_mono; [exact Hinv | ..]; try done.
    simpl. apply tunCtxDone_store. intros ?. apply ctxDone_callCancel.
  - injection Hstep as <-.
    eapply cancelledEarly_mono; [exact Hinv | ..]; try done.
    simpl. apply tunCtxDone_store. intros ?. apply ctxDone_cancelCaller.
Qed.

Lemma fullInv_step (t0 : SSHTun) (w w' : World) (a : Action) :
  fullInv t0 w -> step w a = Some w' -> fullInv t0 w'.
Proof.
  intros (H1 & H2 & H3) Hstep. split; [| split].
  - by eapply runInv_step.
  - by eapply errInv_step.
  - by eapply connInv_step.
Qed.

Lemma fullInv_run (t0 : SSHTun) (k : nat) (sched : list Action) (w : World) :
  started t0 = false ->
  run (initWorld t0 k) sched = Some w -> fullInv t0 w.
Proof.
  intros Hs Hrun.
  eapply (run_invariant (fullInv t0)); [| | exact Hrun].
  - intros. by eapply fullInv_step.
  - split; [by apply runInv_init | split].
    + unfold errInv, groupErr, initWorld. simpl. split_and!; try done.
      intros [? | ?]; done.
    + unfold connInv, initWorld. simpl. intros f st Hin.
      by apply elem_of_nil in Hin.
Qed.

(** From a state where the context of the tunnel is done before [listen]
    has looked at it, every run keeps [cancelledEarly]. *)
Lemma cancelledEarly_run (t0 : SSHTun) (sched : list Action) (w w' : World) :
  fullInv t0 w -> cancelledEarly w -> run w sched = Some w' ->
  cancelledEarly w'.
Proof.
  intros Hf Hc Hrun.
  assert (H : fullInv t0 w' /\ cancelledEarly w'); [| by destruct H].
  eapply (run_invariant (fun w => fullInv t0 w /\ cancelledEarly w));
    [| split; [exact Hf | exact Hc] | exact Hrun].
  intros w1 a w2 [Hf1 Hc1] Hstep. split.
  - by eapply fullInv_step.
  - destruct Hf1 as ((_ & _ & Hli) & _). by eapply cancelledEarly_step.
Qed.

(** ** What Start returns after the accept phase *)

Lemma run_app (s1 s2 : list Action) (w : World) :
  run w (s1 ++ s2) = match run w s1 with Some w1 => run w1 s2 | None => None end.
Proof.
  revert w. induction s1 as [| a s1 IH]; intros w; simpl; [done |].
  destruct (step w a); [apply IH | done].
Qed.

Lemma fullInv_continue (t0 : SSHTun) (sched : list Action) (w w' : World) :
  fullInv t0 w -> run w sched = Some w' -> fullInv t0 w'.
Proof.
  intros Hf Hrun.
  eapply (run_invariant (fullInv t0)); [| exact Hf | exact Hrun].
  intros. by eapply fullInv_step.
Qed.

(** What a [Start] that reached the accept phase has returned. *)
Lemma returned_resultOk (t0 : SSHTun) (w : World) (r : option error) :
  fullInv t0 w -> returned w = Some r -> launched w = true ->
  listenPc w = LExit /\ resultOk w r.
Proof.
  intros ((_ & _ & Ha & Hb) & _) Hret Hl.
  unfold returned in Hret. destruct (mainPc w) eqn:Hpc; try done.
  injection Hret as ->.
  destruct Ha as [Ha | Ha]; [unfold launched in Hl; by rewrite Ha in Hl |].
  split; [done |]. by rewrite Ha in Hb.
Qed.

(** C2, amended.  A [Start] that reached the accept phase returns what
    [listen] decided when it looked at the context of the tunnel, after the
    accept loop and every handler had returned.  It returns nil only if that
    context is done (cancelled by [Stop] or through the context given to
    [Start]); if the context is not done when [Start] returns, the result is
    the error recorded by the group, which is not nil and is the error of
    the accept loop or of a handler; if the context was done at any moment
    before [listen] looked, the result is nil; and when the accept loop
    failed, no handler failed and the context is not done, the result is
    the wrapped accept error. *)
Theorem Start_result_after_accept (t0 : SSHTun) (k : nat)
    (s1 s2 : list Action) (w1 w : World) (r : option error) :
  started t0 = false ->
  run (initWorld t0 k) s1 = Some w1 ->
  run w1 s2 = Some w ->
  returned w = Some r ->
  launched w = true ->
  (r = None -> tunCtxDone (mem w) = true) /\
  (tunCtxDone (mem w) = false ->
   exists e, r = Some e /\ groupErr w = Some e /\
     (acceptPc w = AReturned e \/
      exists c, handlers w !! c = Some (HReturned (Some e)))) /\
  (tunCtxDone (mem w1) = true -> entered w1 = true -> beforeSelect w1 = true ->
   r = None) /\
  (forall err, tunCtxDone (mem w) = false -> acceptPc w = AReturned err ->
     (forall (c : nat) e, handlers w !! c <> Some (HReturned (Some e))) ->
     r = Some err /\
     exists ep cause, fromEndpoint t0 = Some ep /\ err = acceptError t0 ep cause).
Proof.
  intros Hs Hrun1 Hrun2 Hret Hl.
  pose proof (fullInv_run t0 k s1 w1 Hs Hrun1) as Hf1.
  pose proof (fullInv_continue t0 s2 w1 w Hf1 Hrun2) as Hf.
  destruct (returned_resultOk t0 w r Hf Hret Hl) as [Hexit Hres].
  assert (Hb : tunCtxDone (mem w) = false ->
               exists e, r = Some e /\ groupErr w = Some e /\
                 (acceptPc w = AReturned e \/
                  exists c, handlers w !! c = Some (HReturned (Some e)))).
  { intros Hnd. destruct Hres as [[_ Hd] | [[e ->] He]]; [congruence |].
    exists e. destruct Hf as (_ & (H1 & _) & _). split_and!; auto. }
  split_and!.
  - intros ->. destruct Hres as [[_ Hd] | [[e He] _]]; done.
  - exact Hb.
  - intros Hd He Hbs.
    assert (Hce : cancelledEarly w1).
    { unfold cancelledEarly, entered, beforeSelect in *. split_and!; try done.
      - by destruct (mainPc w1).
      - by destruct (listenPc w1). }
    pose proof (cancelledEarly_run t0 s2 w1 w Hf1 Hce Hrun2) as (_ & _ & Hc).
    rewrite Hexit in Hc. unfold returned in Hret.
    destruct (mainPc w); try done. by injection Hret as ->.
  - intros err Hnd Ha Hh. destruct (Hb Hnd) as (e & -> & He & Hsrc).
    destruct Hf as (_ & (_ & H2 & _) & _).
    destruct Hsrc as [Hsrc | [c Hc]]; [| by destruct (Hh c e)].
    rewrite Ha in Hsrc. injection Hsrc as ->. split; [done |].
    by destruct (H2 e Ha).
Qed.

Lemma Start_result_after_accept_witness :
  exists e,
    returned (exampleRun (acceptFails ++ unwind ++ wrapUp)) = Some (Some e) /\
    groupErr (exampleRun (acceptFails ++ unwind ++ wrapUp)) = Some e.
Proof.
  assert (H1 : run (initWorld exampleTun 0) acceptFails
               = Some (exampleRun acceptFails)) by (vm_compute; reflexivity).
  assert (H2 : run (exampleRun acceptFails) (unwind ++ wrapUp)
               = Some (exampleRun (acceptFails ++ unwind ++ wrapUp)))
    by (vm_compute; reflexivity).
  assert (H3 : returned (exampleRun (acceptFails ++ unwind ++ wrapUp))
               = Some (Some (acceptError exampleTun
                               (NewTCPEndpoint "localhost" 8080) socketError)))
    by (vm_compute; reflexivity).
  assert (H4 : launched (exampleRun (acceptFails ++ unwind ++ wrapUp)) = true)
    by (vm_compute; reflexivity).
  assert (H5 : tunCtxDone (mem (exampleRun (acceptFails ++ unwind ++ wrapUp)))
               = false) by (vm_compute; reflexivity).
  destruct (Start_result_after_accept exampleTun 0 acceptFails
              (unwind ++ wrapUp) _ _ _ eq_refl H1 H2 H3 H4) as (_ & Hb & _).
  destruct (Hb H5) as (e & He & Hg & _).
  exists e. split; [by rewrite H3, He | exact Hg].
Defined.

(** C2 as stated fails: [Accept] fails on the open listener while the
    context of the tunnel is not cancelled, which ends the accept loop; a
    [Stop] that comes after [listen] has waited for the tasks, and before it
    looks at the context, makes [Start] return nil. *)
Lemma accept_failure_then_Stop_returns_nil :
  run (initWorld exampleTun 0) acceptFails = Some (exampleRun acceptFails) /\
  acceptPc (exampleRun acceptFails)
  = AReturned (acceptError exampleTun (NewTCPEndpoint "localhost" 8080)
                 socketError) /\
  tunCtxDone (mem (exampleRun acceptFails)) = false /\
  listenerClosed (exampleRun acceptFails) = false /\
  run (exampleRun acceptFails) (unwind ++ [CallStop] ++ wrapUp)
  = Some (exampleRun (acceptFails ++ unwind ++ [CallStop] ++ wrapUp)) /\
  returned (exampleRun (acceptFails ++ unwind ++ [CallStop] ++ wrapUp))
  = Some None.
Proof. vm_compute. split_and!; reflexivity. Qed.

(** ** Stop during a run *)

(** In a run of [Start] on a tunnel that was not started, a call of [Stop]
    never panics: once the flag is set the cancel function is set too. *)
Lemma Stop_returns_in_run (t0 : SSHTun) (k : nat) (sched : list Action)
    (w : World) :
  started t0 = false ->
  run (initWorld t0 k) sched = Some w ->
  exists m', Stop (mem w) = Done m'.
Proof.
  intros Hs Hrun.
  pose proof (fullInv_run t0 k sched w Hs Hrun)
    as (((_ & _ & Hpc) & (_ & Hc & _) & _) & _).
  unfold Stop. destruct (started (tun (mem w))) eqn:E; [| by eexists].
  destruct (mainPc w); destruct_and?; try congruence;
    destruct Hc as (par & f & _ & -> & _); by eexists.
Qed.

(** ** The tasks of the group *)

Lemma howMany_app p a b : howMany p (a ++ b) = (howMany p a + howMany p b)%nat.
Proof. unfold howMany. by rewrite filter_app, length_app. Qed.

Lemma howMany_insert p (hs : list HandlerPc) (c : nat) pc pc' :
  hs !! c = Some pc ->
  (howMany p (<[c := pc']> hs) + (if p pc then 1 else 0)
   = howMany p hs + (if p pc' then 1 else 0))%nat.
Proof.
  unfold howMany. revert c. induction hs as [| h hs IH]; intros c Hc; [done |].
  destruct c as [| c]; simpl in *.
  - injection Hc as ->. rewrite !filter_cons.
    destruct (decide (p pc = true)) as [-> | Hn], (decide (p pc' = true)) as [-> | Hn'];
      simpl; try lia.
    + apply not_true_is_false in Hn'. rewrite Hn'. lia.
    + apply not_true_is_false in Hn. rewrite Hn. lia.
    + apply not_true_is_false in Hn. apply not_true_is_false in Hn'.
      rewrite Hn, Hn'. lia.
  - rewrite !filter_cons. specialize (IH c Hc).
    destruct (decide (p h = true)); simpl; lia.
Qed.

Lemma howMany_zero p (hs : list HandlerPc) (c : nat) pc :
  howMany p hs = 0%nat -> hs !! c = Some pc -> p pc = false.
Proof.
  unfold howMany. revert c. induction hs as [| h hs IH]; intros c H0 Hc; [done |].
  rewrite filter_cons in H0.
  destruct (decide (p h = true)) as [Hp | Hp]; [done |].
  destruct c as [| c]; simpl in Hc.
  - injection Hc as <-. by apply not_true_is_false.
  - by eapply IH.
Qed.

Lemma howMany_le p (hs : list HandlerPc) : (howMany p hs <= length hs)%nat.
Proof. unfold howMany. apply length_filter. Qed.

Lemma pending_zero (hs : list HandlerPc) (c : nat) (pc : HandlerPc) :
  pending hs = 0%nat -> hs !! c = Some pc -> isReturned pc = true.
Proof.
  intros H0 Hc. apply (howMany_zero _ _ _ _ H0) in Hc.
  by apply negb_false_iff in Hc.
Qed.

Lemma pending_all (hs : list HandlerPc) :
  pending hs = 0%nat <->
  forall (c : nat) pc, hs !! c = Some pc -> isReturned pc = true.
Proof.
  split.
  - intros H c pc Hc. by eapply pending_zero.
  - intros H. unfold pending, howMany.
    induction hs as [| h hs IH]; [done |].
    rewrite filter_cons.
    pose proof (H 0%nat h eq_refl) as Hh.
    destruct (decide (negb (isReturned h) = true)) as [Hn | _].
    + rewrite Hh in Hn. done.
    + apply IH. intros c pc Hc. exact (H (S c) pc Hc).
Qed.

Lemma pending_some (hs : list HandlerPc) :
  pending hs <> 0%nat ->
  exists (c : nat) pc, hs !! c = Some pc /\ isReturned pc = false.
Proof.
  unfold pending, howMany. induction hs as [| h hs IH]; [done |].
  rewrite filter_cons.
  destruct (decide (negb (isReturned h) = true)) as [Hn | Hn].
  - intros _. exists 0%nat, h. split; [done |]. by apply negb_true_iff.
  - intros Hp. destruct (IH Hp) as (c & pc & Hc & Hpc).
    by exists (S c), pc.
Qed.

Lemma inFlight_insert (hs : list HandlerPc) (c : nat) (pc pc' : HandlerPc) :
  hs !! c = Some pc ->
  (inFlight (<[c := pc']> hs) + (if holdsConn pc then 1 else 0)
   = inFlight hs + (if holdsConn pc' then 1 else 0))%nat.
Proof. apply howMany_insert. Qed.

Lemma inFlight_pending (hs : list HandlerPc) : (inFlight hs <= pending hs)%nat.
Proof.
  unfold inFlight, pending, howMany.
  induction hs as [| h hs IH]; [done |].
  rewrite !filter_cons.
  destruct (decide (holdsConn h = true)) as [H1 | H1],
           (decide (negb (isReturned h) = true)) as [H2 | H2]; simpl; try lia.
  destruct h; done.
Qed.

(** More of what [finishTask] leaves alone. *)
Lemma finishTask_crashed r w : crashed (finishTask r w) = crashed w.
Proof.
  unfold finishTask. destruct (group w); [| done].
  by destruct (Errgroup.finish _ _ _).
Qed.

Lemma finishTask_listener r w : listener (finishTask r w) = listener w.
Proof.
  unfold finishTask. destruct (group w); [| done].
  by destruct (Errgroup.finish _ _ _).
Qed.

Lemma finishTask_closed r w : listenerClosed (finishTask r w) = listenerClosed w.
Proof.
  unfold finishTask. destruct (group w); [| done].
  by destruct (Errgroup.finish _ _ _).
Qed.

Lemma running_finish r w : running (finishTask r w) = Nat.pred <$> running w.
Proof.
  unfold running, finishTask, Errgroup.finish.
  destruct (group w) as [g |] eqn:Hg; [| by rewrite Hg].
  destruct r, (Errgroup.gErr g); reflexivity.
Qed.

Lemma stepHandler_pcs (c : Conn) (a : Action) (w w' : World) :
  stepHandler c a w = Some w' ->
  mainPc w' = mainPc w /\ listenPc w' = listenPc w /\ listener w' = listener w.
Proof.
  intros Hstep. unfold stepHandler in Hstep.
  inv_step Hstep; rewrite ?finishTask_listener; finish_proj; done.
Qed.

Lemma joinInv_frame (w w' : World) :
  joinInv w ->
  running w' = running w -> acceptPc w' = acceptPc w -> handlers w' = handlers w ->
  (pastWait (listenPc w') = true -> pastWait (listenPc w) = true) ->
  joinInv w'.
Proof.
  unfold joinInv. intros [H1 H2] Hr Ha Hh Hp. rewrite Hr, Ha, Hh. split; [done |].
  intros H. auto.
Qed.

Lemma joinInv_main (w w' : World) (a : Action) :
  joinInv w -> stepMain a w = Some w' -> joinInv w'.
Proof.
  intros Hinv Hstep. unfold stepMain in Hstep.
  inv_step Hstep; apply (joinInv_frame w); try done.
  all: try (intros _; by match goal with H : listenPc _ = _ |- _ => rewrite H end).
Qed.

Lemma joinInv_listen (t0 : SSHTun) (w w' : World) :
  fullInv t0 w -> joinInv w -> stepListen w = Some w' -> joinInv w'.
Proof.
  intros ((_ & _ & _ & Hli) & (_ & _ & _ & H4) & _) Hinv Hstep.
  unfold stepListen, Errgroup.WithContext, Errgroup.Wait, withCancel in Hstep.
  destruct (listenPc w) eqn:Hpc; try done; inv_step Hstep;
    try (apply (joinInv_frame w); try done; simpl; by rewrite ?Hpc).
  - (* LInit *)
    assert (Hh : handlers w = []).
    { destruct (handlers w) eqn:E; [done |].
      destruct H4 as [? ?]; [by left | congruence]. }
    unfold joinInv, running. simpl. rewrite Hh. done.
  - (* LWait *)
    destruct Hinv as [H1 _]. unfold joinInv, running in *. simpl.
    match goal with H : group w = Some _ |- _ => rewrite H in *; simpl in * end.
    split; [done |]. intros _. congruence.
Qed.

Lemma joinInv_accept (r : option error) (w w' : World) :
  joinInv w -> stepAccept r w = Some w' -> joinInv w'.
Proof.
  intros [H1 H2] Hstep. unfold stepAccept in Hstep.
  destruct (acceptPc w) eqn:Hpc; try done.
  inv_step Hstep;
    try (unfold joinInv; change (acceptPc (crash w)) with (acceptPc w);
         rewrite Hpc; exact (conj H1 H2)).
  - (* the accept fails *)
    unfold joinInv. rewrite running_finish. finish_proj. simpl.
    change (running (with_accept _ w)) with (running w).
    destruct (running w) as [n |]; simpl; [| split; [done |]; auto].
    destruct H1 as [-> _]. split; [done |].
    intros Hp. specialize (H2 Hp). simplify_eq.
  - unfold joinInv. rewrite running_finish. finish_proj. simpl.
    change (running (with_accept _ w)) with (running w).
    destruct (running w) as [n |]; simpl; [| split; [done |]; auto].
    destruct H1 as [-> _]. split; [done |].
    intros Hp. specialize (H2 Hp). simplify_eq.
  - (* a connection arrives *)
    unfold joinInv, running in *. simpl. rewrite Hpc.
    destruct (group w) as [g |]; simpl in *; [| split; [done |]; auto].
    destruct H1 as [H1 _]. rewrite H1. unfold pending. rewrite howMany_app.
    split; [split; [unfold howMany; simpl; lia | done] |].
    intros Hp. specialize (H2 Hp). injection H2 as H2. lia.
Qed.

Lemma joinInv_update (w : World) (c : nat) (pc pc' : HandlerPc) (m' : Mem) :
  joinInv w -> handlers w !! c = Some pc ->
  isReturned pc = false -> isReturned pc' = false ->
  joinInv (with_handlers (<[c := pc']> (handlers w)) (with_mem m' w)).
Proof.
  intros [H1 H2] Hc Hpc Hpc'. unfold joinInv.
  change (running (with_handlers _ _)) with (running w). simpl.
  pose proof (howMany_insert (fun pc => negb (isReturned pc)) _ _ _ pc' Hc) as Hi.
  cbv beta in Hi. rewrite Hpc, Hpc' in Hi. simpl in Hi.
  assert (Hp : pending (<[c:=pc']> (handlers w)) = pending (handlers w))
    by (unfold pending; lia).
  rewrite Hp. done.
Qed.

Lemma joinInv_return (w : World) (c : nat) (pc : HandlerPc) (m' : Mem)
    (r : option error) :
  joinInv w -> handlers w !! c = Some pc -> isReturned pc = false ->
  joinInv (finishTask r
             (with_handlers (<[c := HReturned r]> (handlers w)) (with_mem m' w))).
Proof.
  intros [H1 H2] Hc Hpc. unfold joinInv. rewrite running_finish. finish_proj.
  change (running (with_handlers _ _)) with (running w). simpl.
  pose proof (howMany_insert (fun pc => negb (isReturned pc)) _ _ _
                (HReturned r) Hc) as Hi.
  cbv beta in Hi. rewrite Hpc in Hi. simpl in Hi. fold (pending (handlers w)) in Hi.
  fold (pending (<[c:=HReturned r]> (handlers w))) in Hi.
  destruct (running w) as [n |]; simpl; [| split; [done |]; auto].
  destruct H1 as [-> Ha]. split; [split; [lia | done] |].
  intros Hp. specialize (H2 Hp). injection H2 as H2. f_equal. lia.
Qed.

Lemma joinInv_handler (c : Conn) (a : Action) (w w' : World) :
  joinInv w -> stepHandler c a w = Some w' -> joinInv w'.
Proof.
  intros Hinv Hstep. unfold stepHandler in Hstep.
  destruct (handlers w !! c) as [pc |] eqn:Hh; [| done].
  destruct pc, a; try done.
  - destruct (addConn dial (mem w)) as [[m' [e |]] |] eqn:Hadd;
      injection Hstep as <-; [| | exact Hinv].
    + by eapply joinInv_return.
    + by eapply joinInv_update.
  - injection Hstep as <-. by eapply joinInv_update.
  - injection Hstep as <-. by eapply joinInv_update.
  - destruct (removeConn (mem w)) as [m' |] eqn:Hrem; injection Hstep as <-;
      [| exact Hinv].
    by eapply joinInv_return.
Qed.

Lemma joinInv_step (t0 : SSHTun) (w w' : World) (a : Action) :
  fullInv t0 w -> joinInv w -> step w a = Some w' -> joinInv w'.
Proof.
  intros Hf Hinv Hstep. unfold step in Hstep.
  destruct (crashed w) eqn:Hcr; [done |].
  destruct a;
    try (by eapply joinInv_main);
    try (by eapply joinInv_listen);
    try (by eapply joinInv_accept);
    try (by eapply joinInv_handler).
  - unfold Stop in Hstep. inv_step Hstep; exact Hinv.
  - injection Hstep as <-. exact Hinv.
Qed.

Lemma joined_tasks (w : World) :
  joinInv w -> running w = Some 0%nat ->
  (exists e, acceptPc w = AReturned e) /\ pending (handlers w) = 0%nat.
Proof.
  intros [H1 _] Hr. rewrite Hr in H1. destruct H1 as [H1 Ha].
  destruct (acceptPc w) eqn:E; try done; try lia.
  split; [by eexists | lia].
Qed.

Lemma closeInv_step (t0 : SSHTun) (w w' : World) (a : Action) :
  lifecycle t0 w -> closeInv w -> step w a = Some w' -> closeInv w'.
Proof.
  unfold closeInv. intros (_ & _ & Hlc) Hinv Hstep. unfold step in Hstep.
  destruct (crashed w); [done |].
  assert (Hsp : forall l, mainPc w = MSpawn l -> listenPc w = LNone).
  { intros l Hl. rewrite Hl in Hlc. destruct Hlc as (_ & _ & Hla & _).
    unfold launched in Hla. by destruct (listenPc w). }
  clear Hlc.
  destruct a.
  1-5: unfold stepMain in Hstep; inv_step Hstep; simpl; try done;
       try (by match goal with H : listenPc _ = _ |- _ => rewrite H in Hinv end);
       by erewrite Hsp in Hinv.
  - unfold stepListen, Errgroup.WithContext, Errgroup.Wait, withCancel in Hstep.
    destruct (listenPc w) eqn:Hpc; try done; inv_step Hstep; simpl;
      rewrite ?Hpc; try done.
  - unfold stepAccept in Hstep.
    inv_step Hstep; rewrite ?finishTask_closed; finish_proj; simpl; congruence.
  - pose proof (stepHandler_pcs _ _ _ _ Hstep) as (_ & -> & _).
    unfold stepHandler in Hstep.
    inv_step Hstep; rewrite ?finishTask_closed; simpl; done.
  - pose proof (stepHandler_pcs _ _ _ _ Hstep) as (_ & -> & _).
    unfold stepHandler in Hstep.
    inv_step Hstep; rewrite ?finishTask_closed; simpl; done.
  - pose proof (stepHandler_pcs _ _ _ _ Hstep) as (_ & -> & _).
    unfold stepHandler in Hstep.
    inv_step Hstep; rewrite ?finishTask_closed; simpl; done.
  - unfold Stop in Hstep. inv_step Hstep; exact Hinv.
  - injection Hstep as <-. exact Hinv.
Qed.

Lemma joined_run (t0 : SSHTun) (k : nat) (sched : list Action) (w : World) :
  started t0 = false ->
  run (initWorld t0 k) sched = Some w ->
  fullInv t0 w /\ joinInv w /\ closeInv w.
Proof.
  intros Hs Hrun.
  eapply (run_invariant (fun w => fullInv t0 w /\ joinInv w /\ closeInv w));
    [| | exact Hrun].
  - intros w1 a w2 (H1 & H2 & H3) Hstep. split_and!.
    + by eapply fullInv_step.
    + by eapply joinInv_step.
    + destruct H1 as ((? & _) & _). by eapply closeInv_step.
  - split_and!; [by apply (fullInv_run t0 k []) | |]; done.
Qed.

(** ** The session pool in a run *)

Lemma count_app (p : Event -> bool) (a b : list Event) :
  count p (a ++ b) = (count p a + count p b)%nat.
Proof. unfold count. by rewrite filter_app, length_app. Qed.

Lemma count_none (p : Event -> bool) (ext : list Event) :
  Forall (fun e => p e = false) ext -> count p ext = 0%nat.
Proof.
  unfold count. induction 1 as [| e ext He _ IH]; [done |].
  rewrite filter_cons. destruct (decide (p e = true)); [congruence | done].
Qed.

Lemma addConn_pool (t0 : SSHTun) (h : nat) (d : result Client) (m : Mem) :
  forwardType (tun m) = forwardType t0 ->
  (forwardType t0 = Local -> is_Some (server (tun m))) ->
  Z.of_nat h < intMax ->
  poolAt t0 h m ->
  exists m' r, addConn d m = Done (m', r) /\
    poolAt t0 (match r with Some _ => h | None => S h end) m'.
Proof.
  intros Hf Hsrv Hmax [Ha Hp].
  assert (Hadd : add (Z.of_nat h) 1 = Z.of_nat (S h))
    by (rewrite add_one; unfold intMin; lia).
  unfold addConn. rewrite Hf, Ha.
  destruct (forwardType t0 =? Local) eqn:Hl; simpl.
  - apply Z.eqb_eq in Hl. destruct (Hsrv Hl) as [srv ->].
    destruct Hp as [Hc Hn].
    destruct h as [| h].
    + simpl. destruct d as [c | e]; eexists _, _; (split; [reflexivity |]).
      * unfold poolAt. simpl. rewrite Hl, Ha. simpl.
        rewrite count_app, (count_app isClose), !count_one. simpl.
        split_and!; [done | | lia]. split; [lia | by eexists].
      * unfold poolAt. simpl. rewrite Hl. simpl.
        rewrite count_app, (count_app isClose), !count_one. simpl.
        split_and!; [done | done | lia].
    + rewrite eqb_of_nat_S. cbv beta iota delta [andb].
      eexists _, _; (split; [reflexivity |]).
      unfold poolAt. cbn [tun with_tun set_active active sshClient trace].
      rewrite ?Hl, ?Ha, ?Hadd, ?Z.eqb_refl.
      split_and!; [done | | done]. split; [lia |]. intros _. apply Hc. lia.
  - eexists _, _; (split; [reflexivity |]).
    unfold poolAt. simpl. rewrite ?Hl, ?Ha, ?Hadd. done.
Qed.

Lemma removeConn_pool (t0 : SSHTun) (h : nat) (m : Mem) :
  forwardType (tun m) = forwardType t0 ->
  Z.of_nat (S h) <= intMax ->
  poolAt t0 (S h) m ->
  exists m', removeConn m = Done m' /\ poolAt t0 h m'.
Proof.
  intros Hf Hmax [Ha Hp].
  assert (Hsub : sub (Z.of_nat (S h)) 1 = Z.of_nat h)
    by (rewrite sub_one; unfold intMin, intMax in *; lia).
  unfold removeConn. simpl. rewrite Hf, Ha, Hsub.
  destruct (forwardType t0 =? Local) eqn:Hl; simpl.
  - destruct Hp as [Hc Hn]. destruct h as [| h].
    + simpl. destruct (proj2 Hc) as [c Hcl]; [lia |]. rewrite Hcl.
      eexists. split; [reflexivity |]. unfold poolAt. simpl. rewrite Hl. simpl.
      rewrite count_app, (count_app isClose), !count_one. simpl.
      split_and!; [done | | lia]. split; [intros [? ?]; done | lia].
    + rewrite eqb_of_nat_S. cbv beta iota delta [andb].
      eexists. split; [reflexivity |].
      unfold poolAt. cbn [tun with_tun set_active active sshClient trace].
      rewrite ?Hl, ?Z.eqb_refl.
      split_and!; [done | | done]. split; [lia |]. intros _. apply Hc. lia.
  - eexists. split; [reflexivity |]. unfold poolAt. simpl. rewrite Hl. done.
Qed.

Lemma poolAt_ext (t0 : SSHTun) (h : nat) (m m' : Mem) (ext : list Event) :
  poolAt t0 h m ->
  active (tun m') = active (tun m) -> sshClient (tun m') = sshClient (tun m) ->
  trace m' = trace m ++ ext -> Forall (noSession t0) ext ->
  poolAt t0 h m'.
Proof.
  unfold poolAt. intros [Ha Hp] Ha' Hc' Htr Hext.
  rewrite Ha', Hc', Htr, !count_app.
  assert (Hcl : count isClose ext = 0%nat).
  { apply count_none. eapply Forall_impl; [exact Hext |]. by intros e [? _]. }
  rewrite Hcl. split; [done |].
  destruct (forwardType t0 =? Local) eqn:Hl; [| by rewrite Nat.add_0_r].
  apply Z.eqb_eq in Hl.
  assert (Hop : count isOpen ext = 0%nat).
  { apply count_none. eapply Forall_impl; [exact Hext |]. intros e [_ ?]. auto. }
  rewrite Hop. destruct Hp as [? ->]. split; [done | lia].
Qed.

Lemma poolRun_frame (t0 : SSHTun) (n : nat) (w w' : World) (ext : list Event) :
  poolRun t0 (S n) w -> handlers w' = handlers w ->
  active (tun (mem w')) = active (tun (mem w)) ->
  sshClient (tun (mem w')) = sshClient (tun (mem w)) ->
  trace (mem w') = trace (mem w) ++ ext -> Forall (noSession t0) ext ->
  poolRun t0 n w'.
Proof.
  intros [Hb Hp] Hh Ha Hc Htr Hext. unfold poolRun. rewrite Hh.
  split; [lia |]. by eapply poolAt_ext.
Qed.

Lemma poolRun_same (t0 : SSHTun) (n : nat) (w w' : World) :
  poolRun t0 (S n) w -> handlers w' = handlers w ->
  tun (mem w') = tun (mem w) -> trace (mem w') = trace (mem w) ->
  poolRun t0 n w'.
Proof.
  intros H Hh Ht Htr. apply (poolRun_frame t0 n w w' []); try done.
  - by rewrite Ht.
  - by rewrite Ht.
  - by rewrite app_nil_r.
Qed.

Lemma poolRun_main (t0 : SSHTun) (n : nat) (w w' : World) (a : Action) :
  forwardType (tun (mem w)) = forwardType t0 ->
  poolRun t0 (S n) w -> stepMain a w = Some w' -> poolRun t0 n w'.
Proof.
  intros Hf Hinv Hstep.
  unfold stepMain, startLock, stopLock, stopNotify, notifyConnState,
    withCancel in Hstep.
  inv_step Hstep; try (by apply (poolRun_same t0 n w)).
  all: try (by apply (poolRun_frame t0 n w _ []);
              try done; simpl; rewrite ?app_nil_r).
  all: eapply (poolRun_frame t0 n w _ [_]); try done.
  all: repeat constructor; try done.
  all: intros Hl; eqb_facts; congruence.
Qed.

Lemma poolRun_listen (t0 : SSHTun) (n : nat) (w w' : World) :
  poolRun t0 (S n) w -> stepListen w = Some w' -> poolRun t0 n w'.
Proof.
  intros Hinv Hstep.
  unfold stepListen, Errgroup.WithContext, Errgroup.Wait, withCancel in Hstep.
  inv_step Hstep; by apply (poolRun_same t0 n w).
Qed.

Lemma poolRun_accept (t0 : SSHTun) (n : nat) (r : option error) (w w' : World) :
  poolRun t0 (S n) w -> stepAccept r w = Some w' -> poolRun t0 n w'.
Proof.
  intros Hinv Hstep. unfold stepAccept in Hstep.
  inv_step Hstep;
    try (by apply (poolRun_same t0 n w); finish_proj).
  destruct Hinv as [Hb Hp]. unfold poolRun, inFlight in *. simpl.
  rewrite length_app, howMany_app. simpl.
  split; [lia |]. unfold howMany at 2. simpl. by rewrite Nat.add_0_r.
Qed.

Lemma poolRun_handler (t0 : SSHTun) (n : nat) (c : Conn) (a : Action)
    (w w' : World) :
  forwardType (tun (mem w)) = forwardType t0 ->
  (forwardType t0 = Local -> is_Some (server (tun (mem w)))) ->
  poolRun t0 (S n) w -> stepHandler c a w = Some w' ->
  crashed w' = crashed w /\ poolRun t0 n w'.
Proof.
  intros Hf Hsrv [Hb Hp] Hstep. unfold stepHandler in Hstep.
  destruct (handlers w !! c) as [pc |] eqn:Hh; [| done].
  pose proof (howMany_le holdsConn (handlers w)) as Hle.
  fold (inFlight (handlers w)) in Hle.
  destruct pc, a; try done.
  - (* addConn *)
    destruct (addConn_pool t0 (inFlight (handlers w)) dial (mem w) Hf Hsrv)
      as (m' & r & Hadd & Hp'); [lia | done |].
    rewrite Hadd in Hstep.
    pose proof (inFlight_insert _ _ _ HForward Hh) as Hi1.
    pose proof (inFlight_insert _ _ _ (HReturned r) Hh) as Hi2.
    cbn [holdsConn] in Hi1, Hi2.
    destruct r as [e |]; injection Hstep as <-; (split; [by rewrite ?finishTask_crashed |]).
    + unfold poolRun. finish_proj. simpl. rewrite length_insert.
      split; [lia |].
      replace (inFlight (<[c:=HReturned (Some e)]> (handlers w)))
        with (inFlight (handlers w)) by (unfold Conn in *; lia).
      unfold poolAt in *. finish_proj. simpl. done.
    + unfold poolRun. simpl. rewrite length_insert. split; [lia |].
      replace (inFlight (<[c:=HForward]> (handlers w)))
        with (S (inFlight (handlers w))) by (unfold Conn in *; lia).
      done.
  - (* forward begins *)
    injection Hstep as <-. split; [done |].
    pose proof (inFlight_insert _ _ _ HCopy Hh) as Hi. cbn [holdsConn] in Hi.
    unfold poolRun. simpl. rewrite length_insert. split; [lia |].
    replace (inFlight (<[c:=HCopy]> (handlers w)))
      with (inFlight (handlers w)) by (unfold Conn in *; lia).
    unfold forwardBegin, notifyTunneledConnState.
    destruct (tunneledConnState (tun (mem w))); [| done].
    eapply (poolAt_ext t0 _ (mem w) _ [_]); try done.
    by repeat constructor.
  - (* forward ends *)
    injection Hstep as <-. split; [done |].
    pose proof (inFlight_insert _ _ _ HRemove Hh) as Hi. cbn [holdsConn] in Hi.
    unfold poolRun. simpl. rewrite length_insert. split; [lia |].
    replace (inFlight (<[c:=HRemove]> (handlers w)))
      with (inFlight (handlers w)) by (unfold Conn in *; lia).
    unfold forwardEnd, notifyTunneledConnState.
    destruct (tunneledConnState (tun (mem w))); [| done].
    eapply (poolAt_ext t0 _ (mem w) _ [_]); try done.
    by repeat constructor.
  - (* removeConn *)
    pose proof (inFlight_insert _ _ _ (HReturned None) Hh) as Hi. cbn [holdsConn] in Hi.
    destruct (inFlight (handlers w)) as [| h] eqn:Hin; [lia |].
    destruct (removeConn_pool t0 h (mem w) Hf) as (m' & Hrem & Hp');
      [lia | done |].
    rewrite Hrem in Hstep. injection Hstep as <-. split; [by rewrite ?finishTask_crashed |].
    unfold poolRun. finish_proj. simpl. rewrite length_insert.
    split; [lia |].
    replace (inFlight (<[c:=HReturned None]> (handlers w))) with h by (unfold Conn in *; lia).
    change (mem (finishTask None ?x)) with (mem (finishTask None x)).
    unfold poolAt in *. finish_proj. simpl. done.
Qed.

Lemma poolRun_step (t0 : SSHTun) (n : nat) (w w' : World) (a : Action) :
  (forwardType t0 = Local -> is_Some (server t0)) ->
  fullInv t0 w -> poolRun t0 (S n) w -> step w a = Some w' -> poolRun t0 n w'.
Proof.
  intros Hsrv (((Hcfg & _) & _) & _) Hinv Hstep. unfold step in Hstep.
  destruct (crashed w) eqn:Hcr; [done |].
  destruct Hcfg as (_ & _ & Hf & Hs & _).
  destruct a;
    try (by eapply poolRun_main);
    try (by eapply poolRun_listen);
    try (by eapply poolRun_accept);
    try (eapply poolRun_handler; [| | exact Hinv | exact Hstep];
         [done | by rewrite Hs]).
  - unfold Stop in Hstep. inv_step Hstep; by apply (poolRun_same t0 n w).
  - injection Hstep as <-. by apply (poolRun_same t0 n w).
Qed.

(** ** No goroutine panics *)

Lemma ready_endpoints (t0 t : SSHTun) :
  ready t0 -> sameConfig t0 t ->
  (forwardType t = Local \/ forwardType t = Remote) /\
  (forwardType t = Local -> is_Some (local t)) /\
  is_Some (server t) /\
  (forwardType t = Remote -> is_Some (remote t)) /\
  is_Some (fromEndpoint t).
Proof.
  intros (_ & _ & Hsrv & Hloc & Hrem & Hr) (_ & _ & Hf & Hs & Hl & Hrm).
  unfold fromEndpoint. rewrite Hf, Hs, Hl, Hrm.
  destruct Hr as [[-> _] | ->]; split_and!; auto.
Qed.

Lemma safe_main (t0 : SSHTun) (w w' : World) (a : Action) :
  ready t0 -> lifecycle t0 w ->
  safe w -> stepMain a w = Some w' -> safe w'.
Proof.
  intros Hr (Hcfg & _ & Hlc) [Hcr [Hm Hl]] Hstep.
  destruct (ready_endpoints t0 _ Hr Hcfg) as (Hft & Hloc & Hsrv & Hrem & _).
  assert (Hrl : forall c, mainPc w = MRemoteListen c ->
                          forwardType (tun (mem w)) = Remote).
  { intros c Hc. rewrite Hc in Hlc. destruct Hcfg as (_ & _ & -> & _).
    by destruct_and!. }
  clear Hlc.
  unfold stepMain, startLock, stopLock, stopNotify, notifyConnState,
    withCancel in Hstep.
  destruct (mainPc w) eqn:Hpc; destruct a; try done; inv_step Hstep.
  all: eqb_facts.
  all: try (destruct Hloc as [? ?]; [done | congruence]).
  all: try (destruct Hsrv as [? ?]; congruence).
  all: try (destruct Hrem as [? ?]; [by eapply Hrl | congruence]).
  all: try (destruct Hft; congruence).
  all: unfold safe, hasListener; simpl; rewrite ?Hpc; try done.
  all: try (split; [done |]; split; [done |];
            by match goal with H : listenPc _ = _ |- _ => rewrite H in Hl end).
Qed.

Lemma safe_listen (t0 : SSHTun) (w w' : World) :
  lifecycle t0 w -> ctxInv w -> safe w -> stepListen w = Some w' -> safe w'.
Proof.
  intros (_ & _ & Hlc) (_ & Hctx & _) [Hcr [Hm Hl]] Hstep.
  assert (Hc : launched w = true -> is_Some (ctx (tun (mem w)))).
  { intros Hla. destruct (mainPc w); destruct_and?; try congruence;
      destruct Hctx as (par & f & -> & _); by eexists. }
  unfold stepListen, Errgroup.WithContext, Errgroup.Wait, withCancel in Hstep.
  destruct (listenPc w) eqn:Hpc; try done; inv_step Hstep.
  all: try (destruct Hc as [? ?]; [by unfold launched; rewrite Hpc | congruence]).
  all: try (destruct Hl as [? ?]; congruence).
  all: unfold safe, hasListener; simpl; rewrite ?Hpc; try done.
  all: split_and!; try done; by eexists.
Qed.

Lemma safe_accept (t0 : SSHTun) (r : option error) (w w' : World) :
  ready t0 -> fullInv t0 w -> safe w -> stepAccept r w = Some w' -> safe w'.
Proof.
  intros Hr (((Hcfg & _) & _ & _ & Hli) & (_ & _ & _ & H4) & _) [Hcr [Hm Hl]]
    Hstep.
  destruct (ready_endpoints t0 _ Hr Hcfg) as (_ & _ & _ & _ & Hfrom).
  unfold stepAccept in Hstep.
  destruct (acceptPc w) eqn:Hpc; try done.
  assert (Hg : is_Some (group w)) by (apply H4; by right).
  assert (Hlis : is_Some (listener w)).
  { destruct (listenPc w); try done; rewrite Hli in Hg; by destruct Hg. }
  destruct Hlis as [l Hlis]. rewrite Hlis in Hstep.
  destruct Hfrom as [ep Hfrom]. rewrite Hfrom in Hstep.
  inv_step Hstep; unfold safe, hasListener;
    rewrite ?finishTask_crashed, ?finishTask_listener; finish_proj; done.
Qed.

Lemma safe_handler (t0 : SSHTun) (n : nat) (c : Conn) (a : Action)
    (w w' : World) :
  ready t0 -> fullInv t0 w -> poolRun t0 (S n) w -> safe w ->
  stepHandler c a w = Some w' -> safe w'.
Proof.
  intros Hr (((Hcfg & _) & _) & _) Hp [Hcr Hl] Hstep.
  destruct (ready_endpoints t0 _ Hr Hcfg) as (_ & _ & Hsrv & _).
  pose proof Hcfg as (_ & _ & Hf & _).
  destruct (poolRun_handler t0 n c a w w' Hf (fun _ => Hsrv) Hp Hstep)
    as [Hcr' _].
  split; [congruence |].
  apply stepHandler_pcs in Hstep as (Hm' & Hl' & Hli').
  unfold hasListener. by rewrite Hm', Hl', Hli'.
Qed.

Lemma Stop_returns (t0 : SSHTun) (w : World) :
  lifecycle t0 w -> ctxInv w -> exists m', Stop (mem w) = Done m'.
Proof.
  intros (_ & _ & Hpc) (_ & Hc & _).
  unfold Stop. destruct (started (tun (mem w))) eqn:E; [| by eexists].
  destruct (mainPc w); destruct_and?; try congruence;
    destruct Hc as (par & f & _ & -> & _); by eexists.
Qed.

Lemma safe_step (t0 : SSHTun) (n : nat) (w w' : World) (a : Action) :
  ready t0 -> fullInv t0 w -> poolRun t0 (S n) w -> safe w ->
  step w a = Some w' -> safe w'.
Proof.
  intros Hr Hf Hp Hs Hstep. unfold step in Hstep.
  destruct (crashed w) eqn:Hcr; [done |].
  pose proof Hf as ((Hlc & Hctx & _) & _).
  destruct a;
    try (by eapply safe_main);
    try (by eapply safe_listen);
    try (by eapply safe_accept);
    try (by eapply safe_handler).
  - destruct (Stop_returns t0 w Hlc Hctx) as [m' Hm]. rewrite Hm in Hstep.
    injection Hstep as <-. exact Hs.
  - injection Hstep as <-. exact Hs.
Qed.

Lemma allInv_step (t0 : SSHTun) (n : nat) (w w' : World) (a : Action) :
  ready t0 -> allInv t0 (S n) w -> step w a = Some w' -> allInv t0 n w'.
Proof.
  intros Hr (H1 & H2 & H3 & H4) Hstep.
  assert (Hsrv : forwardType t0 = Local -> is_Some (server t0)).
  { by destruct Hr as (_ & _ & ? & _). }
  split_and!.
  - by eapply fullInv_step.
  - by eapply joinInv_step.
  - by eapply poolRun_step.
  - by eapply safe_step.
Qed.

Lemma run_budget (P : nat -> World -> Prop) :
  (forall n w a w', P (S n) w -> step w a = Some w' -> P n w') ->
  forall sched m w w',
    P (length sched + m)%nat w -> run w sched = Some w' -> P m w'.
Proof.
  intros Hstep. induction sched as [| a sched IH]; intros m w w' HP Hrun.
  - simpl in Hrun. by injection Hrun as <-.
  - simpl in Hrun. destruct (step w a) as [w1 |] eqn:E; [| done].
    eapply IH; [| exact Hrun]. eapply Hstep; eauto.
Qed.

Lemma allInv_run (t0 : SSHTun) (k : nat) (sched : list Action) (m : nat)
    (w : World) :
  ready t0 -> Z.of_nat (length sched) + Z.of_nat m <= intMax ->
  run (initWorld t0 k) sched = Some w -> allInv t0 m w.
Proof.
  intros Hr Hlen Hrun. pose proof Hr as (Hs & Ha & _ & _ & _ & Hcases).
  eapply (run_budget (allInv t0)); [| | exact Hrun].
  - intros. by eapply allInv_step.
  - unfold allInv. split_and!.
    + by apply (fullInv_run t0 k []).
    + unfold joinInv, running, initWorld. simpl. done.
    + unfold poolRun, poolAt, initWorld, inFlight, howMany. simpl.
      split; [lia |]. rewrite Ha. split; [done |].
      destruct (forwardType t0 =? Local) eqn:E; [| done].
      apply Z.eqb_eq in E.
      destruct Hcases as [[_ ->] | ?];
        [| unfold Local, Remote in *; congruence].
      split; [| done]. split; [intros [? ?]; done | lia].
    + unfold safe, hasListener, initWorld. simpl. done.
Qed.

Lemma poolRun_run (t0 : SSHTun) (k : nat) (sched : list Action) (w : World) :
  ready t0 -> Z.of_nat (length sched) <= intMax ->
  run (initWorld t0 k) sched = Some w -> allInv t0 0 w.
Proof. intros Hr Hlen Hrun. apply (allInv_run t0 k sched); [done | lia | done]. Qed.

Lemma ready_exampleTun : ready exampleTun.
Proof.
  unfold ready. split_and!; try done; try (by eexists). by left.
Qed.

(** ** After Start has returned *)

Lemma settled_returned (t0 : SSHTun) (w : World) (r : option error) :
  fullInv t0 w -> joinInv w -> returned w = Some r -> settled r w.
Proof.
  intros ((Hlc & _ & Hli & _) & _) Hj Hret.
  unfold returned in Hret. destruct (mainPc w) eqn:Hpc; try done.
  injection Hret as ->. unfold settled.
  destruct Hlc as (_ & Hl & Hm). rewrite ?Hpc in Hm.
  destruct Hm as (_ & Hst & _). split_and!; try done.
  - destruct Hli as [Hn | He].
    + destruct Hl as (_ & -> & _); [by unfold launched; rewrite Hn | done].
    + destruct Hj as [Hj1 Hj2].
      destruct (joined_tasks w (conj Hj1 Hj2)) as [[e ->] _]; [| done].
      apply Hj2. by rewrite He.
  - destruct Hli as [Hn | He].
    + destruct Hl as (-> & _); [by unfold launched; rewrite Hn | done].
    + destruct Hj as [Hj1 Hj2].
      destruct (joined_tasks w (conj Hj1 Hj2)) as [_ ?]; [| done].
      apply Hj2. by rewrite He.
Qed.

Lemma settled_step (r : option error) (w w' : World) (a : Action) :
  settled r w -> step w a = Some w' -> sameButCaller w w'.
Proof.
  intros (Hm & Hs & Hl & Ha & Hp) Hstep. unfold step in Hstep.
  destruct (crashed w); [done |].
  destruct a.
  1-5: by (unfold stepMain in Hstep; rewrite Hm in Hstep).
  - unfold stepListen in Hstep. destruct Hl as [Hl | Hl]; by rewrite Hl in Hstep.
  - unfold stepAccept in Hstep. by destruct (acceptPc w).
  - unfold stepHandler in Hstep.
    destruct (handlers w !! c) as [pc |] eqn:Hc; [| done].
    apply (pending_zero _ _ _ Hp) in Hc. by destruct pc.
  - unfold stepHandler in Hstep.
    destruct (handlers w !! c) as [pc |] eqn:Hc; [| done].
    apply (pending_zero _ _ _ Hp) in Hc. by destruct pc.
  - unfold stepHandler in Hstep.
    destruct (handlers w !! c) as [pc |] eqn:Hc; [| done].
    apply (pending_zero _ _ _ Hp) in Hc. by destruct pc.
  - unfold Stop in Hstep. rewrite Hs in Hstep. injection Hstep as <-.
    by unfold sameButCaller.
  - injection Hstep as <-. by unfold sameButCaller.
Qed.

Lemma settled_same (r : option error) (w w' : World) :
  settled r w -> sameButCaller w w' -> settled r w'.
Proof.
  unfold settled, sameButCaller.
  intros H (Ht & _ & _ & _ & Hm & Hl & _ & _ & _ & Ha & Hh & _).
  by rewrite Ht, Hm, Hl, Ha, Hh.
Qed.

Lemma sameButCaller_trans (w1 w2 w3 : World) :
  sameButCaller w1 w2 -> sameButCaller w2 w3 -> sameButCaller w1 w3.
Proof.
  unfold sameButCaller. intros H1 H2. destruct_and!.
  split_and!; congruence.
Qed.

Lemma settled_run (r : option error) (sched : list Action) (w w' : World) :
  settled r w -> run w sched = Some w' -> sameButCaller w w'.
Proof.
  revert w. induction sched as [| a sched IH]; intros w Hs Hrun.
  - simpl in Hrun. injection Hrun as <-. by unfold sameButCaller.
  - simpl in Hrun. destruct (step w a) as [w1 |] eqn:E; [| done].
    pose proof (settled_step r w w1 a Hs E) as H1.
    eapply sameButCaller_trans; [exact H1 |].
    apply IH; [| exact Hrun]. by eapply settled_same.
Qed.

Lemma settled_enabled (r : option error) (w w' : World) (a : Action) :
  settled r w -> step w a = Some w' ->
  a = CallStop \/ exists k, a = CancelCaller k.
Proof.
  intros (Hm & Hs & Hl & Ha & Hp) Hstep. unfold step in Hstep.
  destruct (crashed w); [done |].
  destruct a; try (by left); try (right; by eexists).
  1-5: by (unfold stepMain in Hstep; rewrite Hm in Hstep).
  - unfold stepListen in Hstep. destruct Hl as [Hl | Hl]; by rewrite Hl in Hstep.
  - unfold stepAccept in Hstep. by destruct (acceptPc w).
  - unfold stepHandler in Hstep.
    destruct (handlers w !! c) as [pc |] eqn:Hc; [| done].
    apply (pending_zero _ _ _ Hp) in Hc. by destruct pc.
  - unfold stepHandler in Hstep.
    destruct (handlers w !! c) as [pc |] eqn:Hc; [| done].
    apply (pending_zero _ _ _ Hp) in Hc. by destruct pc.
  - unfold stepHandler in Hstep.
    destruct (handlers w !! c) as [pc |] eqn:Hc; [| done].
    apply (pending_zero _ _ _ Hp) in Hc. by destruct pc.
Qed.

Lemma settled_sched (r : option error) (sched : list Action) (w w' : World) :
  settled r w -> run w sched = Some w' ->
  Forall (fun a => a = CallStop \/ exists k, a = CancelCaller k) sched.
Proof.
  revert w. induction sched as [| a sched IH]; intros w Hs Hrun; [constructor |].
  simpl in Hrun. destruct (step w a) as [w1 |] eqn:E; [| done].
  constructor; [by eapply settled_enabled |].
  eapply (IH w1); [| exact Hrun].
  eapply settled_same; [exact Hs |]. by eapply settled_step.
Qed.

(** ** Sessions in Remote mode *)

Lemma isOpen_isDial (e : Event) : isDial e = false -> isOpen e = false.
Proof. by destruct e as [| | [] |]. Qed.

Lemma remoteInv_quiet (t0 : SSHTun) (w w' : World) (ext : list Event) :
  remoteInv t0 w ->
  mainPc w' = mainPc w -> launched w' = launched w ->
  sshClient (tun (mem w')) = sshClient (tun (mem w)) ->
  trace (mem w') = trace (mem w) ++ ext -> Forall noDial ext ->
  remoteInv t0 w'.
Proof.
  unfold remoteInv. intros (Hc & Hcl & Hpc) Hm Hl Hs Htr Hext.
  assert (H1 : count isDial ext = 0%nat).
  { apply count_none. eapply Forall_impl; [exact Hext |]. by intros e [? _]. }
  assert (H2 : count isClose ext = 0%nat).
  { apply count_none. eapply Forall_impl; [exact Hext |]. by intros e [_ ?]. }
  assert (H3 : count isOpen ext = 0%nat).
  { apply count_none. eapply Forall_impl; [exact Hext |].
    intros e [? _]. by apply isOpen_isDial. }
  rewrite Hm, Hl, Hs, Htr, !count_app, H1, H2, H3, !Nat.add_0_r. done.
Qed.

Lemma remoteInv_same (t0 : SSHTun) (w w' : World) :
  remoteInv t0 w ->
  mainPc w' = mainPc w -> launched w' = launched w ->
  tun (mem w') = tun (mem w) -> trace (mem w') = trace (mem w) ->
  remoteInv t0 w'.
Proof.
  intros H Hm Hl Ht Htr. apply (remoteInv_quiet t0 w w' []); try done.
  - by rewrite Ht.
  - by rewrite app_nil_r.
Qed.

Lemma remoteInv_main (t0 : SSHTun) (w w' : World) (a : Action) :
  forwardType (tun (mem w)) = Remote ->
  lifecycle t0 w -> remoteInv t0 w -> stepMain a w = Some w' -> remoteInv t0 w'.
Proof.
  intros Hft (_ & _ & Hlc) (Hc & Hcl & Hpc) Hstep.
  unfold stepMain, startLock, stopLock, stopNotify, notifyConnState,
    withCancel, initSSHConfig in Hstep.
  rewrite Hft in Hstep.
  destruct (mainPc w) eqn:Hm; destruct a; try done; simpl in Hstep;
    inv_step Hstep.
  all: unfold remoteInv in *; simpl;
    rewrite ?Hm, ?count_app, ?count_one; simpl; rewrite ?Nat.add_0_r.
  all: destruct_and?; split_and?; try done; try lia.
  all: try (intros Hla; unfold launched in *; simpl in *; congruence).
  all: try (intros Hla; unfold launched in *; simpl in *;
            match goal with H : listenPc _ = _ |- _ => rewrite H in * end;
            auto).
  all: try (match goal with H : if launched ?x then _ else _ |- _ =>
              destruct (launched x) eqn:Hla'; destruct_and?; auto; try done end).
Qed.

Lemma remoteInv_handler (t0 : SSHTun) (c : Conn) (a : Action) (w w' : World) :
  forwardType (tun (mem w)) <> Local ->
  remoteInv t0 w -> stepHandler c a w = Some w' -> remoteInv t0 w'.
Proof.
  intros Hf Hinv Hstep.
  pose proof (stepHandler_pcs _ _ _ _ Hstep) as (Hm & Hl & _).
  assert (Hla : launched w' = launched w) by (unfold launched; by rewrite Hl).
  apply Z.eqb_neq in Hf.
  unfold stepHandler, addConn, removeConn, forwardBegin, forwardEnd,
    notifyTunneledConnState in Hstep.
  simpl in Hstep. rewrite Hf in Hstep. simpl in Hstep.
  destruct (handlers w !! c) as [pc |]; [| done].
  destruct pc, a; try done; inv_step Hstep.
  all: first
    [ by (eapply (remoteInv_quiet t0 w _ []); try done; finish_proj;
          simpl; rewrite ?app_nil_r)
    | by (eapply (remoteInv_quiet t0 w _ [_]); try done; finish_proj;
          simpl; repeat constructor) ].
Qed.

Lemma remoteInv_step (t0 : SSHTun) (w w' : World) (a : Action) :
  forwardType t0 = Remote ->
  lifecycle t0 w -> remoteInv t0 w -> step w a = Some w' -> remoteInv t0 w'.
Proof.
  intros Hft Hlc Hinv Hstep. unfold step in Hstep.
  destruct (crashed w) eqn:Hcr; [done |].
  assert (Hf : forwardType (tun (mem w)) <> Local).
  { destruct Hlc as ((_ & _ & -> & _) & _). by rewrite Hft. }
  destruct a;
    try (eapply remoteInv_main; [| exact Hlc | exact Hinv | exact Hstep];
         destruct Hlc as ((_ & _ & -> & _) & _); exact Hft);
    try (by eapply remoteInv_handler).
  - unfold stepListen, Errgroup.WithContext, Errgroup.Wait, withCancel in Hstep.
    destruct (listenPc w) eqn:Hpc; try done; inv_step Hstep;
      apply (remoteInv_same t0 w); try done; unfold launched; simpl;
      by rewrite Hpc.
  - assert (Hq : quiet w w').
    { eapply stepAccept_quiet; [| exact Hstep]. by destruct Hlc as (_ & ? & _). }
    destruct Hq as (Hm & Hl1 & Hl2 & _).
    unfold stepAccept in Hstep.
    inv_step Hstep; apply (remoteInv_same t0 w); finish_proj; try done;
      congruence.
  - unfold Stop in Hstep. inv_step Hstep; by apply (remoteInv_same t0 w).
  - injection Hstep as <-. by apply (remoteInv_same t0 w).
Qed.

Lemma remoteInv_run (t0 : SSHTun) (k : nat) (sched : list Action) (w : World) :
  started t0 = false -> forwardType t0 = Remote ->
  run (initWorld t0 k) sched = Some w ->
  lifecycle t0 w /\ remoteInv t0 w.
Proof.
  intros Hs Hft Hrun.
  eapply (run_invariant (fun w => lifecycle t0 w /\ remoteInv t0 w));
    [| | exact Hrun].
  - intros w1 a w2 [H1 H2] Hstep. split.
    + by eapply lifecycle_step.
    + by eapply remoteInv_step.
  - split; [by apply lifecycle_init |].
    unfold remoteInv, initWorld. simpl. done.
Qed.

(** ** The context of the tunnel during a run *)

Lemma ctxKept_store (w w' : World) :
  entered w = true -> mainPc w' = mainPc w -> tun (mem w') = tun (mem w) ->
  (forall c, ctxDone (store (mem w)) c = true ->
             ctxDone (store (mem w')) c = true) ->
  ctxKept w w'.
Proof.
  intros He Hm Ht Hs. unfold ctxKept, entered, tunCtxDone in *.
  rewrite Hm, Ht. split_and!; try done.
  destruct (ctx (tun (mem w))); [apply Hs | done].
Qed.

Lemma ctxKept_memStep (w w' : World) (ext : list Event) :
  entered w = true -> mainPc w' = mainPc w ->
  memStep (mem w) (mem w') ext -> ctxKept w w'.
Proof.
  intros He Hm Hms. unfold ctxKept, entered in *. rewrite Hm.
  rewrite (tunCtxDone_memStep _ _ _ Hms).
  destruct Hms as (_ & _ & _ & -> & _). done.
Qed.

Lemma ctxKept_trans (w1 w2 w3 : World) :
  ctxKept w1 w2 -> ctxKept w2 w3 -> ctxKept w1 w3.
Proof.
  unfold ctxKept. intros (_ & H1 & H2) (H3 & H4 & H5).
  split_and!; [done | congruence | auto].
Qed.

Lemma ctxKept_finish (r : option error) (w : World) :
  entered w = true -> ctxKept w (finishTask r w).
Proof.
  intros He. unfold ctxKept, entered in *. finish_proj.
  split_and!; [done | done |]. apply tunCtxDone_finish.
Qed.

Lemma ctxKept_step (w w' : World) (a : Action) :
  entered w = true -> step w a = Some w' -> ctxKept w w'.
Proof.
  intros He Hstep. unfold step in Hstep.
  destruct (crashed w); [done |].
  destruct a.
  1-5: unfold stepMain, startLock, stopLock, stopNotify, notifyConnState,
         initSSHConfig in Hstep;
       unfold entered in He;
       destruct (mainPc w) eqn:Hm; try done; inv_step Hstep;
       unfold ctxKept, entered, tunCtxDone; simpl; rewrite ?Hm; done.
  - unfold stepListen, Errgroup.WithContext, Errgroup.Wait, withCancel in Hstep.
    inv_step Hstep; apply ctxKept_store; try done; simpl.
    all: first [ by auto
               | intros c0; apply ctxDone_callCancel
               | intros c0 H; rewrite <- H;
                 match goal with
                 | |- ctxDone _ _ = ctxDone (store (mem ?w)) _ =>
                     exact (ctxDone_withCancel (store (mem w)) c0 c0)
                 end
               | idtac ].
  - unfold stepAccept in Hstep.
    inv_step Hstep; try (by apply ctxKept_store).
    + apply (ctxKept_finish _ (with_accept _ w)). done.
    + apply (ctxKept_finish _ (with_accept _ w)). done.
  - unfold stepHandler in Hstep.
    destruct (handlers w !! c) as [pc |]; [| done].
    destruct pc; try done.
    destruct (addConn dial (mem w)) as [[m' [e |]] |] eqn:Hadd;
      injection Hstep as <-; [| | by apply ctxKept_store].
    + apply addConn_memStep in Hadd as (ext & Hms & _).
      eapply ctxKept_trans; [| apply ctxKept_finish; exact He].
      by eapply ctxKept_memStep.
    + apply addConn_memStep in Hadd as (ext & Hms & _).
      by eapply ctxKept_memStep.
  - unfold stepHandler in Hstep.
    destruct (handlers w !! c) as [pc |]; [| done].
    destruct pc; try done.
    + injection Hstep as <-.
      destruct (forwardBegin_memStep c (mem w)) as (ext & Hms & _).
      by eapply ctxKept_memStep.
    + destruct (removeConn (mem w)) as [m' |] eqn:Hrem; injection Hstep as <-;
        [| by apply ctxKept_store].
      apply removeConn_memStep in Hrem as (ext & Hms & _).
      eapply ctxKept_trans; [| apply ctxKept_finish; exact He].
      by eapply ctxKept_memStep.
  - unfold stepHandler in Hstep.
    destruct (handlers w !! c) as [pc |]; [| done].
    destruct pc; try done. injection Hstep as <-.
    destruct (forwardEnd_memStep c err (mem w)) as (ext & Hms & _).
    by eapply ctxKept_memStep.
  - unfold Stop in Hstep. inv_step Hstep; apply ctxKept_store; try done.
    simpl. intros c0. apply ctxDone_callCancel.
  - injection Hstep as <-. apply ctxKept_store; try done.
    simpl. intros c0. apply ctxDone_cancelCaller.
Qed.

Lemma ctxKept_run (sched : list Action) (w w' : World) :
  entered w = true -> run w sched = Some w' -> ctxKept w w'.
Proof.
  revert w. induction sched as [| a sched IH]; intros w He Hrun.
  - simpl in Hrun. injection Hrun as <-. by unfold ctxKept.
  - simpl in Hrun. destruct (step w a) as [w1 |] eqn:E; [| done].
    pose proof (ctxKept_step w w1 a He E) as H1.
    eapply ctxKept_trans; [exact H1 |]. apply IH; [by destruct H1 | done].
Qed.

Lemma callerInv_step (t0 : SSHTun) (k : nat) (w w' : World) (a : Action) :
  lifecycle t0 w -> callerInv k w -> step w a = Some w' -> callerInv k w'.
Proof.
  intros (_ & _ & Hlc) Hinv Hstep. unfold callerInv in *.
  destruct (mainPc w) eqn:Hm.
  1: { unfold step in Hstep. destruct (crashed w); [done |].
       subst parent. destruct Hlc as (_ & _ & Hst).
       destruct a.
       1-5: unfold stepMain, startLock, withCancel in Hstep;
            rewrite Hm, ?Hst in Hstep;
            inv_step Hstep; simpl; by eexists.
       - unfold stepListen, Errgroup.WithContext, Errgroup.Wait, withCancel in Hstep.
         inv_step Hstep; simpl; by rewrite Hm.
       - unfold stepAccept in Hstep. inv_step Hstep; finish_proj; simpl;
           by rewrite Hm.
       - pose proof (stepHandler_pcs _ _ _ _ Hstep) as (-> & _). by rewrite Hm.
       - pose proof (stepHandler_pcs _ _ _ _ Hstep) as (-> & _). by rewrite Hm.
       - pose proof (stepHandler_pcs _ _ _ _ Hstep) as (-> & _). by rewrite Hm.
       - unfold Stop in Hstep. inv_step Hstep; simpl; by rewrite Hm.
       - injection Hstep as <-. simpl. by rewrite Hm. }
  all: assert (He : entered w = true) by (unfold entered; by rewrite Hm).
  all: destruct (ctxKept_step w w' a He Hstep) as (He' & -> & _).
  all: unfold entered in He'; by destruct (mainPc w').
Qed.

Lemma callerInv_run (t0 : SSHTun) (k : nat) (sched : list Action) (w : World) :
  started t0 = false ->
  run (initWorld t0 k) sched = Some w -> callerInv k w.
Proof.
  intros Hs Hrun.
  assert (H : lifecycle t0 w /\ callerInv k w); [| by destruct H].
  eapply (run_invariant (fun w => lifecycle t0 w /\ callerInv k w));
    [| | exact Hrun].
  - intros w1 a w2 [H1 H2] Hstep. split.
    + by eapply lifecycle_step.
    + by eapply callerInv_step.
  - split; [by apply lifecycle_init | by unfold callerInv, initWorld].
Qed.

Lemma groupDone_tunCtxDone (w : World) :
  ctxInv w -> tunCtxDone (mem w) = true -> is_Some (group w) ->
  groupDone w = true.
Proof.
  intros (_ & _ & Hg) Hd [g Hgr]. unfold groupDone, tunCtxDone in *.
  rewrite Hgr in *. destruct Hg as (c & Hc & -> & _). rewrite Hc in Hd.
  simpl. rewrite Hd. apply orb_true_r.
Qed.

(** [Stop], or the cancellation of the context given to [Start], while the
    tunnel is started. *)
Lemma cancel_enabled (t0 : SSHTun) (k : nat) (sched : list Action) (w : World)
    (a : Action) :
  started t0 = false ->
  run (initWorld t0 k) sched = Some w ->
  crashed w = false ->
  started (tun (mem w)) = true ->
  a = CallStop \/ a = CancelCaller k ->
  exists w1,
    step w a = Some w1 /\ crashed w1 = false /\ tunCtxDone (mem w1) = true /\
    entered w1 = true /\
    mainPc w1 = mainPc w /\ listenPc w1 = listenPc w /\
    acceptPc w1 = acceptPc w /\ handlers w1 = handlers w.
Proof.
  intros Hs Hrun Hcr Hst Ha.
  pose proof (fullInv_run t0 k sched w Hs Hrun) as ((Hlc & Hctx & _) & _).
  pose proof (callerInv_run t0 k sched w Hs Hrun) as Hcal.
  assert (He : entered w = true).
  { unfold entered. destruct Hlc as (_ & _ & Hpc).
    destruct (mainPc w); destruct_and?; congruence. }
  assert (Hc : exists f, ctx (tun (mem w)) = Some (WithCancel (CallerCtx k) f) /\
                         cancel (tun (mem w)) = Some f).
  { unfold callerInv, entered in *. destruct Hctx as (_ & Hc & _).
    destruct (mainPc w); try done;
      destruct Hcal as [f Hf1], Hc as (par & f' & Hf2 & Hf3 & _);
      exists f; split; congruence. }
  destruct Hc as (f & Hc & Hcan).
  unfold step. rewrite Hcr. destruct Ha as [-> | ->].
  - unfold Stop. rewrite Hst, Hcan. eexists. split; [reflexivity |].
    split_and!; try done. unfold tunCtxDone. simpl. rewrite Hc. simpl.
    apply orb_true_iff. left. apply bool_decide_eq_true.
    apply elem_of_union_l. by apply elem_of_singleton.
  - eexists. split; [reflexivity |].
    split_and!; try done. unfold tunCtxDone. simpl. rewrite Hc. simpl.
    apply orb_true_iff. right. apply bool_decide_eq_true.
    apply elem_of_union_l. by apply elem_of_singleton.
Qed.

(** ** Runs that cannot listen *)

Lemma nilListener_step (w w' : World) (a : Action) :
  forwardType (tun (mem w)) <> Local -> forwardType (tun (mem w)) <> Remote ->
  nilListener w -> step w a = Some w' -> nilListener w'.
Proof.
  intros Hl Hr (Hh & Hli & Hm & Hp) Hstep. unfold step in Hstep.
  destruct (crashed w); [done |].
  apply Z.eqb_neq in Hl, Hr.
  destruct a.
  1-5: unfold stepMain in Hstep; simpl in Hstep; rewrite ?Hl, ?Hr in Hstep;
       simpl in Hstep;
       destruct (mainPc w) eqn:Hpc; try done; inv_step Hstep;
       unfold nilListener; simpl; rewrite ?Hpc; split_and!; try done;
       try (by match goal with H : listenPc _ = _ |- _ => rewrite H in Hp end);
       by destruct (listenPc w).
  - unfold stepListen, Errgroup.WithContext, Errgroup.Wait, withCancel in Hstep.
    rewrite Hli in Hstep.
    destruct (listenPc w) eqn:Hpc; try done; inv_step Hstep;
      unfold nilListener; simpl; rewrite ?Hpc; split_and!; try done.
    all: by destruct (mainPc w).
  - unfold stepAccept in Hstep. rewrite Hli in Hstep.
    inv_step Hstep. unfold nilListener. simpl. done.
  - unfold stepHandler in Hstep. rewrite Hh in Hstep. done.
  - unfold stepHandler in Hstep. rewrite Hh in Hstep. done.
  - unfold stepHandler in Hstep. rewrite Hh in Hstep. done.
  - unfold Stop in Hstep. inv_step Hstep; by unfold nilListener.
  - injection Hstep as <-. by unfold nilListener.
Qed.

Lemma nilListener_run (t0 : SSHTun) (k : nat) (sched : list Action) (w : World) :
  started t0 = false ->
  forwardType t0 <> Local -> forwardType t0 <> Remote ->
  run (initWorld t0 k) sched = Some w ->
  fullInv t0 w /\ nilListener w.
Proof.
  intros Hs Hl Hr Hrun.
  eapply (run_invariant (fun w => fullInv t0 w /\ nilListener w));
    [| | exact Hrun].
  - intros w1 a w2 [H1 H2] Hstep. split; [by eapply fullInv_step |].
    destruct H1 as (((Hcfg & _) & _) & _).
    destruct Hcfg as (_ & _ & Hf & _).
    eapply nilListener_step; [| | exact H2 | exact Hstep]; by rewrite Hf.
  - split; [by apply (fullInv_run t0 k []) |].
    by unfold nilListener, initWorld.
Qed.

Lemma notListening_step (w w' : World) (a : Action) :
  forwardType (tun (mem w)) = Local \/ forwardType (tun (mem w)) = Remote ->
  fromEndpoint (tun (mem w)) = None ->
  (launched w = false -> handlers w = []) ->
  (forall c, mainPc w = MRemoteListen c -> forwardType (tun (mem w)) = Remote) ->
  notListening w -> step w a = Some w' -> notListening w'.
Proof.
  intros Hft Hfrom Hh Hrl [Hl Hm] Hstep. unfold step in Hstep.
  destruct (crashed w); [done |].
  assert (Hnil : handlers w = []) by (apply Hh; unfold launched; by rewrite Hl).
  unfold fromEndpoint in Hfrom.
  destruct a.
  1-5: unfold stepMain in Hstep; cbv zeta in Hstep;
       destruct Hft as [Hft | Hft]; rewrite ?Hft in Hstep; rewrite Hft in Hfrom;
       simpl in Hstep, Hfrom; rewrite ?Hfrom in Hstep;
       destruct (mainPc w) eqn:Hpc; try done; inv_step Hstep;
       unfold notListening; simpl; rewrite ?Hpc; try done;
       specialize (Hrl _ eq_refl); by rewrite Hft in Hrl.
  - unfold stepListen in Hstep. by rewrite Hl in Hstep.
  - unfold stepAccept in Hstep. inv_step Hstep;
      unfold notListening; finish_proj; done.
  - unfold stepHandler in Hstep. by rewrite Hnil in Hstep.
  - unfold stepHandler in Hstep. by rewrite Hnil in Hstep.
  - unfold stepHandler in Hstep. by rewrite Hnil in Hstep.
  - unfold Stop in Hstep. inv_step Hstep; by unfold notListening.
  - injection Hstep as <-. by unfold notListening.
Qed.

(** ** The settings during a run *)

Lemma settingsInv_quiet (t0 : SSHTun) (w w' : World) :
  settingsInv t0 w ->
  mainPc w' = mainPc w -> launched w' = launched w ->
  settings (tun (mem w')) = settings (tun (mem w)) ->
  sshConfig (tun (mem w')) = sshConfig (tun (mem w)) ->
  settingsInv t0 w'.
Proof.
  unfold settingsInv. intros [H1 H2] Hm Hl Hs Hc. by rewrite Hm, Hl, Hs, Hc.
Qed.

Lemma settingsInv_main (t0 : SSHTun) (w w' : World) (a : Action) :
  lifecycle t0 w -> settingsInv t0 w -> stepMain a w = Some w' ->
  settingsInv t0 w'.
Proof.
  intros (_ & _ & Hlc) [Hs Hc] Hstep.
  unfold stepMain, startLock, stopLock, stopNotify, notifyConnState,
    withCancel, initSSHConfig in Hstep.
  destruct (mainPc w) eqn:Hm; destruct a; try done; inv_step Hstep.
  all: unfold settingsInv, launched in *; simpl; rewrite ?Hm.
  all: destruct_and?; split_and?; try done.
  all: try (by match goal with H : listenPc _ = _ |- _ => rewrite H in * end).
  all: try (match goal with H : match listenPc ?w with _ => _ end = false |- _ =>
              destruct (listenPc w); try done end; auto).
  all: try (eexists; unfold configOf; unfold settings in Hs;
            injection Hs as E1 E2 E3 E4 E5 E6 E7 E8 E9 E10;
            rewrite ?E1, ?E2, ?E3, ?E4, ?E5, ?E6, ?E7, ?E8, ?E9, ?E10;
            reflexivity).
  all: try (destruct (listenPc w); auto; done).
Qed.

Lemma addConn_kept (d : result Client) (m m' : Mem) (r : option error) :
  addConn d m = Done (m', r) ->
  settings (tun m') = settings (tun m) /\ sshConfig (tun m') = sshConfig (tun m).
Proof. unfold addConn. intros H. inv_step H; done. Qed.

Lemma removeConn_kept (m m' : Mem) :
  removeConn m = Done m' ->
  settings (tun m') = settings (tun m) /\ sshConfig (tun m') = sshConfig (tun m).
Proof. unfold removeConn. intros H. inv_step H; done. Qed.

Lemma settingsInv_handler (t0 : SSHTun) (c : Conn) (a : Action) (w w' : World) :
  settingsInv t0 w -> stepHandler c a w = Some w' -> settingsInv t0 w'.
Proof.
  intros Hinv Hstep.
  pose proof (stepHandler_pcs _ _ _ _ Hstep) as (Hm & Hl & _).
  assert (Hla : launched w' = launched w) by (unfold launched; by rewrite Hl).
  unfold stepHandler in Hstep.
  destruct (handlers w !! c) as [pc |]; [| done].
  destruct pc, a; try done.
  - destruct (addConn dial (mem w)) as [[m' [e |]] |] eqn:Hadd;
      injection Hstep as <-; [| | exact Hinv];
      apply addConn_kept in Hadd as [H1 H2];
      apply (settingsInv_quiet t0 w); finish_proj; done.
  - injection Hstep as <-. apply (settingsInv_quiet t0 w); try done;
      unfold forwardBegin, notifyTunneledConnState; simpl;
      by destruct (tunneledConnState (tun (mem w))).
  - injection Hstep as <-. apply (settingsInv_quiet t0 w); try done;
      unfold forwardEnd, notifyTunneledConnState; simpl;
      by destruct (tunneledConnState (tun (mem w))).
  - destruct (removeConn (mem w)) as [m' |] eqn:Hrem; injection Hstep as <-;
      [| exact Hinv].
    apply removeConn_kept in Hrem as [H1 H2].
    apply (settingsInv_quiet t0 w); finish_proj; done.
Qed.

Lemma settingsInv_step (t0 : SSHTun) (w w' : World) (a : Action) :
  lifecycle t0 w -> settingsInv t0 w -> step w a = Some w' -> settingsInv t0 w'.
Proof.
  intros Hlc Hinv Hstep. unfold step in Hstep.
  destruct (crashed w) eqn:Hcr; [done |].
  destruct a;
    try (by eapply settingsInv_main);
    try (by eapply settingsInv_handler).
  - unfold stepListen, Errgroup.WithContext, Errgroup.Wait, withCancel in Hstep.
    destruct (listenPc w) eqn:Hpc; try done; inv_step Hstep;
      apply (settingsInv_quiet t0 w); try done; unfold launched; simpl;
      by rewrite Hpc.
  - assert (Hq : quiet w w').
    { eapply stepAccept_quiet; [| exact Hstep]. by destruct Hlc as (_ & ? & _). }
    destruct Hq as (Hm & Hl1 & Hl2 & _).
    unfold stepAccept in Hstep.
    inv_step Hstep; apply (settingsInv_quiet t0 w); finish_proj; try done;
      congruence.
  - unfold Stop in Hstep. inv_step Hstep; by apply (settingsInv_quiet t0 w).
  - injection Hstep as <-. by apply (settingsInv_quiet t0 w).
Qed.

Lemma settingsInv_run (t0 : SSHTun) (k : nat) (sched : list Action)
    (w : World) :
  started t0 = false ->
  run (initWorld t0 k) sched = Some w ->
  lifecycle t0 w /\ settingsInv t0 w.
Proof.
  intros Hs Hrun.
  eapply (run_invariant (fun w => lifecycle t0 w /\ settingsInv t0 w));
    [| | exact Hrun].
  - intros w1 a w2 [H1 H2] Hstep. split.
    + by eapply lifecycle_step.
    + by eapply settingsInv_step.
  - split; [by apply lifecycle_init |]. by unfold settingsInv, initWorld.
Qed.

(** ** Winding down *)

Lemma rank_insert (hs : list HandlerPc) (c : nat) (pc pc' : HandlerPc) :
  hs !! c = Some pc ->
  (sum_list (handlerRank <$> <[c := pc']> hs) + handlerRank pc
   = sum_list (handlerRank <$> hs) + handlerRank pc')%nat.
Proof.
  revert c. induction hs as [| h hs IH]; intros c Hc; [done |].
  destruct c as [| c]; csimpl in *.
  - injection Hc as ->. lia.
  - specialize (IH c Hc). lia.
Qed.

Lemma rank_le (hs : list HandlerPc) :
  (sum_list (handlerRank <$> hs) <= 4 * length hs)%nat.
Proof.
  induction hs as [| h hs IH]; csimpl; [lia |]. destruct h; simpl; lia.
Qed.

Lemma measure_finish r w : measure (finishTask r w) = measure w.
Proof. unfold measure. by finish_proj. Qed.

Lemma measure_le (w : World) :
  (measure w <= 215 + 4 * length (handlers w))%nat.
Proof.
  pose proof (rank_le (handlers w)) as Hrk. unfold measure.
  destruct (mainPc w), (listenPc w), (acceptPc w); simpl; lia.
Qed.

Lemma step_measure (w w' : World) (a : Action) :
  step w a = Some w' -> crashed w' = false -> winding a = true ->
  (measure w' < measure w)%nat.
Proof.
  intros Hstep Hcr Hwind. unfold step in Hstep.
  destruct (crashed w) eqn:Hcr0; [done |].
  destruct a; try done.
  1-5: unfold stepMain in Hstep; destruct (mainPc w) eqn:Hm; try done;
       inv_step Hstep; try done; unfold measure; simpl; rewrite ?Hm; simpl;
       try lia;
       try (match goal with H : listenPc _ = _ |- _ => rewrite H end; simpl; lia);
       destruct (listenPc w); simpl; lia.
  - unfold stepListen, Errgroup.WithContext, Errgroup.Wait, withCancel in Hstep.
    destruct (listenPc w) eqn:Hl; try done; inv_step Hstep; try done;
      unfold measure; simpl; rewrite ?Hl; simpl; lia.
  - unfold stepAccept in Hstep.
    destruct (acceptPc w) eqn:Ha; try done. destruct r as [e |]; [| done].
    inv_step Hstep; try done. rewrite measure_finish.
    unfold measure. simpl. rewrite Ha. simpl. lia.
  - unfold stepHandler in Hstep.
    destruct (handlers w !! c) as [pc |] eqn:Hc; [| done].
    destruct pc; try done.
    destruct (addConn dial (mem w)) as [[m' [e |]] |]; injection Hstep as <-;
      [| | done]; rewrite ?measure_finish; unfold measure; simpl.
    + pose proof (rank_insert _ _ _ (HReturned (Some e)) Hc) as Hi.
      simpl in Hi. unfold Conn in *. lia.
    + pose proof (rank_insert _ _ _ HForward Hc) as Hi.
      simpl in Hi. unfold Conn in *. lia.
  - unfold stepHandler in Hstep.
    destruct (handlers w !! c) as [pc |] eqn:Hc; [| done].
    destruct pc; try done.
    + injection Hstep as <-. unfold measure. simpl.
      pose proof (rank_insert _ _ _ HCopy Hc) as Hi.
      simpl in Hi. unfold Conn in *. lia.
    + destruct (removeConn (mem w)) as [m' |]; injection Hstep as <-; [| done].
      rewrite measure_finish. unfold measure. simpl.
      pose proof (rank_insert _ _ _ (HReturned None) Hc) as Hi.
      simpl in Hi. unfold Conn in *. lia.
  - unfold stepHandler in Hstep.
    destruct (handlers w !! c) as [pc |] eqn:Hc; [| done].
    destruct pc; try done. injection Hstep as <-. unfold measure. simpl.
    pose proof (rank_insert _ _ _ HRemove Hc) as Hi.
    simpl in Hi. unfold Conn in *. lia.
Qed.

Lemma step_handlers (w w' : World) (a : Action) :
  step w a = Some w' ->
  (length (handlers w') <= S (length (handlers w)))%nat /\
  (winding a = true -> length (handlers w') = length (handlers w)).
Proof.
  intros Hstep. unfold step in Hstep.
  destruct (crashed w); [done |].
  destruct a.
  1-5: unfold stepMain in Hstep; inv_step Hstep; simpl; split; (lia || done).
  - unfold stepListen, Errgroup.WithContext, Errgroup.Wait, withCancel in Hstep.
    inv_step Hstep; simpl; split; (lia || done).
  - unfold stepAccept in Hstep.
    inv_step Hstep; finish_proj; simpl; rewrite ?length_app; simpl;
      split; try lia; try done.
  - unfold stepHandler in Hstep.
    inv_step Hstep; finish_proj; simpl; rewrite ?length_insert;
      split; (lia || done).
  - unfold stepHandler in Hstep.
    inv_step Hstep; finish_proj; simpl; rewrite ?length_insert;
      split; (lia || done).
  - unfold stepHandler in Hstep.
    inv_step Hstep; finish_proj; simpl; rewrite ?length_insert;
      split; (lia || done).
  - unfold Stop in Hstep. inv_step Hstep; simpl; split; (lia || done).
  - injection Hstep as <-. simpl. split; (lia || done).
Qed.

Lemma run_handlers (sched : list Action) (w w' : World) :
  run w sched = Some w' ->
  (length (handlers w') <= length (handlers w) + length sched)%nat.
Proof.
  revert w. induction sched as [| a sched IH]; intros w Hrun.
  - simpl in Hrun. injection Hrun as <-. lia.
  - simpl in Hrun. destruct (step w a) as [w1 |] eqn:E; [| done].
    apply IH in Hrun. apply step_handlers in E as [E _]. simpl. lia.
Qed.

Lemma launched_step (w w' : World) (a : Action) :
  launched w = true -> step w a = Some w' -> launched w' = true.
Proof.
  intros Hl Hstep. unfold step in Hstep. destruct (crashed w); [done |].
  unfold launched in *.
  destruct a.
  1-5: unfold stepMain in Hstep; inv_step Hstep; simpl; done.
  - unfold stepListen, Errgroup.WithContext, Errgroup.Wait, withCancel in Hstep.
    destruct (listenPc w) eqn:Hp; try done; inv_step Hstep; simpl;
      rewrite ?Hp; done.
  - unfold stepAccept in Hstep. inv_step Hstep; finish_proj; done.
  - by apply stepHandler_pcs in Hstep as (_ & -> & _).
  - by apply stepHandler_pcs in Hstep as (_ & -> & _).
  - by apply stepHandler_pcs in Hstep as (_ & -> & _).
  - unfold Stop in Hstep. inv_step Hstep; done.
  - by injection Hstep as <-.
Qed.

Lemma launched_entered (t0 : SSHTun) (w : World) :
  lifecycle t0 w -> launched w = true -> entered w = true.
Proof.
  intros (_ & _ & Hpc) Hl. unfold entered.
  destruct (mainPc w); destruct_and?; congruence.
Qed.

Lemma closing_groupDone (w : World) :
  ctxInv w -> closing w -> is_Some (group w) -> groupDone w = true.
Proof.
  intros Hctx [Hd | Herr] Hg; [by apply groupDone_tunCtxDone |].
  destruct Hctx as (_ & _ & Hc). unfold groupDone, groupErr in *.
  destruct (group w) as [g |]; [| by destruct Herr].
  destruct Hc as (c0 & _ & Hgc & _ & _ & _ & Hin).
  rewrite Hgc. simpl. apply orb_true_iff. left.
  apply bool_decide_eq_true. auto.
Qed.

Lemma groupErr_step (w w' : World) (a : Action) (e : error) :
  listenInv w -> groupErr w = Some e -> step w a = Some w' ->
  groupErr w' = Some e.
Proof.
  intros (_ & Hli) He Hstep. unfold step in Hstep.
  destruct (crashed w); [done |].
  assert (Hg : is_Some (group w)).
  { unfold groupErr in He. destruct (group w); [by eexists | done]. }
  destruct a.
  1-5: unfold stepMain in Hstep; inv_step Hstep; exact He.
  - unfold stepListen, Errgroup.WithContext, Errgroup.Wait, withCancel in Hstep.
    destruct (listenPc w) eqn:Hpc; try done.
    { rewrite Hli in Hg. by destruct Hg. }
    all: inv_step Hstep; exact He.
  - unfold stepAccept in Hstep. inv_step Hstep; try exact He;
      first [ rewrite groupErr_finish by done; unfold groupErr in *; simpl;
              by rewrite He
            | unfold groupErr in *; simpl; destruct (group w); simpl in *; done ].
  - unfold stepHandler in Hstep.
    inv_step Hstep; rewrite ?groupErr_finish by done; unfold groupErr in *;
      simpl; by rewrite ?He.
  - unfold stepHandler in Hstep.
    inv_step Hstep; rewrite ?groupErr_finish by done; unfold groupErr in *;
      simpl; by rewrite ?He.
  - unfold stepHandler in Hstep.
    inv_step Hstep; rewrite ?groupErr_finish by done; unfold groupErr in *;
      simpl; by rewrite ?He.
  - unfold Stop in Hstep. inv_step Hstep; exact He.
  - injection Hstep as <-. exact He.
Qed.


Lemma closing_step (t0 : SSHTun) (w w' : World) (a : Action) :
  fullInv t0 w -> entered w = true -> closing w -> step w a = Some w' ->
  closing w'.
Proof.
  intros ((_ & _ & Hli) & _) He [Hd | [e Herr]] Hstep.
  - left. destruct (ctxKept_step w w' a He Hstep) as (_ & _ & H). auto.
  - right. exists e. by eapply groupErr_step.
Qed.






(** While the tunnel is winding down, some goroutine can move. *)
Lemma winding_step (t0 : SSHTun) (w : World) :
  fullInv t0 w -> joinInv w -> crashed w = false ->
  launched w = true -> closing w -> returned w = None ->
  exists a w', winding a = true /\ step w a = Some w'.
Proof.
  intros ((Hlc & Hctx & Hli1 & Hli2) & _) [Hj _] Hcr Hla Hd Hret.
  destruct Hlc as (_ & _ & Hpc). unfold returned in Hret.
  assert (Hmain : is_Some (stepMain MainStep w) ->
                  exists a w', winding a = true /\ step w a = Some w').
  { intros [w1 H1]. exists MainStep, w1. split; [done |].
    unfold step. by rewrite Hcr. }
  assert (Hlisten : is_Some (stepListen w) ->
                    exists a w', winding a = true /\ step w a = Some w').
  { intros [w1 H1]. exists ListenStep, w1. split; [done |].
    unfold step. by rewrite Hcr. }
  destruct (mainPc w) eqn:Hm; destruct_and?; try congruence.
  - (* MStarted *) apply Hmain. unfold stepMain. cbv zeta. rewrite Hm. by eexists.
  - (* MRecv *)
    unfold launched in Hla.
    destruct (listenPc w) eqn:Hl; try done.
    + (* LInit *)
      apply Hlisten. unfold stepListen. cbv zeta. rewrite Hl.
      destruct (ctx (tun (mem w))); [| by eexists].
      destruct (Errgroup.WithContext _ _). by eexists.
    + (* LWaitDone *)
      destruct Hli2 as [g Hg].
      pose proof (closing_groupDone w Hctx Hd (ex_intro _ g Hg)) as Hgd.
      unfold groupDone in Hgd. rewrite Hg in Hgd.
      apply Hlisten. unfold stepListen. cbv zeta. rewrite Hl, Hg, Hgd. by eexists.
    + (* LClose *)
      apply Hlisten. unfold stepListen. cbv zeta. rewrite Hl.
      destruct (listener w); by eexists.
    + (* LWait *)
      destruct Hli2 as [[g Hg] _].
      destruct (acceptPc w) eqn:Ha.
      * unfold running in Hj. rewrite Hg in Hj. simpl in Hj.
        by destruct Hj.
      * exists (Accept (Some closedError)).
        unfold step, stepAccept. rewrite Hcr, Ha.
        destruct (listener w); [| by eexists].
        destruct (fromEndpoint (tun (mem w))); by eexists.
      * destruct (decide (pending (handlers w) = 0%nat)) as [Hp | Hp].
        -- apply Hlisten. unfold stepListen, Errgroup.Wait. cbv zeta. rewrite Hl, Hg.
           unfold running in Hj. rewrite Hg in Hj. simpl in Hj.
           destruct Hj as [-> _]. rewrite Hp. by eexists.
        -- destruct (pending_some _ Hp) as (c & pc & Hc & Hpc).
           destruct pc; try done.
           ++ exists (HandlerAdd c (Ok 0%nat)).
              unfold step, stepHandler. unfold Conn in *. rewrite Hcr, Hc.
              destruct (addConn _ _) as [[m' [e |]] |]; by eexists.
           ++ exists (HandlerStep c).
              unfold step, stepHandler. unfold Conn in *. rewrite Hcr, Hc. by eexists.
           ++ exists (HandlerEnd c None).
              unfold step, stepHandler. unfold Conn in *. rewrite Hcr, Hc. by eexists.
           ++ exists (HandlerStep c).
              unfold step, stepHandler. unfold Conn in *. rewrite Hcr, Hc.
              destruct (removeConn _); by eexists.
    + (* LSelect *)
      apply Hlisten. unfold stepListen. cbv zeta. rewrite Hl.
      destruct (ctx (tun (mem w))); [| by eexists].
      destruct (ctxDone _ _); by eexists.
    + (* LSend *) apply Hmain. unfold stepMain. cbv zeta. rewrite Hm, Hl. by eexists.
  - (* MStop *) apply Hmain. unfold stepMain. cbv zeta. rewrite Hm. by eexists.
  - (* MStopped *) apply Hmain. unfold stepMain. cbv zeta. rewrite Hm. by eexists.
Qed.

(** From a state in the accept phase where the context of the tunnel is
    done or the group has recorded an error, winding actions alone bring
    [Start] to its return. *)
Lemma unwinds (t0 : SSHTun) (n : nat) :
  ready t0 ->
  forall w,
    (measure w <= n)%nat -> allInv t0 n w ->
    launched w = true -> closing w ->
    exists s w',
      run w s = Some w' /\ is_Some (returned w') /\
      Forall (fun a => winding a = true) s /\
      launched w' = true /\ crashed w' = false.
Proof.
  intros Hr. induction n as [| n IH]; intros w Hm Hinv Hl Hd.
  - exists [], w. destruct Hinv as (_ & _ & _ & [Hcr _]).
    split_and!; [done | | constructor | done | done].
    unfold measure, returned in *.
    destruct (mainPc w); simpl in Hm; try lia. by eexists.
  - destruct (returned w) as [r |] eqn:Hret.
    { exists [], w. destruct Hinv as (_ & _ & _ & [Hcr _]).
      split_and!; [done | by rewrite Hret | constructor | done | done]. }
    pose proof Hinv as (Hf & Hj & _ & [Hcr _]).
    destruct (winding_step t0 w Hf Hj Hcr Hl Hd Hret) as (a & w1 & Ha & Hstep).
    pose proof (allInv_step t0 n w w1 a Hr Hinv Hstep) as Hinv1.
    pose proof Hinv1 as (_ & _ & _ & [Hcr1 _]).
    pose proof (step_measure w w1 a Hstep Hcr1 Ha) as Hlt.
    assert (He : entered w = true).
    { destruct Hf as ((? & _) & _). by eapply launched_entered. }
    pose proof (closing_step t0 w w1 a Hf He Hd Hstep) as Hd1.
    destruct (IH w1) as (s & w' & Hrun & Hret' & Hall & Hl' & Hcr');
      [lia | done | by eapply launched_step | done |].
    exists (a :: s), w'. split_and!; [| done | by constructor | done | done].
    simpl. by rewrite Hstep.
Qed.

(** ** A dial failure in a handler *)







(** ** The setters of the authentication *)

Lemma lastGiven_snoc {A : Type} (f : AuthCall -> option A) (cs : list AuthCall)
    (c : AuthCall) (d : A) :
  lastGiven f (cs ++ [c]) d
  = match f c with Some x => x | None => lastGiven f cs d end.
Proof.
  unfold lastGiven. rewrite omap_app. simpl.
  destruct (f c) as [x |]; simpl; [by rewrite last_snoc | by rewrite app_nil_r].
Qed.

Lemma callAuths_fields (cs : list AuthCall) (t : SSHTun) :
  callAuths cs t
  = set_auth (authType (callAuths cs t))
      (lastGiven fileOf cs (authKeyFile t))
      (lastGiven readerOf cs (authKeyReader t))
      (lastGiven passwordOf cs (authPassword t)) t.
Proof.
  induction cs as [| c cs IH] using rev_ind.
  - by destruct t.
  - unfold callAuths in *. rewrite foldl_app. simpl.
    rewrite !lastGiven_snoc. rewrite IH at 1.
    destruct c; simpl; reflexivity.
Qed.

(** ** Arithmetic of the pool *)

Lemma sub_zero (a : Z) : intMin <= a <= intMax -> (sub a 1 =? 0) = (a =? 1).
Proof.
  intros Hr. unfold sub, wrap, intMin, intMax in *.
  destruct (Z.eqb_spec a 1) as [-> | Hne]; [done |].
  apply Z.eqb_neq. intros H.
  destruct (Z.eq_dec a (- 2 ^ 63)) as [-> | Hmin]; [done |].
  rewrite Z.mod_small in H by lia. lia.
Qed.

(** ** Further properties of a run, of the pool and of the setters *)

(** X1.  In every run of [Start] on a tunnel that is not started, what the
    tunnel-state callback has been told is at any moment a beginning of
    [StateStarting], [StateStarted], [StateStopped], or is [StateStarting],
    [StateStopped] (and nothing when no callback is registered): each state
    is told at most once, in this order.  [StateStarted] is told only after
    the [listen] goroutine has been launched; and when [Start] has returned
    after launching it, all three states have been told and the [started]
    flag is clear. *)
Theorem tunnel_states_in_order (t0 : SSHTun) (k : nat) (sched : list Action)
    (w : World) :
  started t0 = false ->
  run (initWorld t0 k) sched = Some w ->
  (connStates (trace (mem w))
     `prefix_of` seen t0 [StateStarting; StateStarted; StateStopped] \/
   connStates (trace (mem w)) = seen t0 [StateStarting; StateStopped]) /\
  (StateStarted ∈ connStates (trace (mem w)) -> launched w = true) /\
  (forall r, returned w = Some r -> launched w = true ->
     connStates (trace (mem w))
     = seen t0 [StateStarting; StateStarted; StateStopped] /\
     started (tun (mem w)) = false).
Proof.
  intros Hs Hrun.
  pose proof (lifecycle_run t0 k sched w Hs Hrun) as (_ & _ & Hpc).
  unfold returned, seen in *.
  destruct (mainPc w) eqn:Hm; destruct_and?;
    try (destruct (launched w) eqn:Hl; destruct_and?);
    repeat match goal with H : trace _ = [] |- _ => rewrite H; clear H
                      | H : connStates _ = _ |- _ => rewrite H; clear H end.
  all: split_and!; try done.
  all: try (intros ? [= <-]; done).
  all: try (destruct (connState t0); rewrite ?elem_of_cons, ?elem_of_nil;
            intros; repeat match goal with H : _ \/ _ |- _ => destruct H end;
            done).
  all: try (by right).
  all: left; simpl; destruct (connState t0); try apply prefix_nil;
    try (by eexists []); try (by eexists [_]); try (by eexists [_; _]);
    try (by eexists [_; _; _]).
Qed.

Lemma tunnel_states_in_order_witness :
  connStates (trace (mem (exampleRun cleanRun)))
  = [StateStarting; StateStarted; StateStopped] /\
  started (tun (mem (exampleRun cleanRun))) = false.
Proof.
  assert (Hrun : run (initWorld exampleTun 0) cleanRun
                 = Some (exampleRun cleanRun)) by (vm_compute; reflexivity).
  assert (Hret : returned (exampleRun cleanRun) = Some None)
    by (vm_compute; reflexivity).
  assert (Hl : launched (exampleRun cleanRun) = true)
    by (vm_compute; reflexivity).
  destruct (tunnel_states_in_order exampleTun 0 cleanRun _ eq_refl Hrun)
    as (_ & _ & H).
  exact (H None Hret Hl).
Defined.

(** X2.  Once [errGroup.Wait()] has returned in [listen], and in particular
    once [Start] has returned after the accept phase, the listener has been
    closed, the accept loop has returned, every handler has returned, and
    the group counts no task. *)
Theorem listen_joins_its_tasks (t0 : SSHTun) (k : nat) (sched : list Action)
    (w : World) :
  started t0 = false ->
  run (initWorld t0 k) sched = Some w ->
  pastWait (listenPc w) = true \/
  (exists r, returned w = Some r /\ launched w = true) ->
  listenerClosed w = true /\
  (exists e, acceptPc w = AReturned e) /\
  (forall (c : Conn) pc, handlers w !! c = Some pc -> isReturned pc = true) /\
  Errgroup.gRunning <$> group w = Some 0%nat.
Proof.
  intros Hs Hrun Hp.
  destruct (joined_run t0 k sched w Hs Hrun) as (Hf & Hj & Hc).
  assert (Hpw : pastWait (listenPc w) = true).
  { destruct Hp as [Hp | (r & Hret & Hl)]; [done |].
    destruct (returned_resultOk t0 w r Hf Hret Hl) as [-> _]. done. }
  pose proof Hj as [_ Hr]. specialize (Hr Hpw).
  destruct (joined_tasks w Hj Hr) as [Ha Hpe].
  split_and!; try done.
  - unfold closeInv in Hc. rewrite Hc. by destruct (listenPc w).
  - by apply pending_all.
Qed.

Lemma listen_joins_its_tasks_witness :
  listenerClosed (exampleRun cleanRun) = true /\
  handlers (exampleRun cleanRun) = [HReturned None].
Proof.
  assert (Hrun : run (initWorld exampleTun 0) cleanRun
                 = Some (exampleRun cleanRun)) by (vm_compute; reflexivity).
  assert (Hp : pastWait (listenPc (exampleRun cleanRun)) = true)
    by (vm_compute; reflexivity).
  destruct (listen_joins_its_tasks exampleTun 0 cleanRun _ eq_refl Hrun
              (or_introl Hp)) as (H & _).
  split; [exact H | vm_compute; reflexivity].
Defined.

(** X3.  Once [Start] has returned, no goroutine of the run can take a
    step any more: the only actions still possible are calls of [Stop] and
    cancellations of the caller's context, and they change neither the
    tunnel, nor the trace of callbacks and sessions, nor the cancellation
    cells made by the run, nor the result. *)
Theorem nothing_runs_after_return (t0 : SSHTun) (k : nat)
    (s1 s2 : list Action) (w w' : World) (r : option error) :
  started t0 = false ->
  run (initWorld t0 k) s1 = Some w ->
  returned w = Some r ->
  run w s2 = Some w' ->
  Forall (fun a => a = CallStop \/ exists k', a = CancelCaller k') s2 /\
  sameButCaller w w' /\
  returned w' = Some r.
Proof.
  intros Hs Hrun Hret Hrun2.
  destruct (joined_run t0 k s1 w Hs Hrun) as (Hf & Hj & _).
  pose proof (settled_returned t0 w r Hf Hj Hret) as Hst.
  pose proof (settled_run r s2 w w' Hst Hrun2) as Hsame.
  split_and!; [by eapply settled_sched | done |].
  unfold returned in *. destruct Hsame as (_ & _ & _ & _ & -> & _). done.
Qed.

Lemma nothing_runs_after_return_witness :
  trace (mem (exampleRun (cleanRun ++ [CallStop; CancelCaller 0])))
  = trace (mem (exampleRun cleanRun)).
Proof.
  assert (Hrun : run (initWorld exampleTun 0) cleanRun
                 = Some (exampleRun cleanRun)) by (vm_compute; reflexivity).
  assert (Hret : returned (exampleRun cleanRun) = Some None)
    by (vm_compute; reflexivity).
  assert (Hrun2 : run (exampleRun cleanRun) [CallStop; CancelCaller 0]
                  = Some (exampleRun (cleanRun ++ [CallStop; CancelCaller 0])))
    by (vm_compute; reflexivity).
  destruct (nothing_runs_after_return exampleTun 0 cleanRun _ _ _ _
              eq_refl Hrun Hret Hrun2) as (_ & (_ & H & _) & _).
  exact H.
Defined.

(** X4.  In a run of [Start], called with a context that is not nil on a
    ready tunnel (made by a constructor, idle, the forward type [Local] or
    [Remote], the three endpoints not nil), that takes no more steps than
    [int] has positive values, none of the methods of this file panics: not
    [Start], not [listen] or its accept loop, not a handler in [addConn] or
    [removeConn], and not a concurrent [Stop].  The context has to be
    there: called with a nil context on such a tunnel, [Start] panics in
    [context.WithCancel]. *)
Theorem Start_never_panics (t0 : SSHTun) (k : nat) (sched : list Action)
    (w : World) :
  ready t0 ->
  Z.of_nat (length sched) <= intMax ->
  run (initWorld t0 k) sched = Some w ->
  crashed w = false /\
  startLockNil (mem (initWorld t0 k)) = Panic.
Proof.
  intros Hr Hlen Hrun. split.
  - by destruct (poolRun_run t0 k sched w Hr Hlen Hrun) as (_ & _ & _ & [? _]).
  - destruct Hr as (Hs & _). unfold startLockNil, initWorld. simpl.
    by rewrite Hs.
Qed.

Lemma Start_never_panics_witness :
  crashed (exampleRun cleanRun) = false /\
  startLockNil (mem (initWorld exampleTun 0)) = Panic.
Proof.
  apply (Start_never_panics exampleTun 0 cleanRun).
  - exact ready_exampleTun.
  - vm_compute. discriminate.
  - vm_compute. reflexivity.
Defined.

(** X5.  In such a run in Local mode, at every moment [active] is the
    number of handlers between their [addConn] and their [removeConn]; the
    tunnel holds a session exactly when there is such a handler; and the
    number of sessions opened so far is the number closed so far, plus one
    when a session is held.  So all the handlers share one session, which
    is closed when the last of them is done with it. *)
Theorem one_session_for_all_handlers (t0 : SSHTun) (k : nat)
    (sched : list Action) (w : World) :
  ready t0 ->
  forwardType t0 = Local ->
  Z.of_nat (length sched) <= intMax ->
  run (initWorld t0 k) sched = Some w ->
  active (tun (mem w)) = Z.of_nat (inFlight (handlers w)) /\
  (is_Some (sshClient (tun (mem w))) <-> (0 < inFlight (handlers w))%nat) /\
  count isOpen (trace (mem w))
  = (count isClose (trace (mem w))
     + match sshClient (tun (mem w)) with Some _ => 1 | None => 0 end)%nat.
Proof.
  intros Hr Hl Hlen Hrun.
  destruct (poolRun_run t0 k sched w Hr Hlen Hrun) as (_ & _ & [_ Hp] & _).
  unfold poolAt in Hp. rewrite Hl in Hp. simpl in Hp.
  destruct Hp as (Ha & Hc & Hn). split_and!; try done.
  rewrite Hn. destruct (inFlight (handlers w)) as [| h].
  - destruct (sshClient (tun (mem w))) as [c |] eqn:E; [| done].
    assert (0 < 0)%nat by (apply Hc; by eexists). lia.
  - destruct (proj2 Hc) as [c ->]; [lia | done].
Qed.

Lemma one_session_for_all_handlers_witness :
  active (tun (mem (exampleRun twoConns))) = 2 /\
  count isOpen (trace (mem (exampleRun twoConns))) = 1%nat.
Proof.
  assert (Hrun : run (initWorld exampleTun 0) twoConns
                 = Some (exampleRun twoConns)) by (vm_compute; reflexivity).
  assert (Hlen : Z.of_nat (length twoConns) <= intMax)
    by (vm_compute; discriminate).
  destruct (one_session_for_all_handlers exampleTun 0 twoConns _
              ready_exampleTun eq_refl Hlen Hrun) as (H1 & _ & H2).
  split; [rewrite H1 | rewrite H2]; vm_compute; reflexivity.
Defined.

(** X6.  When [Start] returns in such a run, [active] is 0 again, and in
    Local mode no session is held and every session that was opened has
    been closed. *)
Theorem pool_idle_when_Start_returns (t0 : SSHTun) (k : nat)
    (sched : list Action) (w : World) (r : option error) :
  ready t0 ->
  Z.of_nat (length sched) <= intMax ->
  run (initWorld t0 k) sched = Some w ->
  returned w = Some r ->
  active (tun (mem w)) = 0 /\
  (forwardType t0 = Local ->
   sshClient (tun (mem w)) = None /\
   count isOpen (trace (mem w)) = count isClose (trace (mem w))).
Proof.
  intros Hr Hlen Hrun Hret.
  destruct (poolRun_run t0 k sched w Hr Hlen Hrun) as (Hf & Hj & [_ Hp] & _).
  destruct (settled_returned t0 w r Hf Hj Hret) as (_ & _ & _ & _ & Hpe).
  pose proof (inFlight_pending (handlers w)) as Hle.
  assert (H0 : inFlight (handlers w) = 0%nat) by lia.
  unfold poolAt in Hp. rewrite H0 in Hp. destruct Hp as [Ha Hp].
  split; [done |]. intros Hl. rewrite Hl in Hp. simpl in Hp.
  destruct Hp as [Hc Hn]. split; [| lia].
  destruct (sshClient (tun (mem w))) as [c |] eqn:E; [| done].
  assert (0 < 0)%nat by (apply Hc; by eexists). lia.
Qed.

Lemma pool_idle_when_Start_returns_witness :
  active (tun (mem (exampleRun cleanRun))) = 0.
Proof.
  assert (Hrun : run (initWorld exampleTun 0) cleanRun
                 = Some (exampleRun cleanRun)) by (vm_compute; reflexivity).
  assert (Hret : returned (exampleRun cleanRun) = Some None)
    by (vm_compute; reflexivity).
  assert (Hlen : Z.of_nat (length cleanRun) <= intMax)
    by (vm_compute; discriminate).
  by destruct (pool_idle_when_Start_returns exampleTun 0 cleanRun _ _
                 ready_exampleTun Hlen Hrun Hret) as [H _].
Defined.

(** X7.  In a run in Remote mode no session is ever closed and the
    [sshClient] field keeps its value; there is at most one dial, the one
    [Start] makes; and once the [listen] goroutine has been launched exactly
    one session has been opened.  So the session dialed by [Start] is still
    open when [Start] returns. *)
Theorem Remote_session_is_never_closed (t0 : SSHTun) (k : nat)
    (sched : list Action) (w : World) :
  started t0 = false ->
  forwardType t0 = Remote ->
  run (initWorld t0 k) sched = Some w ->
  count isClose (trace (mem w)) = 0%nat /\
  sshClient (tun (mem w)) = sshClient t0 /\
  (count isDial (trace (mem w)) <= 1)%nat /\
  (launched w = true ->
   count isDial (trace (mem w)) = 1%nat /\
   count isOpen (trace (mem w)) = 1%nat).
Proof.
  intros Hs Hft Hrun.
  destruct (remoteInv_run t0 k sched w Hs Hft Hrun)
    as [(_ & _ & Hlc) (Hc & Hcl & Hpc)].
  split_and!; try done.
  - destruct (mainPc w); destruct_and?; lia.
  - intros Hl. destruct (mainPc w); destruct_and?; try congruence; auto.
Qed.

Lemma Remote_session_is_never_closed_witness :
  count isClose (trace (mem (runOf remoteTun remoteRun))) = 0%nat /\
  count isOpen (trace (mem (runOf remoteTun remoteRun))) = 1%nat /\
  returned (runOf remoteTun remoteRun) = Some None.
Proof.
  assert (Hrun : run (initWorld remoteTun 0) remoteRun
                 = Some (runOf remoteTun remoteRun)) by (vm_compute; reflexivity).
  assert (Hl : launched (runOf remoteTun remoteRun) = true)
    by (vm_compute; reflexivity).
  destruct (Remote_session_is_never_closed remoteTun 0 remoteRun _
              eq_refl eq_refl Hrun) as (H1 & _ & _ & H2).
  destruct (H2 Hl) as [_ H3].
  split_and!; [exact H1 | exact H3 | vm_compute; reflexivity].
Defined.

(** X8.  While the tunnel is started in a run of [Start], a call of [Stop]
    and the cancellation of the context given to [Start] both go through
    without a panic and make the context of the tunnel done; it stays done
    in whatever follows, and so is the context of the group as soon as
    [listen] has made it, which is what releases [listen] from its wait. *)
Theorem Stop_and_cancel_reach_the_tasks (t0 : SSHTun) (k : nat)
    (sched : list Action) (w : World) (a : Action) :
  started t0 = false ->
  run (initWorld t0 k) sched = Some w ->
  crashed w = false ->
  started (tun (mem w)) = true ->
  a = CallStop \/ a = CancelCaller k ->
  exists w1,
    step w a = Some w1 /\ crashed w1 = false /\
    forall s2 w2, run w1 s2 = Some w2 ->
      tunCtxDone (mem w2) = true /\
      (is_Some (group w2) -> groupDone w2 = true).
Proof.
  intros Hs Hrun Hcr Hst Ha.
  destruct (cancel_enabled t0 k sched w a Hs Hrun Hcr Hst Ha)
    as (w1 & Hstep & Hcr1 & Hd1 & He1 & _).
  exists w1. split_and!; try done.
  intros s2 w2 Hrun2.
  pose proof (fullInv_run t0 k sched w Hs Hrun) as Hf.
  pose proof (fullInv_step t0 w w1 a Hf Hstep) as Hf1.
  pose proof (fullInv_continue t0 s2 w1 w2 Hf1 Hrun2) as ((_ & Hctx2 & _) & _).
  destruct (ctxKept_run s2 w1 w2 He1 Hrun2) as (_ & _ & Hd2).
  split; [auto |]. apply groupDone_tunCtxDone; auto.
Qed.

Lemma Stop_and_cancel_reach_the_tasks_witness :
  exists w1, step (exampleRun startUp) CallStop = Some w1 /\
             tunCtxDone (mem w1) = true.
Proof.
  assert (Hrun : run (initWorld exampleTun 0) startUp
                 = Some (exampleRun startUp)) by (vm_compute; reflexivity).
  assert (Hcr : crashed (exampleRun startUp) = false)
    by (vm_compute; reflexivity).
  assert (Hst : started (tun (mem (exampleRun startUp))) = true)
    by (vm_compute; reflexivity).
  destruct (Stop_and_cancel_reach_the_tasks exampleTun 0 startUp _ CallStop
              eq_refl Hrun Hcr Hst (or_introl eq_refl))
    as (w1 & Hstep & _ & H).
  exists w1. split; [exact Hstep |]. by destruct (H [] w1 eq_refl).
Defined.

(** X9.  In a run of at most 2^60 steps on a ready tunnel, from any state
    of the accept phase in which [listen] has not yet looked at the context
    of the tunnel, a call of [Stop], or the cancellation of the context
    given to [Start], can be followed by steps of the goroutines alone (no
    new connection, no further [Stop]) after which [Start] has returned nil
    and nothing has panicked: it is enough that [Accept] returns on the
    closed listener and that the pending connections come to their end. *)
Theorem Stop_lets_Start_return (t0 : SSHTun) (k : nat) (sched : list Action)
    (w : World) (a : Action) :
  ready t0 ->
  Z.of_nat (length sched) <= 2 ^ 60 ->
  run (initWorld t0 k) sched = Some w ->
  launched w = true ->
  beforeSelect w = true ->
  a = CallStop \/ a = CancelCaller k ->
  exists s w',
    run w (a :: s) = Some w' /\
    Forall (fun a' => winding a' = true) s /\
    returned w' = Some None /\
    crashed w' = false.
Proof.
  intros Hr Hlen Hrun Hl Hb Ha.
  set (m := (220 + 4 * length sched)%nat).
  assert (Hbudget : Z.of_nat (length (sched ++ [a])) + Z.of_nat m <= intMax).
  { rewrite length_app. unfold intMax, m. simpl. lia. }
  pose proof Hr as (Hs & _).
  pose proof (fullInv_run t0 k sched w Hs Hrun) as Hf.
  pose proof Hf as ((Hlc & _ & Hli1 & _) & _).
  assert (Hcr0 : crashed w = false).
  { destruct (poolRun_run t0 k sched w Hr) as (_ & _ & _ & [? _]); try done.
    unfold intMax. lia. }
  assert (Hpc : mainPc w = MStarted \/ mainPc w = MRecv).
  { destruct Hlc as (_ & _ & Hpc). unfold beforeSelect, launched in *.
    destruct (mainPc w); destruct_and?; try congruence; auto;
      destruct Hli1 as [Hn | Hn]; rewrite Hn in *; done. }
  assert (Hst : started (tun (mem w)) = true).
  { destruct Hlc as (_ & _ & Hlc).
    destruct Hpc as [Hpc | Hpc]; rewrite Hpc in Hlc; by destruct_and!. }
  destruct (cancel_enabled t0 k sched w a Hs Hrun Hcr0 Hst Ha)
    as (w1 & Hstep & Hcr1 & Hd1 & He1 & Hm1 & Hl1 & _ & Hh1).
  assert (Hrun1 : run (initWorld t0 k) (sched ++ [a]) = Some w1).
  { rewrite run_app, Hrun. simpl. by rewrite Hstep. }
  pose proof (allInv_run t0 k _ m w1 Hr Hbudget Hrun1) as Hinv1.
  assert (Hla1 : launched w1 = true) by (unfold launched in *; by rewrite Hl1).
  assert (Hme : (measure w1 <= m)%nat).
  { pose proof (run_handlers _ _ _ Hrun) as Hh. simpl in Hh.
    pose proof (measure_le w1) as Hle. rewrite Hh1 in Hle. unfold m. lia. }
  destruct (unwinds t0 m Hr w1 Hme Hinv1 Hla1 (or_introl Hd1))
    as (s & w' & Hrun2 & [r Hret] & Hall & Hl' & Hcr').
  exists s, w'. split_and!; try done.
  - simpl. by rewrite Hstep.
  - assert (Hce : cancelledEarly w1).
    { unfold cancelledEarly. rewrite Hm1, Hl1. split_and!; [done | |].
      - by destruct Hpc as [-> | ->].
      - unfold beforeSelect in Hb. by destruct (listenPc w). }
    destruct Hinv1 as (Hf1 & _).
    pose proof (cancelledEarly_run t0 s w1 w' Hf1 Hce Hrun2) as (_ & _ & Hres).
    pose proof (fullInv_continue t0 s w1 w' Hf1 Hrun2) as Hf'.
    destruct (returned_resultOk t0 w' r Hf' Hret Hl') as [Hexit _].
    rewrite Hexit in Hres. unfold returned in *.
    destruct (mainPc w'); try done. by rewrite Hres.
Qed.

Lemma Stop_lets_Start_return_witness :
  exists s w',
    run (exampleRun (startUp ++ oneConn)) (CallStop :: s) = Some w' /\
    returned w' = Some None.
Proof.
  assert (Hrun : run (initWorld exampleTun 0) (startUp ++ oneConn)
                 = Some (exampleRun (startUp ++ oneConn)))
    by (vm_compute; reflexivity).
  assert (Hlen : Z.of_nat (length (startUp ++ oneConn)) <= 2 ^ 60)
    by (vm_compute; discriminate).
  destruct (Stop_lets_Start_return exampleTun 0 (startUp ++ oneConn) _
              CallStop ready_exampleTun Hlen Hrun)
    as (s & w' & H1 & _ & H2 & _);
    [vm_compute; reflexivity | vm_compute; reflexivity | by left |].
  exists s, w'. split; [exact H1 | exact H2].
Defined.

(** X10.  Once [Start] has returned, a call of [Stop] does nothing, and a
    new call of [Start] is accepted: its locked section sets [started],
    keeps the configuration and the trace, and makes a fresh context that
    is done exactly if the context given to the new call is.  The
    cancellations of the run before do not reach it. *)
Theorem Start_can_be_called_again (t0 : SSHTun) (k : nat)
    (sched : list Action) (w : World) (r : option error) (k' : nat) :
  started t0 = false ->
  run (initWorld t0 k) sched = Some w ->
  returned w = Some r ->
  Stop (mem w) = Done (mem w) /\
  exists m',
    startLock (CallerCtx k') (mem w) = (m', None) /\
    started (tun m') = true /\
    sameConfig t0 (tun m') /\
    trace m' = trace (mem w) /\
    tunCtxDone m' = bool_decide (k' ∈ callerDone (store (mem w))).
Proof.
  intros Hs Hrun Hret.
  pose proof (fullInv_run t0 k sched w Hs Hrun)
    as (((Hcfg & _ & Hpc) & (Hfresh & _) & _) & _).
  unfold returned in Hret. destruct (mainPc w); try done.
  destruct Hpc as (_ & Hst & _).
  unfold Stop, startLock, withCancel. rewrite Hst. split; [done |].
  eexists. split; [reflexivity |]. simpl. split_and!; try done.
  unfold tunCtxDone. simpl.
  assert (Hn : bool_decide (nextCell (store (mem w)) ∈ cancelled (store (mem w)))
               = false).
  { apply bool_decide_eq_false. intros Hin. apply Hfresh in Hin. lia. }
  by rewrite Hn.
Qed.

Lemma Start_can_be_called_again_witness :
  exists m', startLock (CallerCtx 1) (mem (exampleRun cleanRun)) = (m', None) /\
             tunCtxDone m' = false.
Proof.
  assert (Hrun : run (initWorld exampleTun 0) cleanRun
                 = Some (exampleRun cleanRun)) by (vm_compute; reflexivity).
  assert (Hret : returned (exampleRun cleanRun) = Some None)
    by (vm_compute; reflexivity).
  destruct (Start_can_be_called_again exampleTun 0 cleanRun _ _ 1%nat
              eq_refl Hrun Hret) as (_ & m' & H1 & _ & _ & _ & H2).
  exists m'. split; [exact H1 |]. rewrite H2. vm_compute. reflexivity.
Defined.

(** X11.  What [Start] returns on a tunnel that was not started: nil only
    after the accept phase and with the context of the tunnel done;
    otherwise an error that wraps its cause, which is a setup error before
    the accept phase and, after it, the wrapped accept error or, in Local
    mode, the wrapped dial error of a handler. *)
Theorem Start_results (t0 : SSHTun) (k : nat) (sched : list Action)
    (w : World) (r : option error) :
  started t0 = false ->
  run (initWorld t0 k) sched = Some w ->
  returned w = Some r ->
  match r with
  | None => launched w = true /\ tunCtxDone (mem w) = true
  | Some e =>
      is_Some (Unwrap e) /\
      if launched w then
        (exists ep cause,
           fromEndpoint t0 = Some ep /\ e = acceptError t0 ep cause) \/
        (forwardType t0 = Local /\
         exists srv cause, server t0 = Some srv /\ e = dialError srv cause)
      else isSetupError t0 e
  end.
Proof.
  intros Hs Hrun Hret.
  pose proof (fullInv_run t0 k sched w Hs Hrun) as Hf.
  destruct (launched w) eqn:Hl.
  - destruct (returned_resultOk t0 w r Hf Hret Hl) as [_ Hres].
    destruct Hf as (_ & (H1 & H2 & H3 & _) & _).
    destruct Hres as [[-> Hd] | [[e ->] He]]; [done |].
    symmetry in He. destruct (H1 e He) as [Ha | [c Hc]].
    + destruct (H2 e Ha) as (_ & ep & cause & Hep & ->).
      split; [by eexists |]. left. by eexists _, _.
    + destruct (H3 c e Hc) as (_ & Hft & srv & cause & Hsrv & ->).
      split; [by eexists |]. right. split; [done |]. by eexists _, _.
  - destruct Hf as (((_ & _ & Hpc) & _) & _).
    unfold returned in Hret. destruct (mainPc w); try done.
    injection Hret as ->. rewrite Hl in Hpc.
    destruct Hpc as (_ & _ & _ & e & -> & He).
    split; [by eapply isSetupError_wraps | done].
Qed.

Lemma Start_results_witness :
  launched (exampleRun cleanRun) = true /\
  tunCtxDone (mem (exampleRun cleanRun)) = true.
Proof.
  assert (Hrun : run (initWorld exampleTun 0) cleanRun
                 = Some (exampleRun cleanRun)) by (vm_compute; reflexivity).
  assert (Hret : returned (exampleRun cleanRun) = Some None)
    by (vm_compute; reflexivity).
  exact (Start_results exampleTun 0 cleanRun _ _ eq_refl Hrun Hret).
Defined.

(** X12.  A run of [Start] on a tunnel that was not started writes none of
    the settings (user, authentication fields, timeout, algorithm lists,
    name) and none of the callbacks, endpoints and forward type; and from
    the launch of [listen] on, the client configuration of the tunnel,
    with which the handlers dial, is the one [initSSHConfig] builds from
    those settings, with exactly one authentication method. *)
Theorem Start_keeps_the_settings (t0 : SSHTun) (k : nat) (sched : list Action)
    (w : World) :
  started t0 = false ->
  run (initWorld t0 k) sched = Some w ->
  settings (tun (mem w)) = settings t0 /\
  sameConfig t0 (tun (mem w)) /\
  (launched w = true ->
   exists a, sshConfig (tun (mem w)) = Some (configOf t0 a)).
Proof.
  intros Hs Hrun.
  destruct (settingsInv_run t0 k sched w Hs Hrun)
    as [(Hcfg & _ & Hlc) [Hset Hc]].
  split_and!; try done.
  intros Hl. rewrite Hl in Hlc, Hc.
  destruct (mainPc w); destruct_and?; try done.
Qed.

Lemma Start_keeps_the_settings_witness :
  exists a,
    sshConfig (tun (mem (runOf customTun startUp)))
    = Some {| KeyExchanges := []; Ciphers := ["aes128-ctr"]; MACs := [];
              User := "alice"; Timeout := 5000000000; Auth := [a] |}.
Proof.
  assert (Hrun : run (initWorld customTun 0) startUp
                 = Some (runOf customTun startUp)) by (vm_compute; reflexivity).
  assert (Hl : launched (runOf customTun startUp) = true)
    by (vm_compute; reflexivity).
  destruct (Start_keeps_the_settings customTun 0 startUp _ eq_refl Hrun)
    as (_ & _ & H).
  destruct (H Hl) as [a Ha]. exists a. exact Ha.
Defined.

(** X13.  With a forward type that is neither [Local] nor [Remote], which
    [SetForwardType] accepts, [Start] makes no listener and hands nil to
    [listen]: no connection is ever accepted, the listener is never closed,
    [Start] returns only if [initSSHConfig] fails, and the accept loop
    panics at its first [Accept], as [listen] does at its
    [listener.Close()]. *)
Theorem unknown_forward_type (t0 : SSHTun) (k : nat) (sched : list Action)
    (w : World) :
  started t0 = false ->
  forwardType t0 <> Local -> forwardType t0 <> Remote ->
  run (initWorld t0 k) sched = Some w ->
  handlers w = [] /\
  listenerClosed w = false /\
  (forall r, returned w = Some r -> exists cause, r = Some (configError cause)) /\
  (crashed w = false ->
   (acceptPc w = ARunning -> forall r, step w (Accept r) = Some (crash w)) /\
   (listenPc w = LClose -> step w ListenStep = Some (crash w))).
Proof.
  intros Hs Hl Hr Hrun.
  destruct (nilListener_run t0 k sched w Hs Hl Hr Hrun) as [Hf (Hh & Hli & Hm & Hp)].
  destruct (joined_run t0 k sched w Hs Hrun) as (_ & _ & Hc).
  split_and!; try done.
  - unfold closeInv in Hc. rewrite Hc. by destruct (listenPc w).
  - intros r Hret.
    destruct Hf as ((Hlc & _ & Hli1 & _) & _).
    unfold returned in Hret. destruct (mainPc w) eqn:Hpc; try done.
    injection Hret as ->.
    destruct Hlc as (_ & _ & Hlc). rewrite Hpc in Hlc.
    assert (Hla : launched w = false).
    { unfold launched. destruct Hli1 as [-> | He]; [done |].
      by rewrite He in Hp. }
    rewrite Hla in Hlc. destruct Hlc as (_ & _ & _ & e & -> & He).
    destruct He as [(c & ->) | [(? & ? & ? & _) | [(? & ? & ? & _)
                                                  | (? & ? & ? & _)]]];
      try done.
    by eexists.
  - intros Hcr. split.
    + intros Ha r. unfold step, stepAccept. by rewrite Hcr, Ha, Hli.
    + intros Hlc. unfold step, stepListen. by rewrite Hcr, Hlc, Hli.
Qed.

Lemma unknown_forward_type_witness :
  step (runOf oddTun oddUp) (Accept None) = Some (crash (runOf oddTun oddUp)).
Proof.
  assert (Hrun : run (initWorld oddTun 0) oddUp = Some (runOf oddTun oddUp))
    by (vm_compute; reflexivity).
  assert (H1 : forwardType oddTun <> Local) by (vm_compute; discriminate).
  assert (H2 : forwardType oddTun <> Remote) by (vm_compute; discriminate).
  destruct (unknown_forward_type oddTun 0 oddUp _ eq_refl H1 H2 Hrun)
    as (_ & _ & _ & H).
  destruct H as [H _]; [vm_compute; reflexivity |].
  apply H. vm_compute. reflexivity.
Defined.

(** X14.  When the endpoint to listen on is nil (after [SetLocalEndpoint(nil)]
    in Local mode, [SetRemoteEndpoint(nil)] in Remote mode), [Start] never
    reaches the accept phase; it can return only the configuration error
    or, in Remote mode, the dial error; and when it gets to listening it
    panics on the nil endpoint, in Remote mode after the session has been
    dialed. *)
Theorem Start_without_listen_endpoint (t0 : SSHTun) (k : nat)
    (sched : list Action) (w : World) :
  started t0 = false ->
  forwardType t0 = Local \/ forwardType t0 = Remote ->
  fromEndpoint t0 = None ->
  run (initWorld t0 k) sched = Some w ->
  launched w = false /\
  (forall r, returned w = Some r ->
     exists e, r = Some e /\
       ((exists cause, e = configError cause) \/
        (exists srv cause,
           forwardType t0 = Remote /\ server t0 = Some srv /\
           e = dialError srv cause))) /\
  (crashed w = false ->
   (mainPc w = MListen -> forall r,
      forwardType t0 = Local -> step w (MainListen r) = Some (crash w)) /\
   (forall c r, mainPc w = MRemoteListen c ->
      step w (MainRemoteListen r) = Some (crash w))).
Proof.
  intros Hs Hft Hfrom Hrun.
  assert (H : lifecycle t0 w /\ notListening w).
  { eapply (run_invariant (fun w => lifecycle t0 w /\ notListening w));
      [| | exact Hrun].
    - intros w1 a w2 [H1 H2] Hstep. split; [by eapply lifecycle_step |].
      pose proof H1 as (Hcfg & Hl & _).
      eapply notListening_step; [| | | | exact H2 | exact Hstep].
      + destruct Hcfg as (_ & _ & -> & _). done.
      + by rewrite (fromEndpoint_config t0).
      + intros Hla. by destruct (Hl Hla).
      + intros c Hc. destruct H1 as (_ & _ & Hpc). rewrite Hc in Hpc.
        destruct Hcfg as (_ & _ & -> & _). by destruct_and!.
    - split; [by apply lifecycle_init | by unfold notListening, initWorld]. }
  destruct H as [(Hcfg & _ & Hpc) [Hl Hm]].
  assert (Hla : launched w = false) by (unfold launched; by rewrite Hl).
  split_and!; [done | |].
  - intros r Hret. unfold returned in Hret.
    destruct (mainPc w); try done. injection Hret as ->.
    rewrite Hla in Hpc. destruct Hpc as (_ & _ & _ & e & -> & He).
    exists e. split; [done |]. unfold fromEndpoint in Hfrom.
    destruct He as [? | [(ep & c & Hf & Hep & _) | [(srv & c & ? & ? & ?)
                                                   | (ep & c & Hf & Hep & _)]]].
    + by left.
    + rewrite Hf in Hfrom. simpl in Hfrom. congruence.
    + right. by eexists _, _.
    + rewrite Hf in Hfrom. simpl in Hfrom. congruence.
  - intros Hcr. destruct Hcfg as (_ & _ & Hf & _ & Hloc & Hrem).
    unfold fromEndpoint in Hfrom. split.
    + intros Hmp r Hlo. rewrite Hlo in Hfrom. simpl in Hfrom.
      unfold step, stepMain. rewrite Hcr, Hmp, Hf, Hlo, Hloc, Hfrom. done.
    + intros c r Hmp. rewrite Hmp in Hpc.
      destruct Hpc as (_ & _ & _ & _ & Hre). rewrite Hre in Hfrom.
      simpl in Hfrom.
      unfold step, stepMain. rewrite Hcr, Hmp, Hrem, Hfrom. done.
Qed.

Lemma Start_without_listen_endpoint_witness :
  step (runOf nilTun configured) (MainListen (Ok 3%nat))
  = Some (crash (runOf nilTun configured)).
Proof.
  assert (Hrun : run (initWorld nilTun 0) configured
                 = Some (runOf nilTun configured)) by (vm_compute; reflexivity).
  destruct (Start_without_listen_endpoint nilTun 0 configured _ eq_refl
              (or_introl eq_refl) eq_refl Hrun) as (_ & _ & H).
  destruct H as [H _]; [vm_compute; reflexivity |].
  apply H; vm_compute; reflexivity.
Defined.

(** X15.  [addConn] with a dial that succeeds, followed by [removeConn],
    leaves the tunnel and the contexts as they were, whatever the forward
    type, provided [active] is below the largest [int] and, in Local mode
    with [active] at 0, the server endpoint is set and no session is held.
    The pair appends the dial and the close of a session to the trace when
    it runs in Local mode on an idle pool, and nothing otherwise. *)
Theorem addConn_removeConn_round_trip (m : Mem) (c : Client) :
  intMin <= active (tun m) < intMax ->
  (forwardType (tun m) = Local -> active (tun m) = 0 ->
   is_Some (server (tun m)) /\ sshClient (tun m) = None) ->
  exists m1 m2,
    addConn (Ok c) m = Done (m1, None) /\
    removeConn m1 = Done m2 /\
    tun m2 = tun m /\ store m2 = store m /\
    trace m2
    = trace m ++ (if (forwardType (tun m) =? Local) && (active (tun m) =? 0)
                  then [EvDial (Ok c); EvClose c] else []).
Proof.
  intros Hr Hidle.
  assert (Hadd : add (active (tun m)) 1 = active (tun m) + 1)
    by (by apply add_one).
  assert (Hsub : sub (active (tun m) + 1) 1 = active (tun m)).
  { rewrite sub_one by (unfold intMin, intMax in *; lia). lia. }
  destruct m as [t s tr]. simpl in *.
  unfold addConn, removeConn. simpl.
  destruct (Z.eqb_spec (forwardType t) Local) as [Hf | Hf]; simpl.
  - destruct (Z.eqb_spec (active t) 0) as [Ha | Ha].
    + destruct (Hidle Hf Ha) as [[srv Hsrv] Hcl]. rewrite Hsrv.
      eexists _, _. split; [reflexivity |]. simpl.
      rewrite Hf, Hadd, Hsub, Ha. simpl.
      split; [reflexivity |]. simpl. split_and!; try done.
      * destruct t. simpl in *. by subst.
      * by rewrite <- app_assoc.
    + eexists _, _. split; [reflexivity |]. simpl.
      rewrite Hf, Hadd, Hsub. simpl.
      destruct (Z.eqb_spec (active t) 0) as [? | _]; [done |].
      split; [reflexivity |]. simpl. split_and!; try done.
      * by destruct t.
      * by rewrite app_nil_r.
  - eexists _, _. split; [reflexivity |]. simpl.
    rewrite Hadd, Hsub.
    destruct (Z.eqb_spec (forwardType t) Local) as [? | _]; [done |]. simpl.
    split; [reflexivity |]. simpl. split_and!; try done.
    + by destruct t.
    + by rewrite app_nil_r.
Qed.

Lemma addConn_removeConn_round_trip_witness :
  exists m1 m2,
    addConn (Ok 9%nat) {| tun := exampleTun; store := emptyStore; trace := [] |}
    = Done (m1, None) /\
    removeConn m1 = Done m2 /\
    tun m2 = exampleTun /\
    trace m2 = [EvDial (Ok 9%nat); EvClose 9%nat].
Proof.
  destruct (addConn_removeConn_round_trip
              {| tun := exampleTun; store := emptyStore; trace := [] |} 9%nat)
    as (m1 & m2 & H1 & H2 & H3 & _ & H4).
  - vm_compute. split; [discriminate | reflexivity].
  - intros _ _. split; [by eexists | reflexivity].
  - exists m1, m2. split_and!; [exact H1 | exact H2 | exact H3 | exact H4].
Defined.

(** X16.  On a tunnel made by a constructor whose client configuration is
    set, as it is from [initSSHConfig] on in a run of [Start] ([ssh.Dial]
    is handed that configuration and needs it), [addConn] panics exactly
    when it has to dial (Local mode, [active] at 0) and the server endpoint
    is nil; [removeConn] panics exactly when it has to close the session
    (Local mode, [active] at 1) and there is none. *)
Theorem pool_panics_exactly (m : Mem) (d : result Client) :
  is_Some (sshConfig (tun m)) ->
  intMin <= active (tun m) <= intMax ->
  (addConn d m = Panic <->
   forwardType (tun m) = Local /\ active (tun m) = 0 /\ server (tun m) = None) /\
  (removeConn m = Panic <->
   forwardType (tun m) = Local /\ active (tun m) = 1 /\
   sshClient (tun m) = None).
Proof.
  intros _ Hr. unfold addConn, removeConn. simpl. rewrite (sub_zero _ Hr).
  destruct (Z.eqb_spec (forwardType (tun m)) Local) as [Hf | Hf]; simpl.
  - split.
    + destruct (Z.eqb_spec (active (tun m)) 0) as [Ha | Ha].
      * destruct (server (tun m)) as [srv |]; [| done].
        destruct d; split; try done; intros (_ & _ & ?); done.
      * split; [done | intros (_ & ? & _); done].
    + destruct (Z.eqb_spec (active (tun m)) 1) as [Ha | Ha].
      * destruct (sshClient (tun m)); split; try done. intros (_ & _ & ?); done.
      * split; [done | intros (_ & ? & _); done].
  - split; (split; [done | intros (? & _); done]).
Qed.

Lemma pool_panics_exactly_witness :
  removeConn
    {| tun := set_active 1
                (set_sshConfig (Some (configOf exampleTun 7%nat)) exampleTun);
       store := emptyStore; trace := [] |}
  = Panic.
Proof.
  apply (pool_panics_exactly
           {| tun := set_active 1
                       (set_sshConfig (Some (configOf exampleTun 7%nat))
                          exampleTun);
              store := emptyStore; trace := [] |}
           (Err refused)).
  - by eexists.
  - vm_compute. split; discriminate.
  - done.
Defined.

(** X17.  After any sequence of calls of the six authentication setters,
    the authentication kind is the one of the last call; the key file, the
    key reader and the password are each the one given by the last call
    that gives one, or the former value when no call does, so that a secret
    given earlier is not cleared by a later choice of another kind; and no
    other field of the tunnel is changed. *)
Theorem auth_setters_last_wins (cs : list AuthCall) (c : AuthCall) (t : SSHTun) :
  let t' := callAuths (cs ++ [c]) t in
  authType t' = selects c /\
  authKeyFile t' = lastGiven fileOf (cs ++ [c]) (authKeyFile t) /\
  authKeyReader t' = lastGiven readerOf (cs ++ [c]) (authKeyReader t) /\
  authPassword t' = lastGiven passwordOf (cs ++ [c]) (authPassword t) /\
  t' = set_auth (authType t') (authKeyFile t') (authKeyReader t')
         (authPassword t') t.
Proof.
  intros t'.
  assert (Hty : authType t' = selects c).
  { unfold t', callAuths. rewrite foldl_app. simpl. by destruct c. }
  pose proof (callAuths_fields (cs ++ [c]) t) as Hf. fold t' in Hf.
  split_and!; try done; try (by rewrite Hf at 1).
  rewrite Hf at 1. f_equal; by rewrite Hf at 1.
Qed.

(** X18.  What [SetUser], [SetTimeout], [SetKeyExchanges], [SetCiphers] and
    [SetMACs] are given before [Start] is called is what the sessions of the
    run are dialed with: from the launch of [listen] on, the client
    configuration of the tunnel has that user, that timeout and those three
    lists, and one authentication method. *)
Theorem settings_reach_the_session (t : SSHTun) (u : string) (d : Z)
    (kex cs ms : list string) (k : nat) (sched : list Action) (w : World) :
  started t = false ->
  run (initWorld
         (SetUser u (SetTimeout d (SetKeyExchanges kex
            (SetCiphers cs (SetMACs ms t))))) k) sched = Some w ->
  launched w = true ->
  exists a,
    sshConfig (tun (mem w))
    = Some {| KeyExchanges := kex; Ciphers := cs; MACs := ms; User := u;
              Timeout := d; Auth := [a] |}.
Proof.
  intros Hs Hrun Hl.
  set (t0 := SetUser u (SetTimeout d (SetKeyExchanges kex
                (SetCiphers cs (SetMACs ms t))))) in *.
  destruct (settingsInv_run t0 k sched w Hs Hrun) as [(_ & _ & Hlc) [_ Hc]].
  rewrite Hl in Hlc, Hc.
  destruct (mainPc w); destruct_and?; try done.
Qed.

Lemma settings_reach_the_session_witness :
  exists a,
    sshConfig
      (tun (mem (runOf (SetUser "alice" (SetTimeout 5000000000
                          (SetKeyExchanges ["curve25519-sha256"]
                             (SetCiphers ["aes128-ctr"]
                                (SetMACs ["hmac-sha2-256"] exampleTun)))))
                   startUp)))
    = Some {| KeyExchanges := ["curve25519-sha256"]; Ciphers := ["aes128-ctr"];
              MACs := ["hmac-sha2-256"]; User := "alice";
              Timeout := 5000000000; Auth := [a] |}.
Proof.
  apply (settings_reach_the_session exampleTun "alice" 5000000000
           ["curve25519-sha256"] ["aes128-ctr"] ["hmac-sha2-256"] 0%nat startUp).
  - reflexivity.
  - vm_compute. reflexivity.
  - vm_compute. reflexivity.
Defined.
